(** * A shallow embedding of package [env] (edoput/env)

    The package is the environment-variable analogue of Go's [flag]
    package: variables are declared on an [EnvSet], a list of
    [KEY=VALUE] strings is parsed against the declarations, and a usage
    listing can be printed.  This development embeds [env.go] and states
    properties of its behaviour.

    Layout: the prelude (bytes and strings), models of the parts of Go's
    standard library the package calls ([strconv], [time], [strings]),
    the embedding of [env.go] itself, and then the lemmas.  The
    package-level functions ([BoolVar], [Parse], ...) are the methods
    below applied to the package's [Environment]; [Link], which hooks
    [usage] into a [flag.FlagSet], and [SetOutput] are left out. *)

From Stdlib Require Import ZArith String Ascii List Floats.
From stdpp Require Import gmap strings list fin_maps sorting.

Local Open Scope string_scope.
Local Open Scope Z_scope.

(** ** Bytes and strings

    A Go [string] is a sequence of bytes; [String.string] is a list of
    [ascii], one per byte. *)

Definition byte (c : ascii) : Z := Z.of_N (N_of_ascii c).

Definition chr (z : Z) : ascii := ascii_of_N (Z.to_N z).

Definition len (s : string) : Z := Z.of_nat (String.length s).

(** [strings.Contains(s, "=")] and friends, for a one-byte separator. *)
Fixpoint ContainsByte (s : string) (c : ascii) : bool :=
  match s with
  | EmptyString => false
  | String a s' => if Ascii.eqb a c then true else ContainsByte s' c
  end.

(** [strings.Cut(s, sep)] for a one-byte separator: the text before the
    first [sep], the text after it, and whether [sep] was found. *)
Fixpoint CutByte (s : string) (c : ascii) : string * string * bool :=
  match s with
  | EmptyString => (EmptyString, EmptyString, false)
  | String a s' =>
      if Ascii.eqb a c then (EmptyString, s', true)
      else let '(before, after, found) := CutByte s' c in
           (String a before, after, found)
  end.

(** [strings.ReplaceAll(s, old, new)] for a one-byte [old]. *)
Fixpoint ReplaceAllByte (s : string) (old : ascii) (new : string) : string :=
  match s with
  | EmptyString => EmptyString
  | String a s' =>
      if Ascii.eqb a old then new ++ ReplaceAllByte s' old new
      else String a (ReplaceAllByte s' old new)
  end.

Definition LF : string := String (chr 10) EmptyString.
Definition TAB : string := String (chr 9) EmptyString.

(** ** Errors

    Go errors are interface values compared by identity.  The sentinels
    of the package and of [strconv] are constructors of their own; a
    value made by [errors.New] is [errorString], which is never equal to
    a sentinel whatever its text. *)

Inductive error : Type :=
  | ErrHelp                                  (* env.ErrHelp *)
  | errParse                                 (* env.errParse *)
  | errRange                                 (* env.errRange *)
  | ErrSyntax                                (* strconv.ErrSyntax *)
  | ErrRange                                 (* strconv.ErrRange *)
  | NumError (Func Num : string) (Err : error)   (* *strconv.NumError *)
  | errorString (s : string).                (* errors.New(s) *)

Fixpoint error_eqb (a b : error) : bool :=
  match a, b with
  | ErrHelp, ErrHelp | errParse, errParse | errRange, errRange
  | ErrSyntax, ErrSyntax | ErrRange, ErrRange => true
  | NumError f n e, NumError f' n' e' =>
      String.eqb f f' && String.eqb n n' && error_eqb e e'
  | errorString s, errorString s' => String.eqb s s'
  | _, _ => false
  end.

(** ** Model of [strconv] (Go standard library, outside the repository)

    The functions follow the library's algorithms for the arguments
    [env.go] passes: base 0 and bit sizes up to 64. *)

Module strconv.

(** [strconv.IntSize] on a 64-bit target. *)
Definition IntSize : Z := 64.

Definition syntaxError (fn str : string) : error := NumError fn str ErrSyntax.
Definition rangeError (fn str : string) : error := NumError fn str ErrRange.

Definition ParseBool (str : string) : bool * option error :=
  if String.eqb str "1" || String.eqb str "t" || String.eqb str "T"
     || String.eqb str "true" || String.eqb str "TRUE" || String.eqb str "True"
  then (true, None)
  else if String.eqb str "0" || String.eqb str "f" || String.eqb str "F"
     || String.eqb str "false" || String.eqb str "FALSE" || String.eqb str "False"
  then (false, None)
  else (false, Some (syntaxError "ParseBool" str)).

Definition FormatBool (b : bool) : string := if b then "true" else "false".

(** [lower(c)] is [c | ('x' - 'X')]. *)
Definition lower (c : ascii) : Z := Z.lor (byte c) 32.

Definition isDigit (c : ascii) : bool := (48 <=? byte c) && (byte c <=? 57).

Definition isHexLetter (c : ascii) : bool := (97 <=? lower c) && (lower c <=? 102).

(** [underscoreOK]: underscores may only separate digits (or follow the
    base prefix).  [saw] is the last class of byte seen: ["^"] start,
    ["0"] digit or prefix, ["_"] underscore, ["!"] anything else. *)
Fixpoint underscoreScan (hex : bool) (saw : ascii) (s : string) : bool :=
  match s with
  | EmptyString => negb (Ascii.eqb saw "_")
  | String c s' =>
      if isDigit c || (hex && isHexLetter c) then underscoreScan hex "0" s'
      else if Ascii.eqb c "_" then
        if negb (Ascii.eqb saw "0") then false else underscoreScan hex "_" s'
      else if Ascii.eqb saw "_" then false
      else underscoreScan hex "!" s'
  end.

Definition dropSign (s : string) : string :=
  match s with
  | String c s' => if Ascii.eqb c "-" || Ascii.eqb c "+" then s' else s
  | EmptyString => s
  end.

Definition underscoreOK (s0 : string) : bool :=
  let s := dropSign s0 in
  match s with
  | String c0 (String c1 s') =>
      if Ascii.eqb c0 "0" && ((lower c1 =? 98) || (lower c1 =? 111) || (lower c1 =? 120))
      then underscoreScan (lower c1 =? 120) "0" s'
      else underscoreScan false "^" s
  | _ => underscoreScan false "^" s
  end.

(** The digit loop of [ParseUint].  [inl] is an early return (value and
    error), [inr] the accumulator and the [underscores] flag at the end
    of the text.  [n*base] cannot wrap once [n < cutoff]; [n + d] is
    computed modulo 2^64 as in Go. *)
Fixpoint digits (fn s0 : string) (base cutoff maxVal : Z) (base0 : bool)
         (s : string) (n : Z) (underscores : bool)
  : (Z * error) + (Z * bool) :=
  match s with
  | EmptyString => inr (n, underscores)
  | String c s' =>
      if Ascii.eqb c "_" && base0 then
        digits fn s0 base cutoff maxVal base0 s' n true
      else
        let d := if isDigit c then Some (byte c - 48)
                 else if (97 <=? lower c) && (lower c <=? 122)
                      then Some (lower c - 97 + 10)
                      else None in
        match d with
        | None => inl (0, syntaxError fn s0)
        | Some d =>
            if base <=? d then inl (0, syntaxError fn s0)
            else if cutoff <=? n then inl (maxVal, rangeError fn s0)
            else
              let n' := n * base in
              let n1 := (n' + d) mod 2 ^ 64 in
              if (n1 <? n') || (maxVal <? n1) then inl (maxVal, rangeError fn s0)
              else digits fn s0 base cutoff maxVal base0 s' n1 underscores
        end
  end.

(** With [base = 0] the base is read off the prefix: [0b], [0o], [0x],
    a bare leading [0] (octal), or none (decimal). *)
Definition basePrefix (s : string) : Z * string :=
  match s with
  | String c0 rest =>
      if Ascii.eqb c0 "0" then
        match rest with
        | String c1 (String c2 rest') =>
            if lower c1 =? 98 then (2, String c2 rest')
            else if lower c1 =? 111 then (8, String c2 rest')
            else if lower c1 =? 120 then (16, String c2 rest')
            else (8, rest)
        | _ => (8, rest)
        end
      else (10, s)
  | EmptyString => (10, s)
  end.

Definition maxUint64 : Z := 2 ^ 64 - 1.

(** [ParseUint(s, 0, bitSize)], reporting errors under the name [fn]. *)
Definition parseUint (fn : string) (s : string) (bitSize : Z) : Z * option error :=
  match s with
  | EmptyString => (0, Some (syntaxError fn s))
  | _ =>
      let s0 := s in
      let '(base, s) := basePrefix s in
      let cutoff := maxUint64 / base + 1 in
      let maxVal := 2 ^ bitSize - 1 in
      match digits fn s0 base cutoff maxVal true s 0 false with
      | inl (v, err) => (v, Some err)
      | inr (n, underscores) =>
          if underscores && negb (underscoreOK s0) then (0, Some (syntaxError fn s0))
          else (n, None)
      end
  end.

Definition ParseUint (s : string) (bitSize : Z) : Z * option error :=
  parseUint "ParseUint" s bitSize.

(** Conversion [int64(u)] of a [uint64], and negation in [int64]. *)
Definition int64 (z : Z) : Z := (z + 2 ^ 63) mod 2 ^ 64 - 2 ^ 63.

(** [ParseInt(s, 0, bitSize)].  A syntax error of the unsigned parse is
    re-labelled with the function name and the whole text; a range
    error falls through to the signed range check. *)
Definition ParseInt (s0 : string) (bitSize : Z) : Z * option error :=
  match s0 with
  | EmptyString => (0, Some (syntaxError "ParseInt" s0))
  | String c rest =>
      let '(neg, s) := if Ascii.eqb c "+" then (false, rest)
                       else if Ascii.eqb c "-" then (true, rest)
                       else (false, s0) in
      let '(un, err) := parseUint "ParseUint" s bitSize in
      match err with
      | Some (NumError _ _ ErrRange) | None =>
          let cutoff := 2 ^ (bitSize - 1) in
          if negb neg && (cutoff <=? un) then (cutoff - 1, Some (rangeError "ParseInt" s0))
          else if neg && (cutoff <? un) then (- cutoff, Some (rangeError "ParseInt" s0))
          else
            let n := int64 un in
            ((if neg then int64 (- n) else n), None)
      | Some _ => (0, Some (syntaxError "ParseInt" s0))
      end
  end.

(** Decimal rendering.  [formatBits] produces the digits from the least
    significant one; twenty digits cover every [uint64]. *)
Fixpoint formatBits (fuel : nat) (u : Z) (acc : string) : string :=
  match fuel with
  | O => acc
  | S fuel' =>
      let acc' := String (chr (48 + u mod 10)) acc in
      if u / 10 =? 0 then acc' else formatBits fuel' (u / 10) acc'
  end.

Definition FormatUint (u : Z) : string := formatBits 20 u EmptyString.

Definition FormatInt (i : Z) : string :=
  if i <? 0 then String "-" (FormatUint (- i)) else FormatUint i.

Definition Itoa (i : Z) : string := FormatInt i.

End strconv.

(** ** Model of [time.Duration] (Go standard library, outside the repository)

    A [Duration] is an [int64] count of nanoseconds.  [ParseDuration]
    reads an optional sign and then one or more components, each a
    decimal number with an optional fraction followed by a unit; the
    fractional part of a component is scaled in [float64], modelled with the primitive
    binary64 floats. *)

Module time.

Definition Nanosecond : Z := 1.
Definition Microsecond : Z := 1000 * Nanosecond.
Definition Millisecond : Z := 1000 * Microsecond.
Definition Second : Z := 1000 * Millisecond.
Definition Minute : Z := 60 * Second.
Definition Hour : Z := 60 * Minute.

(** The micro sign U+00B5 and the Greek mu U+03BC in UTF-8. *)
Definition micro : string := String (chr 194) (String (chr 181) EmptyString).
Definition mu : string := String (chr 206) (String (chr 188) EmptyString).

Definition unitMap (u : string) : option Z :=
  if String.eqb u "ns" then Some Nanosecond
  else if String.eqb u "us" then Some Microsecond
  else if String.eqb u (micro ++ "s") then Some Microsecond
  else if String.eqb u (mu ++ "s") then Some Microsecond
  else if String.eqb u "ms" then Some Millisecond
  else if String.eqb u "s" then Some Second
  else if String.eqb u "m" then Some Minute
  else if String.eqb u "h" then Some Hour
  else None.

Definition isDigit (c : ascii) : bool := (48 <=? byte c) && (byte c <=? 57).

(** [leadingInt]: the leading run of digits, [None] on overflow past
    2^63. *)
Fixpoint leadingInt (s : string) (x : Z) : option (Z * string) :=
  match s with
  | EmptyString => Some (x, s)
  | String c s' =>
      if negb (isDigit c) then Some (x, s)
      else if 2 ^ 63 / 10 <? x then None
      else
        let x' := x * 10 + byte c - 48 in
        if 2 ^ 63 <? x' then None else leadingInt s' x'
  end.

(** [leadingFraction]: the leading run of digits as a numerator and a
    power-of-ten [scale]; digits past the overflow point are skipped. *)
Fixpoint leadingFraction (s : string) (x : Z) (scale : float) (overflow : bool)
  : Z * float * string :=
  match s with
  | EmptyString => (x, scale, s)
  | String c s' =>
      if negb (isDigit c) then (x, scale, s)
      else if overflow then leadingFraction s' x scale overflow
      else if (2 ^ 63 - 1) / 10 <? x then leadingFraction s' x scale true
      else
        let y := x * 10 + byte c - 48 in
        if 2 ^ 63 <? y then leadingFraction s' x scale true
        else leadingFraction s' y (scale * 10)%float false
  end.

(** The unit: the bytes up to the next ['.'] or digit. *)
Fixpoint unitSpan (s : string) : string * string :=
  match s with
  | EmptyString => (EmptyString, EmptyString)
  | String c s' =>
      if Ascii.eqb c "." || isDigit c then (EmptyString, s)
      else let '(u, rest) := unitSpan s' in (String c u, rest)
  end.

(** [float64(z)] of an unsigned integer, and [uint64(x)] of a float in
    range (truncation). *)
Definition float64_of_Z (z : Z) : float :=
  SF2Prim (SpecFloat.binary_normalize FloatOps.prec FloatOps.emax z 0 false).

Definition uint64_of_float (x : float) : Z :=
  match Prim2SF x with
  | SpecFloat.S754_finite false m e =>
      if 0 <=? e then Z.pos m * 2 ^ e else Z.pos m / 2 ^ (- e)
  | _ => 0
  end.

(** The text of the library's error carries the quoted input as well;
    [env.go] discards the value, so the text stops before it. *)
Definition invalidDuration : error := errorString "time: invalid duration".
Definition missingUnit : error := errorString "time: missing unit in duration".
Definition unknownUnit : error := errorString "time: unknown unit in duration".

(** The loop [for s != ""] of [ParseDuration]; every round consumes at
    least the unit, so [length s] rounds are enough.  The sum [d += v]
    is a [uint64] sum and wraps as in Go. *)
Fixpoint components (fuel : nat) (s : string) (d : Z) : Z + error :=
  match s with
  | EmptyString => inl d
  | String c0 _ =>
      match fuel with
      | O => inr invalidDuration
      | S fuel' =>
          if negb (Ascii.eqb c0 "." || isDigit c0) then inr invalidDuration
          else
            match leadingInt s 0 with
            | None => inr invalidDuration
            | Some (v, s1) =>
                let pre := negb (String.length s =? String.length s1)%nat in
                let '(f, scale, s2, post) :=
                  match s1 with
                  | String c s1' =>
                      if Ascii.eqb c "." then
                        let '(f, scale, s2) := leadingFraction s1' 0 1%float false in
                        (f, scale, s2, negb (String.length s1' =? String.length s2)%nat)
                      else (0, 1%float, s1, false)
                  | EmptyString => (0, 1%float, s1, false)
                  end in
                if negb pre && negb post then inr invalidDuration
                else
                  let '(u, s3) := unitSpan s2 in
                  match u with
                  | EmptyString => inr missingUnit
                  | _ =>
                      match unitMap u with
                      | None => inr unknownUnit
                      | Some unit =>
                          if 2 ^ 63 / unit <? v then inr invalidDuration
                          else
                            let v := v * unit in
                            let v :=
                              if 0 <? f
                              then v + uint64_of_float
                                         (float64_of_Z f * (float64_of_Z unit / scale))%float
                              else v in
                            if (0 <? f) && (2 ^ 63 <? v) then inr invalidDuration
                            else
                              let d := (d + v) mod 2 ^ 64 in
                              if 2 ^ 63 <? d then inr invalidDuration
                              else components fuel' s3 d
                      end
                  end
            end
      end
  end.

Definition ParseDuration (orig : string) : Z * option error :=
  let '(neg, s) :=
    match orig with
    | String c s' =>
        if Ascii.eqb c "-" || Ascii.eqb c "+" then (Ascii.eqb c "-", s') else (false, orig)
    | EmptyString => (false, orig)
    end in
  if String.eqb s "0" then (0, None)
  else if String.eqb s "" then (0, Some invalidDuration)
  else
    match components (String.length s) s 0 with
    | inr err => (0, Some err)
    | inl d =>
        if neg then (strconv.int64 (- strconv.int64 d), None)
        else if 2 ^ 63 - 1 <? d then (0, Some invalidDuration)
        else (d, None)
    end.

(** [fmtFrac]: [prec] low digits of [v] in front of [buf], trailing
    zeros and a bare decimal point omitted; returns the digits left. *)
Fixpoint fmtFracLoop (prec : nat) (buf : string) (v : Z) (print : bool)
  : string * Z * bool :=
  match prec with
  | O => (buf, v, print)
  | S prec' =>
      let digit := v mod 10 in
      let print := print || negb (digit =? 0) in
      let buf := if print then String (chr (digit + 48)) buf else buf in
      fmtFracLoop prec' buf (v / 10) print
  end.

Definition fmtFrac (buf : string) (v : Z) (prec : nat) : string * Z :=
  let '(buf, v, print) := fmtFracLoop prec buf v false in
  ((if print then String "." buf else buf), v).

Fixpoint fmtIntLoop (fuel : nat) (buf : string) (v : Z) : string :=
  match fuel with
  | O => buf
  | S fuel' =>
      if 0 <? v then fmtIntLoop fuel' (String (chr (v mod 10 + 48)) buf) (v / 10)
      else buf
  end.

Definition fmtInt (buf : string) (v : Z) : string :=
  if v =? 0 then String "0" buf else fmtIntLoop 20 buf v.

(** [Duration.String]: [72h3m0.5s]-style text; below one second the
    unit shrinks to [ms], [µs] or [ns]; zero is [0s]. *)
Definition String (d : Z) : string :=
  let neg := d <? 0 in
  let u := if neg then - d else d in
  let body :=
    if u <? Second then
      if u =? 0 then "0s"
      else if u <? Microsecond then
        let '(buf, u) := fmtFrac "ns" u 0 in fmtInt buf u
      else if u <? Millisecond then
        let '(buf, u) := fmtFrac (micro ++ "s") u 3 in fmtInt buf u
      else
        let '(buf, u) := fmtFrac "ms" u 6 in fmtInt buf u
    else
      let '(buf, u) := fmtFrac "s" u 9 in
      let buf := fmtInt buf (u mod 60) in
      let u := u / 60 in
      if 0 <? u then
        let buf := fmtInt (String "m" buf) (u mod 60) in
        let u := u / 60 in
        if 0 <? u then fmtInt (String "h" buf) u else buf
      else buf in
  if neg then String "-" body else body.

End time.

(** ** What the package takes from its surroundings

    [W] is the state of the calling program that its callbacks and its
    text-marshalling methods read and write.  [Quote] is the verb [%q]
    of [fmt] ([strconv.Quote]); [ParseFloat] and [FormatFloat] are
    [strconv.ParseFloat(s, 64)] and [strconv.FormatFloat(f, 'g', -1, 64)]. *)

Class Host : Type := {
  W : Type;
  Quote : string -> string;
  ParseFloat : string -> float * option error;
  FormatFloat : float -> string;
}.

(** Storage cells of the calling program, addressed by pointers.  Integer
    cells serve [int], [int64], [uint], [uint64] and [time.Duration]. *)
Inductive cell : Type :=
  | CBool (b : bool)
  | CInt (z : Z)
  | CString (s : string)
  | CFloat64 (f : float).

Abbreviation loc := positive (only parsing).

(** Reading through a typed pointer.  Go's type system makes the cell
    the right shape; the other branches only make the reader total. *)
Definition load_bool (mem : gmap positive cell) (p : loc) : bool :=
  match mem !! p with Some (CBool b) => b | _ => false end.
Definition load_int (mem : gmap positive cell) (p : loc) : Z :=
  match mem !! p with Some (CInt z) => z | _ => 0 end.
Definition load_string (mem : gmap positive cell) (p : loc) : string :=
  match mem !! p with Some (CString s) => s | _ => EmptyString end.
Definition load_float64 (mem : gmap positive cell) (p : loc) : float :=
  match mem !! p with Some (CFloat64 f) => f | _ => 0%float end.

(** Dynamic types as [reflect] sees them, as far as [newTextValue] looks. *)
Inductive rtype : Type :=
  | TNamed (name : string)
  | TPtr (elem : rtype).

Fixpoint rtype_eqb (a b : rtype) : bool :=
  match a, b with
  | TNamed x, TNamed y => String.eqb x y
  | TPtr x, TPtr y => rtype_eqb x y
  | _, _ => false
  end.

Fixpoint rtype_String (t : rtype) : string :=
  match t with
  | TNamed x => x
  | TPtr x => String "*" (rtype_String x)
  end.

Inductive ErrorHandling : Type :=
  | ContinueOnError
  | ExitOnError
  | PanicOnError.

Section Env.
Context `{Host}.

(** [err.Error()], which is also what [%v] prints for an error. *)
Fixpoint Error (err : error) : string :=
  match err with
  | ErrHelp => "env: help requested"
  | errParse => "parse error"
  | errRange => "value out of range"
  | ErrSyntax => "invalid syntax"
  | ErrRange => "value out of range"
  | NumError fn num err' =>
      "strconv." ++ fn ++ ": parsing " ++ Quote num ++ ": " ++ Error err'
  | errorString s => s
  end.

Definition numError (err : error) : error :=
  match err with
  | NumError _ _ ErrSyntax => errParse
  | NumError _ _ ErrRange => errRange
  | _ => err
  end.

(** A value implementing [encoding.TextUnmarshaler], with its dynamic
    type; [MarshalText] is [None] when the type does not implement
    [encoding.TextMarshaler].  [assign] is the effect of storing this
    value into the variable it is the default of. *)
Record TextUnmarshaler : Type := {
  typ : rtype;
  UnmarshalText : string -> W -> W * option error;
  MarshalText : option (W -> string * option error);
  assign : W -> W;
}.

(** The concrete types behind the interface [Value].  Callbacks are
    total functions on the caller's state. *)
Inductive Value : Type :=
  | boolValue (p : loc)
  | intValue (p : loc)
  | int64Value (p : loc)
  | uintValue (p : loc)
  | uint64Value (p : loc)
  | stringValue (p : loc)
  | float64Value (p : loc)
  | durationValue (p : loc)
  | textValue (p : TextUnmarshaler)
  | funcValue (f : string -> W -> W * option error)
  | boolFuncValue (f : string -> W -> W * option error).

(** What the program can observe and what the package can change
    outside the [EnvSet]: the caller's cells, the caller's other state,
    the bytes written to [e.Output()], and, as a trace for stating
    properties, the calls of [Value.Set] made so far. *)
Record Machine : Type := mkMachine {
  mem : gmap positive cell;
  world : W;
  out : string;
  calls : list (Value * string);
}.

Definition set_mem (f : gmap positive cell -> gmap positive cell) (m : Machine) : Machine :=
  mkMachine (f (mem m)) (world m) (out m) (calls m).
Definition set_world (w : W) (m : Machine) : Machine :=
  mkMachine (mem m) w (out m) (calls m).
Definition write (text : string) (m : Machine) : Machine :=
  mkMachine (mem m) (world m) (out m ++ text) (calls m).
Definition log_call (v : Value) (s : string) (m : Machine) : Machine :=
  mkMachine (mem m) (world m) (out m) (calls m ++ [(v, s)])%list.

(** *** The methods of each concrete type *)

Definition newBoolValue (val : bool) (p : loc) (m : Machine) : Value * Machine :=
  (boolValue p, set_mem <[p := CBool val]> m).

Definition boolValue_Set (b : loc) (s : string) (m : Machine) : Machine * option error :=
  let '(v, err) := strconv.ParseBool s in
  let err := match err with Some _ => Some errParse | None => None end in
  (set_mem <[b := CBool v]> m, err).

Definition boolValue_String (b : bool) : string := strconv.FormatBool b.

Definition newIntValue (val : Z) (p : loc) (m : Machine) : Value * Machine :=
  (intValue p, set_mem <[p := CInt val]> m).

Definition intValue_Set (b : loc) (s : string) (m : Machine) : Machine * option error :=
  let '(v, err) := strconv.ParseInt s strconv.IntSize in
  let err := match err with Some err => Some (numError err) | None => None end in
  (set_mem <[b := CInt v]> m, err).

Definition intValue_String (i : Z) : string := strconv.Itoa i.

Definition newInt64Value (val : Z) (p : loc) (m : Machine) : Value * Machine :=
  (int64Value p, set_mem <[p := CInt val]> m).

Definition int64Value_Set (i : loc) (s : string) (m : Machine) : Machine * option error :=
  let '(v, err) := strconv.ParseInt s 64 in
  let err := match err with Some err => Some (numError err) | None => None end in
  (set_mem <[i := CInt v]> m, err).

Definition int64Value_String (i : Z) : string := strconv.FormatInt i.

Definition newUintValue (val : Z) (p : loc) (m : Machine) : Value * Machine :=
  (uintValue p, set_mem <[p := CInt val]> m).

Definition uintValue_Set (u : loc) (s : string) (m : Machine) : Machine * option error :=
  let '(v, err) := strconv.ParseUint s strconv.IntSize in
  let err := match err with Some err => Some (numError err) | None => None end in
  (set_mem <[u := CInt v]> m, err).

Definition uintValue_String (u : Z) : string := strconv.FormatUint u.

Definition newUint64Value (val : Z) (p : loc) (m : Machine) : Value * Machine :=
  (uint64Value p, set_mem <[p := CInt val]> m).

Definition uint64Value_Set (u : loc) (s : string) (m : Machine) : Machine * option error :=
  let '(v, err) := strconv.ParseUint s 64 in
  let err := match err with Some err => Some (numError err) | None => None end in
  (set_mem <[u := CInt v]> m, err).

Definition uint64Value_String (u : Z) : string := strconv.FormatUint u.

Definition newStringValue (val : string) (p : loc) (m : Machine) : Value * Machine :=
  (stringValue p, set_mem <[p := CString val]> m).

Definition stringValue_Set (s : loc) (val : string) (m : Machine) : Machine * option error :=
  (set_mem <[s := CString val]> m, None).

Definition stringValue_String (s : string) : string := s.

Definition newFloat64Value (val : float) (p : loc) (m : Machine) : Value * Machine :=
  (float64Value p, set_mem <[p := CFloat64 val]> m).

Definition float64Value_Set (f : loc) (s : string) (m : Machine) : Machine * option error :=
  let '(v, err) := ParseFloat s in
  match err with
  | Some err => (m, Some (numError err))
  | None => (set_mem <[f := CFloat64 v]> m, None)
  end.

Definition float64Value_String (f : float) : string := FormatFloat f.

Definition newDurationValue (val : Z) (p : loc) (m : Machine) : Value * Machine :=
  (durationValue p, set_mem <[p := CInt val]> m).

Definition durationValue_Set (d : loc) (s : string) (m : Machine) : Machine * option error :=
  let '(v, err) := time.ParseDuration s in
  match err with
  | Some _ => (m, Some errParse)
  | None => (set_mem <[d := CInt v]> m, None)
  end.

Definition durationValue_String (d : Z) : string := time.String d.

Definition textValue_Set (p : TextUnmarshaler) (s : string) (m : Machine) : Machine * option error :=
  let '(w, err) := UnmarshalText p s (world m) in
  (set_world w m, err).

(** The receiver's [p] is [None] for the zero [textValue], whose nil
    interface is no [encoding.TextMarshaler]. *)
Definition textValue_String (p : option TextUnmarshaler) (w : W) : string :=
  match p with
  | Some p =>
      match MarshalText p with
      | Some marshal =>
          match marshal w with
          | (b, None) => b
          | (_, Some _) => EmptyString
          end
      | None => EmptyString
      end
  | None => EmptyString
  end.

Definition funcValue_Set (f : string -> W -> W * option error) (s : string) (m : Machine)
  : Machine * option error :=
  let '(w, err) := f s (world m) in (set_world w m, err).

Definition funcValue_String : string := EmptyString.

Definition boolFuncValue_Set (f : string -> W -> W * option error) (s : string) (m : Machine)
  : Machine * option error :=
  let '(w, err) := f s (world m) in (set_world w m, err).

Definition boolFuncValue_String : string := EmptyString.

(** *** The interface [Value]: dynamic dispatch *)

Definition Value_Set (v : Value) (s : string) (m : Machine) : Machine * option error :=
  let m := log_call v s m in
  match v with
  | boolValue p => boolValue_Set p s m
  | intValue p => intValue_Set p s m
  | int64Value p => int64Value_Set p s m
  | uintValue p => uintValue_Set p s m
  | uint64Value p => uint64Value_Set p s m
  | stringValue p => stringValue_Set p s m
  | float64Value p => float64Value_Set p s m
  | durationValue p => durationValue_Set p s m
  | textValue p => textValue_Set p s m
  | funcValue f => funcValue_Set f s m
  | boolFuncValue f => boolFuncValue_Set f s m
  end.

Definition Value_String (v : Value) (m : Machine) : string :=
  match v with
  | boolValue p => boolValue_String (load_bool (mem m) p)
  | intValue p => intValue_String (load_int (mem m) p)
  | int64Value p => int64Value_String (load_int (mem m) p)
  | uintValue p => uintValue_String (load_int (mem m) p)
  | uint64Value p => uint64Value_String (load_int (mem m) p)
  | stringValue p => stringValue_String (load_string (mem m) p)
  | float64Value p => float64Value_String (load_float64 (mem m) p)
  | durationValue p => durationValue_String (load_int (mem m) p)
  | textValue p => textValue_String (Some p) (world m)
  | funcValue _ => funcValue_String
  | boolFuncValue _ => boolFuncValue_String
  end.

Inductive any : Type :=
  | anyBool (b : bool)
  | anyInt (z : Z)
  | anyString (s : string)
  | anyFloat64 (f : float)
  | anyTextUnmarshaler (p : TextUnmarshaler)
  | anyNil.

Definition Value_Get (v : Value) (m : Machine) : any :=
  match v with
  | boolValue p => anyBool (load_bool (mem m) p)
  | intValue p | int64Value p | uintValue p | uint64Value p | durationValue p =>
      anyInt (load_int (mem m) p)
  | stringValue p => anyString (load_string (mem m) p)
  | float64Value p => anyFloat64 (load_float64 (mem m) p)
  | textValue p => anyTextUnmarshaler p
  | funcValue _ | boolFuncValue _ => anyNil
  end.

(** The interface [boolVar]: only [*boolValue] has the method
    [IsBoolVar]; [None] says the type does not implement it. *)
Definition IsBoolVar (v : Value) : option bool :=
  match v with
  | boolValue _ => Some true
  | _ => None
  end.

(** *** [Spec] and [EnvSet] *)

Record Spec : Type := mkSpec {
  Name : string;
  Description : string;
  Value_ : Value;
  DefValue : string;
}.

(** The maps hold pointers to [Spec]s; a [Spec] is never written after
    [Var] builds it, so the pointer is modelled by the record.  A nil
    map reads as the empty map.  [Usage], when set, is the caller's
    function: it acts on the caller's state and returns what it wrote
    to the output. *)
Record EnvSet : Type := mkEnvSet {
  Usage : option (W -> W * string);
  name : string;
  parsed : bool;
  actual : gmap string Spec;
  formal : gmap string Spec;
  environment : list string;
  errorHandling : ErrorHandling;
  undef : gmap string string;
}.

Definition set_formal (f : gmap string Spec) (e : EnvSet) : EnvSet :=
  mkEnvSet (Usage e) (name e) (parsed e) (actual e) f (environment e)
           (errorHandling e) (undef e).
Definition set_actual (a : gmap string Spec) (e : EnvSet) : EnvSet :=
  mkEnvSet (Usage e) (name e) (parsed e) a (formal e) (environment e)
           (errorHandling e) (undef e).
Definition set_environment (l : list string) (e : EnvSet) : EnvSet :=
  mkEnvSet (Usage e) (name e) (parsed e) (actual e) (formal e) l
           (errorHandling e) (undef e).
Definition set_parsed (b : bool) (e : EnvSet) : EnvSet :=
  mkEnvSet (Usage e) (name e) b (actual e) (formal e) (environment e)
           (errorHandling e) (undef e).
Definition set_Usage (u : option (W -> W * string)) (e : EnvSet) : EnvSet :=
  mkEnvSet u (name e) (parsed e) (actual e) (formal e) (environment e)
           (errorHandling e) (undef e).

(** The accessors [Name()] and [ErrorHandling()]. *)
Definition EnvSet_Name (e : EnvSet) : string := name e.
Definition EnvSet_ErrorHandling (e : EnvSet) : ErrorHandling := errorHandling e.

Definition NewEnvSet (name : string) (errorHandling : ErrorHandling) : EnvSet :=
  mkEnvSet None name false ∅ ∅ [] errorHandling ∅.

Definition Init (name : string) (errorHandling : ErrorHandling) (e : EnvSet) : EnvSet :=
  mkEnvSet (Usage e) name (parsed e) (actual e) (formal e) (environment e)
           errorHandling (undef e).

(** [sortVariables]: the [Spec]s of a map in ascending order of [Name]
    ([strings.Compare] is the byte order). *)
Definition name_le (a b : Spec) : Prop := Is_true (String.leb (Name a) (Name b)).

#[local] Instance name_le_dec (a b : Spec) : Decision (name_le a b).
Proof. unfold name_le. apply _. Defined.

Definition sortVariables (vars : gmap string Spec) : list Spec :=
  merge_sort name_le (snd <$> map_to_list vars).

(** [VisitAll] and [Visit] call [fn] on each element of these lists,
    in order. *)
Definition VisitAll (e : EnvSet) : list Spec := sortVariables (formal e).
Definition Visit (e : EnvSet) : list Spec := sortVariables (actual e).

(** [isZeroValue]: build a zero value of the variable's concrete type
    ([reflect.New] of the pointee for the pointer types, [reflect.Zero]
    for [textValue] and the function types) and compare its [String()]
    with [value].  None of the package's types panics there, so the
    recovered error is always nil. *)
Definition zeroString (v : Value) : string :=
  match v with
  | boolValue _ => boolValue_String false
  | intValue _ => intValue_String 0
  | int64Value _ => int64Value_String 0
  | uintValue _ => uintValue_String 0
  | uint64Value _ => uint64Value_String 0
  | stringValue _ => stringValue_String EmptyString
  | float64Value _ => float64Value_String 0%float
  | durationValue _ => durationValue_String 0
  | textValue _ => EmptyString
  | funcValue _ => funcValue_String
  | boolFuncValue _ => boolFuncValue_String
  end.

Definition isZeroValue (spec : Spec) (value : string) : bool * option error :=
  (String.eqb value (zeroString (Value_ spec)), None).

Definition backquote : ascii := chr 96.

(** [UnquoteUsage]: the first back-quoted name of the description and
    the description without the quotes; failing that, a name guessed
    from the type. *)
Definition UnquoteUsage (spec : Spec) : string * string :=
  let description := Description spec in
  let '(before, rest, found) := CutByte description backquote in
  let guess :=
    match Value_ spec with
    | boolValue _ => "boolean"
    | durationValue _ => "duration"
    | float64Value _ => "float"
    | intValue _ | int64Value _ => "int"
    | stringValue _ => "string"
    | uintValue _ | uint64Value _ => "uint"
    | _ => "value"
    end in
  if found then
    let '(name, after, found') := CutByte rest backquote in
    if found' then (name, before ++ name ++ after)
    else (guess, description)
  else (guess, description).

Definition isStringValue (v : Value) : bool :=
  match v with stringValue _ => true | _ => false end.

(** The body of the closure [PrintDefaults] passes to [VisitAll]: the
    text printed for one [Spec], and the error of [isZeroValue] if any. *)
Definition printSpec (spec : Spec) : string * option error :=
  let b := "  " ++ Name spec in
  let '(name, usage) := UnquoteUsage spec in
  let b := if (0 <? len name) then b ++ "  " ++ name else b in
  let b := b ++ LF ++ "    " ++ TAB in
  let b := b ++ ReplaceAllByte usage (chr 10) (LF ++ "    " ++ TAB) in
  match isZeroValue spec (DefValue spec) with
  | (_, Some err) => (b ++ LF, Some err)
  | (isZero, None) =>
      let b :=
        if negb isZero then
          if isStringValue (Value_ spec)
          then b ++ " (default " ++ Quote (DefValue spec) ++ ")"
          else b ++ " (default " ++ DefValue spec ++ ")"
        else b in
      (b ++ LF, None)
  end.

Fixpoint printSpecs (specs : list Spec) (m : Machine) (errs : list error)
  : Machine * list error :=
  match specs with
  | [] => (m, errs)
  | spec :: specs' =>
      let '(text, err) := printSpec spec in
      let errs := match err with Some err => (errs ++ [err])%list | None => errs end in
      printSpecs specs' (write text m) errs
  end.

Definition PrintDefaults (e : EnvSet) (m : Machine) : Machine :=
  let '(m, errs) := printSpecs (VisitAll e) m [] in
  match errs with
  | [] => m
  | _ => fold_left (fun m err => write (Error err ++ LF) m) errs (write LF m)
  end.

Definition defaultEnvironment (e : EnvSet) (m : Machine) : Machine :=
  let m :=
    if String.eqb (name e) "" then write ("Environment:" ++ LF) m
    else write ("Environment of " ++ name e ++ ":" ++ LF) m in
  PrintDefaults e m.

(** [sprintf] formats, prints the message and a newline to the output,
    and returns the message; the callers below pass the formatted text. *)
Definition sprintf (msg : string) (m : Machine) : string * Machine :=
  (msg, write (msg ++ LF) m).

Definition usage (e : EnvSet) (m : Machine) : Machine :=
  match Usage e with
  | None => defaultEnvironment e m
  | Some f => let '(w, text) := f (world m) in write text (set_world w m)
  end.

Definition failf (e : EnvSet) (msg : string) (m : Machine) : error * Machine :=
  let '(msg, m) := sprintf msg m in
  let m := usage e m in
  (errorString msg, m).

(** *** Declarations *)

Inductive result (T : Type) : Type :=
  | Ok (x : T)
  | Panic (msg : string) (m : Machine).
Arguments Ok {T} x.
Arguments Panic {T} msg m.

Definition Var (value : Value) (name description : string) (e : EnvSet) (m : Machine)
  : result (EnvSet * Machine) :=
  if ContainsByte name "=" then
    let '(msg, m) := sprintf ("variable " ++ Quote name ++ " contains =") m in
    Panic msg m
  else
    let v := mkSpec name description value (Value_String value m) in
    match formal e !! name with
    | Some _ =>
        let '(msg, m) :=
          if String.eqb (EnvSet_Name e) "" then sprintf ("variable redefined: " ++ name) m
          else sprintf (EnvSet_Name e ++ " variable redefined: " ++ name) m in
        Panic msg m
    | None =>
        let pos := default EmptyString (undef e !! name) in
        if negb (String.eqb pos "") then
          Panic ("variable " ++ name ++ " set at " ++ pos ++ " before being defined") m
        else Ok (set_formal (<[name := v]> (formal e)) e, m)
    end.

(** [new(T)]: a fresh cell holding the zero value [c]. *)
Definition new (c : cell) (m : Machine) : loc * Machine :=
  let p := fresh (dom (mem m)) in (p, set_mem <[p := c]> m).

(** [newTextValue].  [reflect.ValueOf(val)] never has kind Interface,
    so [defVal.Elem()] on a non-pointer panics inside [reflect]. *)
Definition newTextValue (val p : TextUnmarshaler) (m : Machine) : result (Value * Machine) :=
  match typ p with
  | TNamed _ => Panic "variable value type must be a pointer" m
  | TPtr elem =>
      match typ val with
      | TNamed _ => Panic "reflect: call of reflect.Value.Elem on non-pointer Value" m
      | TPtr _ =>
          if negb (rtype_eqb (typ val) elem) then
            Panic ("default type value does not match variable type: "
                   ++ rtype_String (typ val) ++ " != " ++ rtype_String elem) m
          else Ok (textValue p, set_world (assign val (world m)) m)
      end
  end.

Definition BoolVar (p : loc) (name : string) (value : bool) (description : string)
           (e : EnvSet) (m : Machine) : result (EnvSet * Machine) :=
  let '(v, m) := newBoolValue value p m in Var v name description e m.

Definition IntVar (p : loc) (name : string) (value : Z) (description : string)
           (e : EnvSet) (m : Machine) : result (EnvSet * Machine) :=
  let '(v, m) := newIntValue value p m in Var v name description e m.

Definition Int64Var (p : loc) (name : string) (value : Z) (description : string)
           (e : EnvSet) (m : Machine) : result (EnvSet * Machine) :=
  let '(v, m) := newInt64Value value p m in Var v name description e m.

Definition UintVar (p : loc) (name : string) (value : Z) (description : string)
           (e : EnvSet) (m : Machine) : result (EnvSet * Machine) :=
  let '(v, m) := newUintValue value p m in Var v name description e m.

Definition Uint64Var (p : loc) (name : string) (value : Z) (description : string)
           (e : EnvSet) (m : Machine) : result (EnvSet * Machine) :=
  let '(v, m) := newUint64Value value p m in Var v name description e m.

Definition StringVar (p : loc) (name : string) (value : string) (description : string)
           (e : EnvSet) (m : Machine) : result (EnvSet * Machine) :=
  let '(v, m) := newStringValue value p m in Var v name description e m.

Definition Float64Var (p : loc) (name : string) (value : float) (description : string)
           (e : EnvSet) (m : Machine) : result (EnvSet * Machine) :=
  let '(v, m) := newFloat64Value value p m in Var v name description e m.

Definition DurationVar (p : loc) (name : string) (value : Z) (description : string)
           (e : EnvSet) (m : Machine) : result (EnvSet * Machine) :=
  let '(v, m) := newDurationValue value p m in Var v name description e m.

Definition TextVar (p : TextUnmarshaler) (name : string) (value : TextUnmarshaler)
           (description : string) (e : EnvSet) (m : Machine) : result (EnvSet * Machine) :=
  match newTextValue value p m with
  | Ok (v, m) => Var v name description e m
  | Panic msg m => Panic msg m
  end.

Definition Func (name description : string) (fn : string -> W -> W * option error)
           (e : EnvSet) (m : Machine) : result (EnvSet * Machine) :=
  Var (funcValue fn) name description e m.

Definition BoolFunc (name description : string) (fn : string -> W -> W * option error)
           (e : EnvSet) (m : Machine) : result (EnvSet * Machine) :=
  Var (boolFuncValue fn) name description e m.

(** The forms that allocate the storage and return its address. *)
Definition returning (p : loc) (r : result (EnvSet * Machine)) : result (loc * EnvSet * Machine) :=
  match r with
  | Ok (e, m) => Ok (p, e, m)
  | Panic msg m => Panic msg m
  end.

Definition Bool (name : string) (value : bool) (description : string)
           (e : EnvSet) (m : Machine) : result (loc * EnvSet * Machine) :=
  let '(p, m) := new (CBool false) m in returning p (BoolVar p name value description e m).

Definition Int (name : string) (value : Z) (description : string)
           (e : EnvSet) (m : Machine) : result (loc * EnvSet * Machine) :=
  let '(p, m) := new (CInt 0) m in returning p (IntVar p name value description e m).

Definition Int64 (name : string) (value : Z) (description : string)
           (e : EnvSet) (m : Machine) : result (loc * EnvSet * Machine) :=
  let '(p, m) := new (CInt 0) m in returning p (Int64Var p name value description e m).

Definition Uint (name : string) (value : Z) (description : string)
           (e : EnvSet) (m : Machine) : result (loc * EnvSet * Machine) :=
  let '(p, m) := new (CInt 0) m in returning p (UintVar p name value description e m).

Definition Uint64 (name : string) (value : Z) (description : string)
           (e : EnvSet) (m : Machine) : result (loc * EnvSet * Machine) :=
  let '(p, m) := new (CInt 0) m in returning p (Uint64Var p name value description e m).

Definition String_ (name : string) (value : string) (description : string)
           (e : EnvSet) (m : Machine) : result (loc * EnvSet * Machine) :=
  let '(p, m) := new (CString EmptyString) m in
  returning p (StringVar p name value description e m).

Definition Float64 (name : string) (value : float) (description : string)
           (e : EnvSet) (m : Machine) : result (loc * EnvSet * Machine) :=
  let '(p, m) := new (CFloat64 0%float) m in
  returning p (Float64Var p name value description e m).

Definition Duration (name : string) (value : Z) (description : string)
           (e : EnvSet) (m : Machine) : result (loc * EnvSet * Machine) :=
  let '(p, m) := new (CInt 0) m in returning p (DurationVar p name value description e m).

(** One declaration call of the API, whatever its kind and form. *)
Inductive Decl : Type :=
  | callBoolVar (p : loc) (value : bool)
  | callBool (value : bool)
  | callIntVar (p : loc) (value : Z)
  | callInt (value : Z)
  | callInt64Var (p : loc) (value : Z)
  | callInt64 (value : Z)
  | callUintVar (p : loc) (value : Z)
  | callUint (value : Z)
  | callUint64Var (p : loc) (value : Z)
  | callUint64 (value : Z)
  | callStringVar (p : loc) (value : string)
  | callString (value : string)
  | callFloat64Var (p : loc) (value : float)
  | callFloat64 (value : float)
  | callDurationVar (p : loc) (value : Z)
  | callDuration (value : Z)
  | callTextVar (p value : TextUnmarshaler)
  | callFunc (fn : string -> W -> W * option error)
  | callBoolFunc (fn : string -> W -> W * option error)
  | callVar (value : Value).

Definition forget {T : Type} (r : result (T * EnvSet * Machine)) : result (EnvSet * Machine) :=
  match r with
  | Ok (_, e, m) => Ok (e, m)
  | Panic msg m => Panic msg m
  end.

Definition declare (d : Decl) (name description : string) (e : EnvSet) (m : Machine)
  : result (EnvSet * Machine) :=
  match d with
  | callBoolVar p value => BoolVar p name value description e m
  | callBool value => forget (Bool name value description e m)
  | callIntVar p value => IntVar p name value description e m
  | callInt value => forget (Int name value description e m)
  | callInt64Var p value => Int64Var p name value description e m
  | callInt64 value => forget (Int64 name value description e m)
  | callUintVar p value => UintVar p name value description e m
  | callUint value => forget (Uint name value description e m)
  | callUint64Var p value => Uint64Var p name value description e m
  | callUint64 value => forget (Uint64 name value description e m)
  | callStringVar p value => StringVar p name value description e m
  | callString value => forget (String_ name value description e m)
  | callFloat64Var p value => Float64Var p name value description e m
  | callFloat64 value => forget (Float64 name value description e m)
  | callDurationVar p value => DurationVar p name value description e m
  | callDuration value => forget (Duration name value description e m)
  | callTextVar p value => TextVar p name value description e m
  | callFunc fn => Func name description fn e m
  | callBoolFunc fn => BoolFunc name description fn e m
  | callVar value => Var value name description e m
  end.

(** *** Parsing *)

(** [parseOne]: the results are the error and [done]. *)
Definition parseOne (e : EnvSet) (m : Machine) : EnvSet * Machine * option error * bool :=
  match environment e with
  | [] => (e, m, None, true)
  | s :: rest =>
      let e := set_environment rest e in
      let '(name, value, _) := CutByte s "=" in
      if String.eqb name "HELP" || String.eqb name "H" then
        (e, usage e m, Some ErrHelp, false)
      else
        match formal e !! name with
        | None => (e, m, None, false)
        | Some spec =>
            match Value_Set (Value_ spec) value m with
            | (m, Some err) =>
                let '(err, m) :=
                  failf e ("invalid value " ++ Quote value ++ " for variable "
                           ++ name ++ ": " ++ Error err) m in
                (e, m, Some err, false)
            | (m, None) =>
                (set_actual (<[name := spec]> (actual e)) e, m, None, false)
            end
        end
  end.

(** How a call of [Parse] ends: it returns, the process exits, or it
    panics. *)
Inductive outcome : Type :=
  | Returned (err : option error)
  | Exited (code : Z)
  | Panicked (err : error).

(** The loop of [Parse].  Each round of [parseOne] that is not [done]
    removes an entry, so [n] rounds serve a list of [n] entries and the
    last branch of [O] is never reached ([Parse_loop_fuel]). *)
Fixpoint Parse_loop (n : nat) (e : EnvSet) (m : Machine) : EnvSet * Machine * outcome :=
  let '(e, m, err, done) := parseOne e m in
  if done then (e, m, Returned None)
  else
    match err with
    | None =>
        match n with
        | S n' => Parse_loop n' e m
        | O => (e, m, Returned None)
        end
    | Some err =>
        match errorHandling e with
        | ContinueOnError => (e, m, Returned (Some err))
        | ExitOnError =>
            if error_eqb err ErrHelp then (e, m, Exited 0) else (e, m, Exited 2)
        | PanicOnError => (e, m, Panicked err)
        end
    end.

Definition Parse (environment : list string) (e : EnvSet) (m : Machine)
  : EnvSet * Machine * outcome :=
  let e := set_parsed true e in
  let e := set_environment environment e in
  Parse_loop (length environment) e m.

End Env.

Arguments Ok {H T} x.
Arguments Panic {H T} msg m.

(** ** Runs of the parser, entry by entry

    [steps e m e' m' r]: repeating [parseOne] from [e] and [m] until the
    list is drained or a step reports an error ends in [e'] and [m'];
    [r] is the error of the failing step, [None] when no step fails. *)

Inductive steps `{Host} : EnvSet -> Machine -> EnvSet -> Machine -> option error -> Prop :=
  | steps_done e m e' m' :
      parseOne e m = (e', m', None, true) -> steps e m e' m' None
  | steps_fail e m e' m' err :
      parseOne e m = (e', m', Some err, false) -> steps e m e' m' (Some err)
  | steps_next e m e1 m1 e' m' r :
      parseOne e m = (e1, m1, None, false) -> steps e1 m1 e' m' r -> steps e m e' m' r.

(** The name of an entry: the text before its first ['=']. *)
Definition entryName (s : string) : string := (CutByte s "=").1.1.

Definition isHelp (name : string) : bool := String.eqb name "HELP" || String.eqb name "H".

(** What one step of [parseOne] does with the entry [s] at the head of
    the list, case by case: a help entry, an undeclared name, a [Set]
    that succeeds, a [Set] that fails. *)
Inductive stepCase `{Host} (e : EnvSet) (m : Machine) (s : string) (rest : list string)
  : EnvSet * Machine * option error * bool -> Prop :=
  | case_help : isHelp (entryName s) = true ->
      stepCase e m s rest (set_environment rest e, usage e m, Some ErrHelp, false)
  | case_unknown : isHelp (entryName s) = false -> formal e !! entryName s = None ->
      stepCase e m s rest (set_environment rest e, m, None, false)
  | case_set spec m1 : isHelp (entryName s) = false ->
      formal e !! entryName s = Some spec ->
      Value_Set (Value_ spec) (CutByte s "=").1.2 m = (m1, None) ->
      stepCase e m s rest
        (set_actual (<[entryName s := spec]> (actual e)) (set_environment rest e),
         m1, None, false)
  | case_fail spec m1 err msg : isHelp (entryName s) = false ->
      formal e !! entryName s = Some spec ->
      Value_Set (Value_ spec) (CutByte s "=").1.2 m = (m1, Some err) ->
      msg = "invalid value " ++ Quote (CutByte s "=").1.2 ++ " for variable "
            ++ entryName s ++ ": " ++ Error err ->
      stepCase e m s rest
        (set_environment rest e, usage e (write (msg ++ LF) m1),
         Some (errorString msg), false).

(** ** Vocabulary of the statements

    The integer kinds, and what [strconv] says about a text for each. *)
Definition integerParse `{Host} (v : Value) (s : string) : option (Z * option error) :=
  match v with
  | intValue _ => Some (strconv.ParseInt s strconv.IntSize)
  | int64Value _ => Some (strconv.ParseInt s 64)
  | uintValue _ => Some (strconv.ParseUint s strconv.IntSize)
  | uint64Value _ => Some (strconv.ParseUint s 64)
  | _ => None
  end.

(** The kinds that keep a scalar behind a pointer and parse it without
    floating point. *)
Definition isExactScalar `{Host} (v : Value) : bool :=
  match v with
  | boolValue _ | intValue _ | int64Value _ | uintValue _ | uint64Value _
  | stringValue _ => true
  | _ => false
  end.

(** The text after a unit letter is empty or starts with a digit. *)
Definition next_ok (next : string) : Prop :=
  next = EmptyString \/ exists c r, next = String c r /\ time.isDigit c = true.

(** The hours, minutes and seconds of [Duration.String] for a whole
    number [n] of seconds. *)
Definition hms (n : Z) : string :=
  let buf := time.fmtInt "s" (n mod 60) in
  let u := n / 60 in
  if 0 <? u then
    let buf := time.fmtInt (String "m" buf) (u mod 60) in
    let u := u / 60 in
    if 0 <? u then time.fmtInt (String "h" buf) u else buf
  else buf.

(** The last byte of a text. *)
Fixpoint lastByte (s : string) : option ascii :=
  match s with
  | EmptyString => None
  | String c EmptyString => Some c
  | String _ s' => lastByte s'
  end.

(** What [Parse] does with the result of the run under each policy. *)
Definition dispatch `{Host} (h : ErrorHandling) (r : option error) : outcome :=
  match r with
  | None => Returned None
  | Some err =>
      match h with
      | ContinueOnError => Returned (Some err)
      | ExitOnError => if error_eqb err ErrHelp then Exited 0 else Exited 2
      | PanicOnError => Panicked err
      end
  end.

(** ** Vocabulary of the further properties *)

(** The cell behind a value of one of the pointer types. *)
Definition pointer `{Host} (v : Value) : option positive :=
  match v with
  | boolValue p | intValue p | int64Value p | uintValue p | uint64Value p
  | stringValue p | float64Value p | durationValue p => Some p
  | textValue _ | funcValue _ | boolFuncValue _ => None
  end.

(** The call of [Set] that [parseOne] makes for the entry [s]: none for
    a help entry or an undeclared name. *)
Definition setCall `{Host} (vars : gmap string Spec) (s : string) : list (Value * string) :=
  if isHelp (entryName s) then []
  else
    match vars !! entryName s with
    | Some spec => [(Value_ spec, (CutByte s "=").1.2)]
    | None => []
    end.

(** The text of the default usage message. *)
Definition listing `{Host} (e : EnvSet) : string :=
  (if String.eqb (name e) "" then "Environment:" ++ LF
   else "Environment of " ++ name e ++ ":" ++ LF)
  ++ String.concat "" ((fun spec => (printSpec spec).1) <$> VisitAll e).

(** Every [Spec] of the map is filed under its own name, which has no
    ['='] in it. *)
Definition named `{Host} (vars : gmap string Spec) : Prop :=
  forall n spec, vars !! n = Some spec -> Name spec = n /\ ContainsByte n "=" = false.

(** The value a declaration call builds and the machine it hands to
    [Var]; for [TextVar], the panic of [newTextValue]. *)
Definition declValue `{Host} (d : Decl) (m : Machine) : result (Value * Machine) :=
  match d with
  | callBoolVar p value => Ok (newBoolValue value p m)
  | callBool value => let '(p, m) := new (CBool false) m in Ok (newBoolValue value p m)
  | callIntVar p value => Ok (newIntValue value p m)
  | callInt value => let '(p, m) := new (CInt 0) m in Ok (newIntValue value p m)
  | callInt64Var p value => Ok (newInt64Value value p m)
  | callInt64 value => let '(p, m) := new (CInt 0) m in Ok (newInt64Value value p m)
  | callUintVar p value => Ok (newUintValue value p m)
  | callUint value => let '(p, m) := new (CInt 0) m in Ok (newUintValue value p m)
  | callUint64Var p value => Ok (newUint64Value value p m)
  | callUint64 value => let '(p, m) := new (CInt 0) m in Ok (newUint64Value value p m)
  | callStringVar p value => Ok (newStringValue value p m)
  | callString value =>
      let '(p, m) := new (CString EmptyString) m in Ok (newStringValue value p m)
  | callFloat64Var p value => Ok (newFloat64Value value p m)
  | callFloat64 value =>
      let '(p, m) := new (CFloat64 0%float) m in Ok (newFloat64Value value p m)
  | callDurationVar p value => Ok (newDurationValue value p m)
  | callDuration value => let '(p, m) := new (CInt 0) m in Ok (newDurationValue value p m)
  | callTextVar p value => newTextValue value p m
  | callFunc fn => Ok (funcValue fn, m)
  | callBoolFunc fn => Ok (boolFuncValue fn, m)
  | callVar value => Ok (value, m)
  end.

(** The types of a [TextVar] call fit: the default is of a pointer type
    and the variable is a pointer to that type. *)
Definition textFits `{Host} (d : Decl) : Prop :=
  match d with
  | callTextVar p value => (exists t, typ value = TPtr t) /\ typ p = TPtr (typ value)
  | _ => True
  end.

(** The default of a declaration of a scalar kind, as [Get] returns it. *)
Definition defaultOf `{Host} (d : Decl) : option any :=
  match d with
  | callBoolVar _ value | callBool value => Some (anyBool value)
  | callIntVar _ value | callInt value | callInt64Var _ value | callInt64 value
  | callUintVar _ value | callUint value | callUint64Var _ value | callUint64 value
  | callDurationVar _ value | callDuration value => Some (anyInt value)
  | callStringVar _ value | callString value => Some (anyString value)
  | callFloat64Var _ value | callFloat64 value => Some (anyFloat64 value)
  | callTextVar _ _ | callFunc _ | callBoolFunc _ | callVar _ => None
  end.

(** Whether the default of a declaration of a bool, integer or string
    kind is the zero value of its type. *)
Definition zeroDefault `{Host} (d : Decl) : option bool :=
  match d with
  | callBoolVar _ value | callBool value => Some (negb value)
  | callIntVar _ value | callInt value | callInt64Var _ value | callInt64 value
  | callUintVar _ value | callUint value | callUint64Var _ value | callUint64 value =>
      Some (value =? 0)
  | callStringVar _ value | callString value => Some (String.eqb value "")
  | _ => None
  end.

(** The default of an integer declaration is a value of its Go type. *)
Definition inRange `{Host} (d : Decl) : Prop :=
  match d with
  | callIntVar _ value | callInt value | callInt64Var _ value | callInt64 value =>
      - 2 ^ 63 <= value < 2 ^ 63
  | callUintVar _ value | callUint value | callUint64Var _ value | callUint64 value =>
      0 <= value < 2 ^ 64
  | _ => True
  end.

(** The declaration calls of a program, one after the other, each with
    its name and description; the first panic ends the sequence. *)
Fixpoint declareAll `{Host} (ds : list (Decl * string * string)) (e : EnvSet) (m : Machine)
  : result (EnvSet * Machine) :=
  match ds with
  | [] => Ok (e, m)
  | (d, name, description) :: ds' =>
      match declare d name description e m with
      | Ok (e', m') => declareAll ds' e' m'
      | Panic msg m' => Panic msg m'
      end
  end.

(** ** A host to run the model on

    The caller's state is one string (what a callback stored last);
    [%q] puts plain double quotes around the text; no text is a float. *)

Definition doubleQuote : string := String (chr 34) EmptyString.

Definition exampleHost : Host := {|
  W := string;
  Quote := fun s => doubleQuote ++ s ++ doubleQuote;
  ParseFloat := fun s => (0%float, Some (NumError "ParseFloat" s ErrSyntax));
  FormatFloat := fun _ => "0";
|}.

Definition emptyMachine : @Machine exampleHost :=
  @mkMachine exampleHost ∅ EmptyString EmptyString [].

(** A callback that stores its argument. *)
Definition remember : string -> @W exampleHost -> @W exampleHost * option error :=
  fun s _ => (s, None).

(** An [EnvSet] declaring [PORT] (int, default 0, cell 1), [DEBUG] (bool,
    default false, cell 2) and [VERBOSE] (BoolFunc storing its argument). *)
Definition exampleSet (errorHandling : ErrorHandling)
  : option (@EnvSet exampleHost * @Machine exampleHost) :=
  match IntVar 1%positive "PORT" 0 "port to listen on"
               (NewEnvSet "" errorHandling) emptyMachine with
  | Ok (e, m) =>
      match BoolVar 2%positive "DEBUG" false "debug output" e m with
      | Ok (e, m) =>
          match BoolFunc "VERBOSE" "say more" remember e m with
          | Ok (e, m) => Some (e, m)
          | Panic _ _ => None
          end
      | Panic _ _ => None
      end
  | Panic _ _ => None
  end.

(** [Parse] after [exampleSet], and a second [Parse] after that. *)
Definition parseExample (errorHandling : ErrorHandling) (environment : list string)
  : option (@EnvSet exampleHost * @Machine exampleHost * outcome) :=
  match exampleSet errorHandling with
  | Some (e, m) => Some (Parse environment e m)
  | None => None
  end.

Definition parseTwice (errorHandling : ErrorHandling) (first second : list string)
  : option (@EnvSet exampleHost * @Machine exampleHost * outcome) :=
  match parseExample errorHandling first with
  | Some (e, m, _) => Some (Parse second e m)
  | None => None
  end.

(** The declarations of [exampleSet], and two of its [Spec]s. *)
Definition declared (errorHandling : ErrorHandling)
  : @EnvSet exampleHost * @Machine exampleHost :=
  match exampleSet errorHandling with
  | Some x => x
  | None => (NewEnvSet "" errorHandling, emptyMachine)
  end.

Definition portSpec : @Spec exampleHost :=
  mkSpec "PORT" "port to listen on" (intValue 1) "0".

Definition debugSpec : @Spec exampleHost :=
  mkSpec "DEBUG" "debug output" (boolValue 2) "false".

(** * Properties

    ** Bytes *)

Lemma byte_chr z : 0 <= z < 256 -> byte (chr z) = z.
Proof.
  intros Hz. unfold byte, chr.
  rewrite N_ascii_embedding by lia. lia.
Qed.

Lemma byte_inj a b : byte a = byte b -> a = b.
Proof.
  unfold byte. intros Hab.
  rewrite <- (ascii_N_embedding a), <- (ascii_N_embedding b).
  f_equal. lia.
Qed.

Lemma ascii_eqb_byte a b : Ascii.eqb a b = (byte a =? byte b).
Proof.
  destruct (Ascii.eqb_spec a b) as [->|Hne].
  - symmetry. apply Z.eqb_refl.
  - symmetry. apply Z.eqb_neq. intros Hb. apply Hne, byte_inj, Hb.
Qed.

(** ** [strconv]: what the integer parsers return, and decimal round trips *)

Module strconv_facts.
Import strconv.

Lemma digits_digit fn s0 maxVal b0 k s' n us :
  0 <= k < 10 -> 0 <= n -> n * 10 + k <= maxVal -> maxVal <= maxUint64 ->
  digits fn s0 10 (maxUint64 / 10 + 1) maxVal b0 (String (chr (48 + k)) s') n us
  = digits fn s0 10 (maxUint64 / 10 + 1) maxVal b0 s' (n * 10 + k) us.
Proof.
  intros Hk Hn Hle Hmax. cbn [digits].
  assert (Hb : byte (chr (48 + k)) = 48 + k) by (apply byte_chr; lia).
  rewrite ascii_eqb_byte, Hb.
  replace (byte "_") with 95 by reflexivity.
  replace (48 + k =? 95) with false by (symmetry; apply Z.eqb_neq; lia).
  cbn [andb]. unfold isDigit. rewrite Hb.
  replace (48 <=? 48 + k) with true by (symmetry; apply Z.leb_le; lia).
  replace (48 + k <=? 57) with true by (symmetry; apply Z.leb_le; lia).
  cbn [andb].
  replace (48 + k - 48) with k by lia.
  replace (10 <=? k) with false by (symmetry; apply Z.leb_gt; lia).
  assert (Hc : maxUint64 / 10 + 1 = 1844674407370955162) by reflexivity.
  rewrite Hc. clear Hc.
  unfold maxUint64 in Hmax.
  change (2 ^ 64) with 18446744073709551616 in *.
  replace (_ <=? n) with false by (symmetry; apply Z.leb_gt; lia).
  rewrite Z.mod_small by lia.
  replace (n * 10 + k <? n * 10) with false by (symmetry; apply Z.ltb_ge; lia).
  replace (maxVal <? n * 10 + k) with false by (symmetry; apply Z.ltb_ge; lia).
  reflexivity.
Qed.

Lemma digits_formatBits fn s0 maxVal b0 fuel : forall u acc,
  0 <= u -> u <= maxVal -> maxVal <= maxUint64 -> u < 10 ^ Z.of_nat fuel ->
  (0 < fuel)%nat ->
  digits fn s0 10 (maxUint64 / 10 + 1) maxVal b0 (formatBits fuel u acc) 0 false
  = digits fn s0 10 (maxUint64 / 10 + 1) maxVal b0 acc u false.
Proof.
  induction fuel as [|fuel IH]; intros u acc Hu Hle Hmax Hlt Hfuel; [lia|].
  cbn [formatBits].
  assert (Hmod : 0 <= u mod 10 < 10) by (apply Z.mod_pos_bound; lia).
  assert (Hdiv : u = 10 * (u / 10) + u mod 10) by (apply Z.div_mod; lia).
  assert (Hq : 0 <= u / 10) by (apply Z.div_pos; lia).
  destruct (Z.eqb_spec (u / 10) 0) as [Hz|Hnz].
  - rewrite digits_digit by lia. f_equal. lia.
  - rewrite Nat2Z.inj_succ, Z.pow_succ_r in Hlt by lia.
    destruct fuel as [|fuel'].
    { change (10 ^ Z.of_nat 0) with 1 in Hlt. lia. }
    rewrite IH by lia.
    rewrite digits_digit by lia. f_equal. lia.
Qed.

(** The text of a positive number starts with a digit from 1 to 9. *)
Lemma formatBits_head fuel : forall u acc,
  0 < u -> u < 10 ^ Z.of_nat fuel ->
  exists c rest, formatBits fuel u acc = String c rest /\ 49 <= byte c <= 57.
Proof.
  induction fuel as [|fuel IH]; intros u acc Hu Hlt.
  { change (10 ^ Z.of_nat 0) with 1 in Hlt. lia. }
  cbn [formatBits].
  assert (Hmod : 0 <= u mod 10 < 10) by (apply Z.mod_pos_bound; lia).
  assert (Hdiv : u = 10 * (u / 10) + u mod 10) by (apply Z.div_mod; lia).
  assert (Hq : 0 <= u / 10) by (apply Z.div_pos; lia).
  destruct (Z.eqb_spec (u / 10) 0) as [Hz|Hnz].
  - eexists _, _. split; [reflexivity|]. rewrite byte_chr by lia. lia.
  - rewrite Nat2Z.inj_succ, Z.pow_succ_r in Hlt by lia.
    apply IH; lia.
Qed.

Lemma FormatUint_zero : FormatUint 0 = "0".
Proof. reflexivity. Qed.

Lemma parseUint_FormatUint fn u bitSize :
  0 < bitSize <= 64 -> 0 <= u < 2 ^ bitSize ->
  parseUint fn (FormatUint u) bitSize = (u, None).
Proof.
  intros Hb Hu.
  assert (Hmax : 2 ^ bitSize - 1 <= maxUint64).
  { unfold maxUint64. assert (2 ^ bitSize <= 2 ^ 64) by (apply Z.pow_le_mono_r; lia). lia. }
  assert (H20 : u < 10 ^ Z.of_nat 20).
  { unfold maxUint64 in Hmax. change (2 ^ 64) with 18446744073709551616 in Hmax.
    change (10 ^ Z.of_nat 20) with 100000000000000000000. lia. }
  destruct (Z.eq_dec u 0) as [->|Hnz]; [reflexivity|].
  unfold FormatUint.
  destruct (formatBits_head 20 u EmptyString) as (c & rest & Heq & Hc); [lia|lia|].
  unfold parseUint. rewrite Heq.
  assert (Hbase : basePrefix (String c rest) = (10, String c rest)).
  { cbn [basePrefix]. rewrite ascii_eqb_byte.
    replace (byte c =? byte "0") with false; [reflexivity|].
    symmetry. apply Z.eqb_neq. change (byte "0") with 48. lia. }
  rewrite Hbase, <- Heq.
  rewrite digits_formatBits by lia.
  reflexivity.
Qed.

Lemma FormatUint_not_sign u :
  0 <= u < 10 ^ 20 ->
  exists c rest, FormatUint u = String c rest /\ 48 <= byte c <= 57.
Proof.
  intros Hu. destruct (Z.eq_dec u 0) as [->|Hnz].
  - exists "0"%char, EmptyString. split; [reflexivity|]. change (byte "0") with 48. lia.
  - destruct (formatBits_head 20 u EmptyString) as (c & rest & Heq & Hc); [lia| |].
    { change (10 ^ Z.of_nat 20) with (10 ^ 20). lia. }
    exists c, rest. split; [exact Heq|lia].
Qed.

Lemma ParseInt_FormatInt i bitSize :
  0 < bitSize <= 64 -> - 2 ^ (bitSize - 1) <= i < 2 ^ (bitSize - 1) ->
  ParseInt (FormatInt i) bitSize = (i, None).
Proof.
  intros Hb Hi.
  assert (Hpow : 2 ^ bitSize = 2 * 2 ^ (bitSize - 1)).
  { rewrite <- Z.pow_succ_r by lia. f_equal. lia. }
  assert (Hle : 2 ^ (bitSize - 1) <= 2 ^ 63) by (apply Z.pow_le_mono_r; lia).
  assert (Hpos : 0 < 2 ^ (bitSize - 1)) by (apply Z.pow_pos_nonneg; lia).
  change (2 ^ 63) with 9223372036854775808 in Hle.
  unfold FormatInt. destruct (Z.ltb_spec i 0) as [Hneg|Hnn].
  - cbn [ParseInt]. change (Ascii.eqb "-" "+") with false.
    change (Ascii.eqb "-" "-") with true. cbn iota.
    rewrite parseUint_FormatUint by lia.
    cbn [negb andb].
    replace (2 ^ (bitSize - 1) <? - i) with false by (symmetry; apply Z.ltb_ge; lia).
    f_equal. unfold int64. change (2 ^ 63) with 9223372036854775808.
    change (2 ^ 64) with 18446744073709551616.
    destruct (Z.eq_dec i (-9223372036854775808)) as [->|Hne]; [reflexivity|].
    rewrite (Z.mod_small (- i + _)) by lia.
    rewrite Z.mod_small by lia. lia.
  - destruct (FormatUint_not_sign i) as (c & rest & Heq & Hc).
    { change (10 ^ 20) with 100000000000000000000. lia. }
    rewrite Heq. cbn [ParseInt].
    rewrite !ascii_eqb_byte. change (byte "+") with 43. change (byte "-") with 45.
    replace (byte c =? 43) with false by (symmetry; apply Z.eqb_neq; lia).
    replace (byte c =? 45) with false by (symmetry; apply Z.eqb_neq; lia).
    cbn iota. rewrite <- Heq.
    rewrite parseUint_FormatUint by lia.
    cbn [negb andb].
    replace (2 ^ (bitSize - 1) <=? i) with false by (symmetry; apply Z.leb_gt; lia).
    f_equal. unfold int64. change (2 ^ 63) with 9223372036854775808.
    change (2 ^ 64) with 18446744073709551616.
    rewrite Z.mod_small by lia. lia.
Qed.

(** Early returns of the digit loop: zero with a syntax error, or the
    largest value with a range error. *)
Lemma digits_inl fn s0 base cutoff maxVal b0 s : forall n us v err,
  digits fn s0 base cutoff maxVal b0 s n us = inl (v, err) ->
  (v = 0 /\ err = syntaxError fn s0) \/ (v = maxVal /\ err = rangeError fn s0).
Proof.
  induction s as [|c s IH]; intros n us v err; cbn [digits]; [discriminate|].
  destruct (Ascii.eqb c "_" && b0); [apply IH|].
  destruct (if isDigit c then _ else _) as [d|]; [|intros [= <- <-]; auto].
  destruct (base <=? d); [intros [= <- <-]; auto|].
  destruct (cutoff <=? n); [intros [= <- <-]; auto|].
  destruct (_ || _); [intros [= <- <-]; auto|apply IH].
Qed.

Lemma digits_inr fn s0 base cutoff maxVal b0 s : forall n us n' us',
  digits fn s0 base cutoff maxVal b0 s n us = inr (n', us') ->
  0 <= n <= maxVal -> 0 <= n' <= maxVal.
Proof.
  induction s as [|c s IH]; intros n us n' us'; cbn [digits].
  { intros [= <- <-]. auto. }
  destruct (Ascii.eqb c "_" && b0); [apply IH|].
  destruct (if isDigit c then _ else _) as [d|]; [|discriminate].
  destruct (base <=? d); [discriminate|].
  destruct (cutoff <=? n); [discriminate|].
  destruct (_ || _) eqn:Hor; [discriminate|].
  intros Hd Hn. apply (IH _ _ _ _ Hd).
  apply orb_false_iff in Hor as [_ Hle%Z.ltb_ge].
  split; [|exact Hle]. apply Z.mod_pos_bound. reflexivity.
Qed.

Lemma parseUint_err fn s bitSize v err :
  parseUint fn s bitSize = (v, Some err) ->
  (v = 0 /\ err = syntaxError fn s) \/ (v = 2 ^ bitSize - 1 /\ err = rangeError fn s).
Proof.
  unfold parseUint. destruct s as [|c s]; [intros [= <- <-]; auto|].
  destruct (basePrefix (String c s)) as [base s'].
  destruct (digits _ _ _ _ _ _ _ _ _) as [[v' err']|[n us]] eqn:Hd.
  - intros [= <- <-]. exact (digits_inl _ _ _ _ _ _ _ _ _ _ _ Hd).
  - destruct (us && _); [intros [= <- <-]; auto|discriminate].
Qed.

Lemma parseUint_ok fn s bitSize v :
  0 <= bitSize ->
  parseUint fn s bitSize = (v, None) -> 0 <= v < 2 ^ bitSize.
Proof.
  intros Hb. unfold parseUint. destruct s as [|c s]; [discriminate|].
  destruct (basePrefix (String c s)) as [base s'].
  destruct (digits _ _ _ _ _ _ _ _ _) as [[v' err']|[n us]] eqn:Hd; [discriminate|].
  destruct (us && _); [discriminate|]. intros [= <-].
  apply digits_inr in Hd; [lia|].
  assert (0 < 2 ^ bitSize) by (apply Z.pow_pos_nonneg; lia). lia.
Qed.

Lemma ParseUint_err s bitSize v err :
  ParseUint s bitSize = (v, Some err) ->
  (v = 0 /\ err = NumError "ParseUint" s ErrSyntax)
  \/ (v = 2 ^ bitSize - 1 /\ err = NumError "ParseUint" s ErrRange).
Proof. apply parseUint_err. Qed.

Lemma ParseInt_err s bitSize v err :
  ParseInt s bitSize = (v, Some err) ->
  (v = 0 /\ err = NumError "ParseInt" s ErrSyntax)
  \/ ((v = 2 ^ (bitSize - 1) - 1 \/ v = - 2 ^ (bitSize - 1))
      /\ err = NumError "ParseInt" s ErrRange).
Proof.
  unfold ParseInt. destruct s as [|c s]; [intros [= <- <-]; auto|].
  destruct (if Ascii.eqb c "+" then _ else _) as [neg s'].
  destruct (parseUint "ParseUint" s' bitSize) as [un [e|]] eqn:Hu.
  - apply parseUint_err in Hu as [[-> ->]|[-> ->]].
    + intros [= <- <-]. auto.
    + cbn iota. destruct (_ && _); [intros [= <- <-]; auto|].
      destruct (_ && _); [intros [= <- <-]; auto|discriminate].
  - destruct (_ && _); [intros [= <- <-]; auto|].
    destruct (_ && _); [intros [= <- <-]; auto|discriminate].
Qed.

Lemma ParseInt_ok s bitSize v :
  0 < bitSize <= 64 ->
  ParseInt s bitSize = (v, None) -> - 2 ^ (bitSize - 1) <= v < 2 ^ (bitSize - 1).
Proof.
  intros Hb. unfold ParseInt. destruct s as [|c s]; [discriminate|].
  destruct (if Ascii.eqb c "+" then _ else _) as [neg s'].
  assert (Hle : 2 ^ (bitSize - 1) <= 2 ^ 63) by (apply Z.pow_le_mono_r; lia).
  assert (Hpos : 0 < 2 ^ (bitSize - 1)) by (apply Z.pow_pos_nonneg; lia).
  destruct (parseUint "ParseUint" s' bitSize) as [un [e|]] eqn:Hu.
  - apply parseUint_err in Hu as [[-> ->]|[-> ->]]; [discriminate|].
    cbn iota.
    assert (Hp : 2 ^ bitSize = 2 * 2 ^ (bitSize - 1)).
    { rewrite <- Z.pow_succ_r by lia. f_equal. lia. }
    destruct (negb neg && _) eqn:H1; [discriminate|].
    destruct (neg && _) eqn:H2; [discriminate|].
    destruct neg; cbn [negb andb] in *.
    + apply Z.ltb_ge in H2.
      assert (H3 : 2 ^ (bitSize - 1) = 1) by lia.
      rewrite Hp, H3. change (int64 (- int64 (2 * 1 - 1))) with (-1).
      intros [= <-]. lia.
    + apply Z.leb_gt in H1. lia.
  - apply parseUint_ok in Hu; [|lia].
    destruct (negb neg && _) eqn:H1; [discriminate|].
    destruct (neg && _) eqn:H2; [discriminate|].
    intros [= <-].
    change (2 ^ 63) with 9223372036854775808 in Hle.
    destruct neg; cbn [negb andb] in *.
    + apply Z.ltb_ge in H2.
      destruct (Z.eq_dec un 9223372036854775808) as [->|Hne].
      * change (int64 (- int64 9223372036854775808)) with (-9223372036854775808). lia.
      * unfold int64. change (2 ^ 63) with 9223372036854775808.
        change (2 ^ 64) with 18446744073709551616.
        rewrite (Z.mod_small (un + _)) by lia.
        rewrite Z.mod_small by lia. lia.
    + apply Z.leb_gt in H1.
      unfold int64. change (2 ^ 63) with 9223372036854775808.
      change (2 ^ 64) with 18446744073709551616.
      rewrite Z.mod_small by lia. lia.
Qed.
End strconv_facts.

(** ** [time]: durations of whole seconds are read back from their text *)

Module time_facts.

Lemma fmtFracLoop_zeros prec : forall buf v,
  0 <= v -> v mod 10 ^ Z.of_nat prec = 0 ->
  time.fmtFracLoop prec buf v false = (buf, v / 10 ^ Z.of_nat prec, false).
Proof.
  induction prec as [|prec IH]; intros buf v Hv Hmod.
  - cbn. by rewrite Z.div_1_r.
  - cbn [time.fmtFracLoop].
    rewrite Nat2Z.inj_succ, Z.pow_succ_r in * by lia.
    assert (H10 : 0 < 10 ^ Z.of_nat prec) by (apply Z.pow_pos_nonneg; lia).
    assert (Hd : v = 10 * 10 ^ Z.of_nat prec * (v / (10 * 10 ^ Z.of_nat prec)))
      by (apply Z.div_exact; lia).
    assert (Hm : v mod 10 = 0).
    { rewrite Hd, <- Z.mul_assoc, Z.mul_comm, Z.mod_mul; lia. }
    rewrite Hm. cbn [Z.eqb negb orb].
    rewrite IH.
    + by rewrite Z.div_div by lia.
    + apply Z.div_pos; lia.
    + rewrite Hd at 1. rewrite <- Z.mul_assoc, (Z.mul_comm 10), Z.div_mul by lia.
      rewrite Z.mul_comm, Z.mod_mul; lia.
Qed.

Lemma isDigit_chr d : 0 <= d < 10 -> time.isDigit (chr (d + 48)) = true.
Proof.
  intros Hd. unfold time.isDigit. rewrite byte_chr by lia.
  apply andb_true_iff. split; apply Z.leb_le; lia.
Qed.

Lemma leadingInt_digit d s x :
  0 <= d < 10 -> 0 <= x -> x * 10 + d <= 2 ^ 63 ->
  time.leadingInt (String (chr (d + 48)) s) x = time.leadingInt s (x * 10 + d).
Proof.
  intros Hd Hx Hle. cbn [time.leadingInt]. rewrite isDigit_chr by done. cbn [negb].
  change (2 ^ 63 / 10) with 922337203685477580.
  change (2 ^ 63) with 9223372036854775808 in *.
  replace (922337203685477580 <? x) with false by (symmetry; apply Z.ltb_ge; lia).
  rewrite byte_chr by lia.
  replace (x * 10 + (d + 48) - 48) with (x * 10 + d) by lia.
  by replace (9223372036854775808 <? x * 10 + d) with false by (symmetry; apply Z.ltb_ge; lia).
Qed.

Lemma leadingInt_fmtIntLoop fuel : forall buf v,
  0 <= v <= 2 ^ 63 -> v < 10 ^ Z.of_nat fuel ->
  time.leadingInt (time.fmtIntLoop fuel buf v) 0 = time.leadingInt buf v.
Proof.
  induction fuel as [|fuel IH]; intros buf v Hv Hlt.
  - change (10 ^ Z.of_nat 0) with 1 in Hlt. by replace v with 0 by lia.
  - cbn [time.fmtIntLoop]. destruct (Z.ltb_spec 0 v) as [Hpos|Hz].
    + assert (Hmod : 0 <= v mod 10 < 10) by (apply Z.mod_pos_bound; lia).
      assert (Hdiv : v = 10 * (v / 10) + v mod 10) by (apply Z.div_mod; lia).
      rewrite Nat2Z.inj_succ, Z.pow_succ_r in Hlt by lia.
      rewrite IH by lia.
      rewrite leadingInt_digit by lia. f_equal. lia.
    + by replace v with 0 by lia.
Qed.

Lemma leadingInt_fmtInt buf v :
  0 <= v <= 2 ^ 63 -> time.leadingInt (time.fmtInt buf v) 0 = time.leadingInt buf v.
Proof.
  intros Hv. unfold time.fmtInt. destruct (Z.eqb_spec v 0) as [->|Hnz].
  - by rewrite (leadingInt_digit 0).
  - apply leadingInt_fmtIntLoop; [done|].
    change (2 ^ 63) with 9223372036854775808 in Hv.
    change (10 ^ Z.of_nat 20) with 100000000000000000000. lia.
Qed.

Lemma fmtIntLoop_head fuel : forall c r v,
  time.isDigit c = true ->
  exists c' r', time.fmtIntLoop fuel (String c r) v = String c' r' /\ time.isDigit c' = true.
Proof.
  induction fuel as [|fuel IH]; intros c r v Hc; [by eexists _, _|].
  cbn [time.fmtIntLoop]. destruct (0 <? v) eqn:Hv; [|by eexists _, _].
  apply IH, isDigit_chr, Z.mod_pos_bound. lia.
Qed.

Lemma fmtIntLoop_S fuel buf v :
  time.fmtIntLoop (S fuel) buf v
  = if 0 <? v then time.fmtIntLoop fuel (String (chr (v mod 10 + 48)) buf) (v / 10) else buf.
Proof. reflexivity. Qed.

Lemma fmtInt_head buf v :
  0 <= v -> exists c r, time.fmtInt buf v = String c r /\ time.isDigit c = true.
Proof.
  intros Hv. unfold time.fmtInt. destruct (Z.eqb_spec v 0) as [->|Hnz]; [by eexists _, _|].
  rewrite (fmtIntLoop_S 19). replace (0 <? v) with true by (symmetry; apply Z.ltb_lt; lia).
  apply fmtIntLoop_head, isDigit_chr, Z.mod_pos_bound. lia.
Qed.

Lemma fmtIntLoop_length fuel : forall buf v,
  (String.length buf <= String.length (time.fmtIntLoop fuel buf v))%nat.
Proof.
  induction fuel as [|fuel IH]; intros buf v; [done|].
  cbn [time.fmtIntLoop]. destruct (0 <? v); [|done].
  etrans; [|apply IH]. cbn. lia.
Qed.

Lemma fmtInt_length buf v :
  0 <= v -> (String.length buf < String.length (time.fmtInt buf v))%nat.
Proof.
  intros Hv. unfold time.fmtInt. destruct (Z.eqb_spec v 0) as [->|Hnz]; [cbn; lia|].
  rewrite (fmtIntLoop_S 19). replace (0 <? v) with true by (symmetry; apply Z.ltb_lt; lia).
  eapply Nat.lt_le_trans; [|apply fmtIntLoop_length]. cbn. lia.
Qed.


(** One round of the loop on a component without a fraction. *)
Lemma components_round fuel c next v unit d :
  (c = "h" \/ c = "m" \/ c = "s")%char ->
  time.unitMap (String c EmptyString) = Some unit -> 0 < unit ->
  next_ok next ->
  0 <= v -> 0 <= d -> d + v * unit <= 2 ^ 63 ->
  time.components (S fuel) (time.fmtInt (String c next) v) d
  = time.components fuel next (d + v * unit).
Proof.
  intros Hc Hu Hunit Hnext Hv Hd Hle.
  assert (Hvle : v * 1 <= v * unit) by (apply Z.mul_le_mono_nonneg_l; lia).
  destruct (fmtInt_head (String c next) v Hv) as (c0 & r0 & Hs & Hc0).
  pose proof (leadingInt_fmtInt (String c next) v ltac:(lia)) as Hli.
  pose proof (fmtInt_length (String c next) v Hv) as Hlen.
  rewrite Hs in *. cbn [time.components].
  rewrite Hc0, orb_true_r. cbn [negb]. rewrite Hli.
  assert (Hcd : time.isDigit c = false /\ Ascii.eqb c "." = false)
    by (destruct Hc as [->|[->| ->]]; done).
  destruct Hcd as [Hcd Hcp].
  cbn [time.leadingInt]. rewrite Hcd. cbn [negb].
  replace (String.length (String c0 r0) =? String.length (String c next))%nat with false
    by (symmetry; apply Nat.eqb_neq; lia).
  rewrite Hcp. cbn [negb andb].
  assert (Hspan : time.unitSpan (String c next) = (String c EmptyString, next)).
  { cbn [time.unitSpan]. rewrite Hcp, Hcd. cbn [orb].
    destruct Hnext as [->|(c' & r' & -> & Hc')]; [done|].
    cbn [time.unitSpan]. by rewrite Hc', orb_true_r. }
  rewrite Hspan, Hu.
  replace (2 ^ 63 / unit <? v) with false.
  2:{ symmetry. apply Z.ltb_ge. apply Z.div_le_lower_bound; lia. }
  cbn [Z.ltb Z.compare andb].
  rewrite Z.mod_small; [|change (2 ^ 63) with 9223372036854775808 in Hle;
                          change (2 ^ 64) with 18446744073709551616; nia].
  by replace (2 ^ 63 <? d + v * unit) with false by (symmetry; apply Z.ltb_ge; lia).
Qed.

Lemma components_nil fuel d : time.components fuel EmptyString d = inl d.
Proof. by destruct fuel. Qed.

Lemma next_ok_fmtInt buf v : 0 <= v -> next_ok (time.fmtInt buf v).
Proof. intros Hv. right. by apply fmtInt_head. Qed.


Ltac units :=
  change (2 ^ 63) with 9223372036854775808 in *;
  change time.Hour with 3600000000000 in *;
  change time.Minute with 60000000000 in *;
  change time.Second with 1000000000 in *;
  lia.

Lemma components_hms n fuel :
  0 < n -> n * 1000000000 <= 2 ^ 63 ->
  (String.length (hms n) <= fuel)%nat ->
  time.components fuel (hms n) 0 = inl (n * 1000000000).
Proof.
  intros Hn Hle. unfold hms.
  assert (H1 : n = 60 * (n / 60) + n mod 60) by (apply Z.div_mod; lia).
  assert (H2 : 0 <= n mod 60 < 60) by (apply Z.mod_pos_bound; lia).
  assert (H3 : 0 <= n / 60) by (apply Z.div_pos; lia).
  assert (H4 : n / 60 = 60 * (n / 60 / 60) + (n / 60) mod 60) by (apply Z.div_mod; lia).
  assert (H5 : 0 <= (n / 60) mod 60 < 60) by (apply Z.mod_pos_bound; lia).
  assert (H6 : 0 <= n / 60 / 60) by (apply Z.div_pos; lia).
  set (secs := n mod 60) in *. set (u1 := n / 60) in *.
  set (mins := u1 mod 60) in *. set (hours := u1 / 60) in *.
  change (2 ^ 63) with 9223372036854775808 in Hle.
  pose proof (fmtInt_length "s" secs ltac:(lia)) as L1.
  pose proof (fmtInt_length (String "m" (time.fmtInt "s" secs)) mins ltac:(lia)) as L2.
  pose proof (fmtInt_length (String "h" (time.fmtInt (String "m" (time.fmtInt "s" secs)) mins))
                hours ltac:(lia)) as L3.
  cbn [String.length] in L1, L2, L3.
  destruct (Z.ltb_spec 0 u1) as [Hu1|Hu1].
  - destruct (Z.ltb_spec 0 hours) as [Hh|Hh]; intros Hfuel.
    + destruct fuel as [|[|[|fuel]]]; try lia.
      rewrite (components_round _ "h" _ hours time.Hour 0);
        [|tauto|reflexivity|units|apply next_ok_fmtInt; lia|units|units|units].
      rewrite (components_round _ "m" _ mins time.Minute);
        [|tauto|reflexivity|units|apply next_ok_fmtInt; lia|units|units|units].
      rewrite (components_round _ "s" _ secs time.Second);
        [|tauto|reflexivity|units|by left|units|units|units].
      rewrite components_nil. f_equal. units.
    + destruct fuel as [|[|fuel]]; try lia.
      rewrite (components_round _ "m" _ mins time.Minute 0);
        [|tauto|reflexivity|units|apply next_ok_fmtInt; lia|units|units|units].
      rewrite (components_round _ "s" _ secs time.Second);
        [|tauto|reflexivity|units|by left|units|units|units].
      rewrite components_nil. f_equal. units.
  - intros Hfuel. destruct fuel as [|fuel]; try lia.
    rewrite (components_round _ "s" _ secs time.Second 0);
      [|tauto|reflexivity|units|by left|units|units|units].
    rewrite components_nil. f_equal. units.
Qed.

Lemma hms_shape n :
  0 <= n -> exists c0 c1 r, hms n = String c0 (String c1 r) /\ time.isDigit c0 = true.
Proof.
  intros Hn.
  assert (Hgen : forall c next v, 0 <= v ->
            exists c0 c1 r, time.fmtInt (String c next) v = String c0 (String c1 r)
                            /\ time.isDigit c0 = true).
  { intros c next v Hv.
    destruct (fmtInt_head (String c next) v Hv) as (c0 & r0 & Hs & Hc0).
    pose proof (fmtInt_length (String c next) v Hv) as Hlen. rewrite Hs in Hlen.
    destruct r0 as [|c1 r]; [cbn in Hlen; lia|]. by exists c0, c1, r. }
  assert (H2 : 0 <= n mod 60 < 60) by (apply Z.mod_pos_bound; lia).
  assert (H3 : 0 <= n / 60) by (apply Z.div_pos; lia).
  assert (H5 : 0 <= (n / 60) mod 60 < 60) by (apply Z.mod_pos_bound; lia).
  assert (H6 : 0 <= n / 60 / 60) by (apply Z.div_pos; lia).
  unfold hms. destruct (0 <? n / 60); [destruct (0 <? n / 60 / 60)|]; apply Hgen; lia.
Qed.

Lemma String_seconds n :
  0 < n ->
  time.String (n * 1000000000) = hms n
  /\ time.String (- (n * 1000000000)) = String "-" (hms n).
Proof.
  intros Hn.
  assert (Hfrac : time.fmtFrac "s" (n * 1000000000) 9 = ("s", n)).
  { unfold time.fmtFrac. rewrite fmtFracLoop_zeros; [|lia|].
    - change (10 ^ Z.of_nat 9) with 1000000000. by rewrite Z.div_mul.
    - change (10 ^ Z.of_nat 9) with 1000000000. by rewrite Z.mod_mul. }
  unfold time.String. change time.Second with 1000000000.
  replace (n * 1000000000 <? 0) with false by (symmetry; apply Z.ltb_ge; lia).
  replace (- (n * 1000000000) <? 0) with true by (symmetry; apply Z.ltb_lt; lia).
  rewrite Z.opp_involutive.
  replace (n * 1000000000 <? 1000000000) with false by (symmetry; apply Z.ltb_ge; lia).
  rewrite Hfrac. done.
Qed.

Lemma ParseDuration_hms (n : Z) (neg : bool) :
  0 < n -> n * 1000000000 <= (if neg then 2 ^ 63 else 2 ^ 63 - 1) ->
  time.ParseDuration (if neg then String "-" (hms n) else hms n)
  = ((if neg then - (n * 1000000000) else n * 1000000000), None).
Proof.
  intros Hn Hle.
  destruct (hms_shape n ltac:(lia)) as (c0 & c1 & r & Hs & Hc0).
  assert (Hsign : Ascii.eqb c0 "-" = false /\ Ascii.eqb c0 "+" = false).
  { unfold time.isDigit in Hc0. apply andb_true_iff in Hc0 as [Ha%Z.leb_le Hb%Z.leb_le].
    rewrite !ascii_eqb_byte. change (byte "-") with 45. change (byte "+") with 43.
    split; apply Z.eqb_neq; lia. }
  destruct Hsign as [Hm Hp].
  assert (Hle' : n * 1000000000 <= 2 ^ 63) by (destruct neg; lia).
  pose proof (components_hms n (String.length (hms n)) Hn Hle' ltac:(done)) as Hcomp.
  assert (Hbody : forall b : bool,
            (let '(neg', s) := (b, hms n) in
             if String.eqb s "0" then (0, None)
             else if String.eqb s "" then (0, Some time.invalidDuration)
             else match time.components (String.length s) s 0 with
                  | inr err => (0, Some err)
                  | inl d => if neg' then (strconv.int64 (- strconv.int64 d), None)
                             else if 2 ^ 63 - 1 <? d then (0, Some time.invalidDuration)
                             else (d, None)
                  end)
            = (if b then (strconv.int64 (- strconv.int64 (n * 1000000000)), None)
               else if 2 ^ 63 - 1 <? n * 1000000000 then (0, Some time.invalidDuration)
               else (n * 1000000000, None))).
  { intros b. rewrite Hcomp. rewrite Hs. cbn [String.eqb].
    destruct (Ascii.eqb c0 "0"); by destruct b. }
  unfold time.ParseDuration. destruct neg.
  - change (Ascii.eqb "-" "-") with true. cbn [orb]. rewrite (Hbody true).
    f_equal. unfold strconv.int64.
    change (2 ^ 63) with 9223372036854775808 in *.
    change (2 ^ 64) with 18446744073709551616.
    destruct (Z.eq_dec (n * 1000000000) 9223372036854775808) as [->|Hne]; [reflexivity|].
    rewrite (Z.mod_small (n * 1000000000 + _)) by lia.
    rewrite Z.mod_small by lia. lia.
  - rewrite Hs, Hm, Hp. cbn [orb]. rewrite <- Hs. rewrite (Hbody false).
    by replace (2 ^ 63 - 1 <? n * 1000000000) with false by (symmetry; apply Z.ltb_ge; lia).
Qed.

(** A duration of a whole number of seconds is read back from its text. *)
Lemma ParseDuration_String k :
  - 2 ^ 63 <= k * time.Second < 2 ^ 63 ->
  time.ParseDuration (time.String (k * time.Second)) = (k * time.Second, None).
Proof.
  change time.Second with 1000000000. intros Hk.
  destruct (Z.lt_trichotomy k 0) as [Hneg|[->|Hpos]].
  - replace (k * 1000000000) with (- ((- k) * 1000000000)) by lia.
    destruct (String_seconds (- k) ltac:(lia)) as [_ ->].
    apply (ParseDuration_hms (- k) true); lia.
  - vm_compute. reflexivity.
  - destruct (String_seconds k Hpos) as [-> _].
    apply (ParseDuration_hms k false); lia.
Qed.

Lemma int64_range z : - 2 ^ 63 <= strconv.int64 z < 2 ^ 63.
Proof.
  unfold strconv.int64.
  assert (0 <= (z + 2 ^ 63) mod 2 ^ 64 < 2 ^ 64) by (apply Z.mod_pos_bound; reflexivity).
  change (2 ^ 63) with 9223372036854775808 in *.
  change (2 ^ 64) with 18446744073709551616 in *. lia.
Qed.

Lemma components_nonneg fuel : forall s d r,
  time.components fuel s d = inl r -> 0 <= d -> 0 <= r.
Proof.
  induction fuel as [|fuel IH]; intros s d r; destruct s as [|c0 s0]; cbn [time.components].
  - by intros [= <-].
  - discriminate.
  - by intros [= <-].
  - intros Hc Hd. repeat case_match; try discriminate;
      (eapply IH; [exact Hc|]; apply Z.mod_pos_bound; reflexivity).
Qed.

(** A text that [ParseDuration] accepts gives an [int64]. *)
Lemma ParseDuration_ok s v :
  time.ParseDuration s = (v, None) -> - 2 ^ 63 <= v < 2 ^ 63.
Proof.
  unfold time.ParseDuration.
  destruct (match s with String c s' => _ | EmptyString => _ end) as [neg s1].
  destruct (String.eqb s1 "0"); [intros [= <-]; done|].
  destruct (String.eqb s1 ""); [discriminate|].
  destruct (time.components _ _ _) as [d|err] eqn:Hc; [|discriminate].
  apply components_nonneg in Hc; [|done].
  destruct neg; [intros [= <-]; apply int64_range|].
  destruct (Z.ltb_spec (2 ^ 63 - 1) d); [discriminate|]. intros [= <-]. lia.
Qed.
End time_facts.

(** ** The parser, step by step *)

Section Parsing.
Context `{Host}.
Implicit Types (e : EnvSet) (m : Machine) (s name value : string).

Lemma CutByte_sep name value c :
  ContainsByte name c = false ->
  CutByte (name ++ String c value) c = (name, value, true).
Proof.
  induction name as [|a name IH]; simpl.
  - intros _. by rewrite Ascii.eqb_refl.
  - destruct (Ascii.eqb a c); [discriminate|]. intros Hn. by rewrite IH.
Qed.

Lemma CutByte_none name c :
  ContainsByte name c = false -> CutByte name c = (name, EmptyString, false).
Proof.
  induction name as [|a name IH]; cbn [ContainsByte CutByte]; [done|].
  destruct (Ascii.eqb a c); [discriminate|]. intros Hn. by rewrite IH.
Qed.

Lemma entryName_sep name value :
  ContainsByte name "=" = false -> entryName (name ++ String "=" value) = name.
Proof. intros Hn. unfold entryName. by rewrite CutByte_sep. Qed.

(** What [parseOne] does with the entry at the head of the list. *)
Lemma parseOne_nil e m : environment e = [] -> parseOne e m = (e, m, None, true).
Proof. unfold parseOne. by intros ->. Qed.

Lemma parseOne_help e m s rest :
  environment e = s :: rest -> isHelp (entryName s) = true ->
  parseOne e m = (set_environment rest e, usage e m, Some ErrHelp, false).
Proof.
  unfold parseOne, isHelp, entryName. intros -> Hh.
  destruct (CutByte s "=") as [[name value] found]. cbn in Hh. by rewrite Hh.
Qed.

Lemma parseOne_unknown e m s rest :
  environment e = s :: rest -> isHelp (entryName s) = false ->
  formal e !! entryName s = None ->
  parseOne e m = (set_environment rest e, m, None, false).
Proof.
  unfold parseOne, isHelp, entryName. intros -> Hh Hf.
  destruct (CutByte s "=") as [[name value] found]. cbn in Hh, Hf.
  rewrite Hh. cbn. by rewrite Hf.
Qed.

Lemma parseOne_set e m s rest spec m1 :
  environment e = s :: rest -> isHelp (entryName s) = false ->
  formal e !! entryName s = Some spec ->
  Value_Set (Value_ spec) (CutByte s "=").1.2 m = (m1, None) ->
  parseOne e m
  = (set_actual (<[entryName s := spec]> (actual e)) (set_environment rest e), m1, None, false).
Proof.
  unfold parseOne, isHelp, entryName. intros -> Hh Hf Hs.
  destruct (CutByte s "=") as [[name value] found]. cbn in Hh, Hf, Hs.
  rewrite Hh. cbn. by rewrite Hf, Hs.
Qed.

Lemma parseOne_fail e m s rest spec m1 err :
  environment e = s :: rest -> isHelp (entryName s) = false ->
  formal e !! entryName s = Some spec ->
  Value_Set (Value_ spec) (CutByte s "=").1.2 m = (m1, Some err) ->
  let msg := "invalid value " ++ Quote (CutByte s "=").1.2 ++ " for variable "
             ++ entryName s ++ ": " ++ Error err in
  parseOne e m
  = (set_environment rest e, usage e (write (msg ++ LF) m1), Some (errorString msg), false).
Proof.
  unfold parseOne, isHelp, entryName. intros -> Hh Hf Hs.
  destruct (CutByte s "=") as [[name value] found]. cbn in Hh, Hf, Hs.
  rewrite Hh. cbn. by rewrite Hf, Hs.
Qed.

(** The cases of [stepCase] are exhaustive. *)
Lemma parseOne_cases e m s rest :
  environment e = s :: rest -> stepCase e m s rest (parseOne e m).
Proof.
  intros He. destruct (isHelp (entryName s)) eqn:Hh.
  - rewrite (parseOne_help _ _ _ _ He Hh). by constructor.
  - destruct (formal e !! entryName s) as [spec|] eqn:Hf.
    + destruct (Value_Set (Value_ spec) (CutByte s "=").1.2 m) as [m1 [err|]] eqn:Hs.
      * rewrite (parseOne_fail _ _ _ _ _ _ _ He Hh Hf Hs). by econstructor.
      * rewrite (parseOne_set _ _ _ _ _ _ He Hh Hf Hs). by econstructor.
    + rewrite (parseOne_unknown _ _ _ _ He Hh Hf). by constructor.
Qed.

Lemma formal_set_environment l e : formal (set_environment l e) = formal e.
Proof. reflexivity. Qed.

Lemma failf_set_environment l e msg m : failf (set_environment l e) msg m = failf e msg m.
Proof. reflexivity. Qed.

Lemma usage_set_environment l e m : usage (set_environment l e) m = usage e m.
Proof. reflexivity. Qed.

Lemma parseOne_tail e m s l l' e1 m1 err d :
  parseOne (set_environment (s :: l) e) m = (e1, m1, err, d) ->
  parseOne (set_environment (s :: l') e) m = (set_environment l' e1, m1, err, d).
Proof.
  unfold parseOne. cbn [environment set_environment].
  destruct (CutByte s "=") as [[name value] found].
  destruct (_ || _); [by intros [= <- <- <- <-]|].
  rewrite !formal_set_environment.
  destruct (formal e !! name) as [spec|]; [|by intros [= <- <- <- <-]].
  destruct (Value_Set _ _ _) as [m2 [err'|]]; [|by intros [= <- <- <- <-]].
  rewrite !failf_set_environment.
  destruct (failf _ _ _) as [err1 m3]. by intros [= <- <- <- <-].
Qed.

(** [parseOne] leaves the declarations and the policy alone and, unless
    it is [done], takes one entry off the list. *)
Lemma parseOne_frame e m e' m' err d :
  parseOne e m = (e', m', err, d) ->
  formal e' = formal e /\ errorHandling e' = errorHandling e
  /\ Usage e' = Usage e /\ name e' = name e
  /\ (if d then environment e = [] /\ e' = e /\ m' = m /\ err = None
      else exists s, environment e = s :: environment e').
Proof.
  destruct (environment e) as [|s rest] eqn:He.
  - rewrite (parseOne_nil _ _ He). by intros [= <- <- <- <-].
  - intros Hp. pose proof (parseOne_cases e m s rest He) as Hc. rewrite Hp in Hc.
    inversion Hc; subst; cbn; eauto 10.
Qed.

Lemma steps_det e m e1 m1 r1 :
  steps e m e1 m1 r1 -> forall e2 m2 r2, steps e m e2 m2 r2 ->
  e1 = e2 /\ m1 = m2 /\ r1 = r2.
Proof.
  induction 1 as [e m e1 m1 Hp|e m e1 m1 err Hp|e m ea ma e1 m1 r Hp _ IH];
    intros e2 m2 r2 Hs; inversion Hs; subst; try congruence.
  - rewrite Hp in *. by simplify_eq.
  - rewrite Hp in *. by simplify_eq.
  - rewrite Hp in *. simplify_eq. by apply IH.
Qed.

Lemma Parse_loop_steps n : forall e m,
  (length (environment e) <= n)%nat ->
  exists e' m' r, steps e m e' m' r
    /\ Parse_loop n e m = (e', m', dispatch (errorHandling e) r).
Proof.
  induction n as [|n IH]; intros e m Hn.
  - destruct (environment e) as [|s rest] eqn:He; [|cbn in Hn; lia].
    exists e, m, None. split; [by apply steps_done, parseOne_nil|].
    cbn [Parse_loop]. by rewrite (parseOne_nil _ _ He).
  - destruct (parseOne e m) as [[[e1 m1] err] d] eqn:Hp.
    destruct (parseOne_frame _ _ _ _ _ _ Hp) as (_ & Heh & _ & _ & Hd).
    cbn [Parse_loop]. rewrite Hp.
    destruct d.
    + destruct Hd as (_ & -> & -> & ->). exists e, m, None.
      split; [by apply steps_done|done].
    + destruct Hd as [s Hs]. destruct err as [err|].
      * exists e1, m1, (Some err). split; [by apply steps_fail|].
        rewrite Heh. cbn [dispatch]. by destruct (errorHandling e), (error_eqb err ErrHelp).
      * destruct (IH e1 m1) as (e' & m' & r & Hst & Heq).
        { rewrite Hs in Hn. cbn in Hn. lia. }
        exists e', m', r. split; [by eapply steps_next|].
        by rewrite Heq, Heh.
Qed.

(** [Parse] ends the way the run of its steps does. *)
Lemma Parse_steps environment e m :
  exists e' m' r,
    steps (set_environment environment (set_parsed true e)) m e' m' r
    /\ Parse environment e m = (e', m', dispatch (errorHandling e) r).
Proof.
  unfold Parse.
  destruct (Parse_loop_steps (length environment)
              (set_environment environment (set_parsed true e)) m) as (e' & m' & r & Hs & Heq);
    [done|].
  by exists e', m', r.
Qed.

(** More fuel than entries changes nothing. *)
Lemma Parse_loop_fuel n e m :
  (length (environment e) <= n)%nat ->
  Parse_loop n e m = Parse_loop (length (environment e)) e m.
Proof.
  intros Hn.
  destruct (Parse_loop_steps n e m Hn) as (e1 & m1 & r1 & Hs1 & ->).
  destruct (Parse_loop_steps (length (environment e)) e m) as (e2 & m2 & r2 & Hs2 & ->); [done|].
  by destruct (steps_det _ _ _ _ _ Hs1 _ _ _ Hs2) as (-> & -> & ->).
Qed.

(** A run through a prefix of the list that meets no failure goes on
    with the rest of the list. *)
Lemma steps_prefix pre : forall e m e1 m1,
  steps (set_environment pre e) m e1 m1 None ->
  forall rest e' m' r,
    steps (set_environment rest e1) m1 e' m' r ->
    steps (set_environment (pre ++ rest) e) m e' m' r.
Proof.
  induction pre as [|s pre IH]; intros e m e1 m1 Hs rest e' m' r Hr.
  - inversion Hs as [? ? ? ? Hp| |? ? ? ? ? ? ? Hp]; subst;
      rewrite parseOne_nil in Hp by done; simplify_eq.
    exact Hr.
  - inversion Hs as [? ? ? ? Hp| |? ? ea ma ? ? ? Hp Hs']; subst.
    + apply parseOne_frame in Hp as (_ & _ & _ & _ & Hd & _). discriminate.
    + pose proof (parseOne_tail _ _ _ _ pre _ _ _ _ Hp) as Hp1.
      rewrite Hp in Hp1. injection Hp1 as Hea.
      pose proof (parseOne_tail _ _ _ _ (pre ++ rest) _ _ _ _ Hp) as Hp2.
      eapply steps_next; [exact Hp2|].
      apply (IH ea ma e1 m1); [by rewrite <- Hea|exact Hr].
Qed.
End Parsing.

(** ** Declarations and the order of the listing *)

Section Declarations.
Context `{Host}.
Implicit Types (e : EnvSet) (m : Machine) (s name description : string).

Lemma Var_ok value name description e m e' m' :
  Var value name description e m = Ok (e', m') ->
  formal e !! name = None
  /\ e' = set_formal (<[name := mkSpec name description value (Value_String value m)]>
                        (formal e)) e
  /\ m' = m.
Proof.
  unfold Var. destruct (ContainsByte name "="); [discriminate|].
  destruct (formal e !! name); [by destruct (String.eqb _ _)|].
  destruct (negb _); [discriminate|]. by intros [= <- <-].
Qed.

(** A declaration that returns adds one [Spec] under a new name and
    leaves [actual] alone. *)
Lemma declare_ok (d : Decl) name description e m e' m' :
  declare d name description e m = Ok (e', m') ->
  exists spec,
    formal e !! name = None /\ Name spec = name
    /\ formal e' = <[name := spec]> (formal e) /\ actual e' = actual e.
Proof.
  intros Hd.
  assert (Hvar : forall value m0,
            Var value name description e m0 = Ok (e', m') ->
            exists spec, formal e !! name = None /\ Name spec = name
              /\ formal e' = <[name := spec]> (formal e) /\ actual e' = actual e).
  { intros value m0 (Hf & -> & _)%Var_ok.
    by exists (mkSpec name description value (Value_String value m0)). }
  destruct d; cbn [declare] in Hd;
    unfold Bool, Int, Int64, Uint, Uint64, String_, Float64, Duration, new,
      BoolVar, IntVar, Int64Var, UintVar, Uint64Var, StringVar, Float64Var,
      DurationVar, Func, BoolFunc, TextVar,
      newBoolValue, newIntValue, newInt64Value, newUintValue, newUint64Value,
      newStringValue, newFloat64Value, newDurationValue in Hd;
    cbn [forget returning] in Hd;
    try (match type of Hd with
         | context [Var ?v ?n ?ds ?e0 ?m0] =>
             destruct (Var v n ds e0 m0) as [[e1 m1]|msg m1] eqn:Hv;
             [injection Hd as <- <-; exact (Hvar _ _ Hv)|discriminate]
         end).
  destruct (newTextValue value p m) as [[v m1]|msg m1]; [|discriminate].
  exact (Hvar _ _ Hd).
Qed.

(** [actual ⊆ formal] holds of a new [EnvSet] and survives declarations
    (and calls of [Parse]: [C1_actual_only_grows]). *)
Lemma NewEnvSet_invariant name errorHandling :
  actual (NewEnvSet name errorHandling) ⊆ formal (NewEnvSet name errorHandling).
Proof. done. Qed.

Lemma declare_invariant (d : Decl) name description e m e' m' :
  declare d name description e m = Ok (e', m') ->
  actual e ⊆ formal e -> actual e' ⊆ formal e'.
Proof.
  intros (spec & Hf & _ & -> & ->)%declare_ok Hinv.
  etrans; [exact Hinv|]. by apply insert_subseteq.
Qed.

(** [VisitAll] and [Visit] go in ascending order of the names. *)
Lemma sortVariables_sorted (vars : gmap string Spec) : Sorted name_le (sortVariables vars).
Proof.
  apply Sorted_merge_sort. intros a b. unfold name_le.
  destruct (String.leb_total (Name a) (Name b)) as [Hab|Hba].
  - left. by rewrite Hab.
  - right. by rewrite Hba.
Qed.

Lemma sortVariables_specs (vars : gmap string Spec) spec :
  spec ∈ sortVariables vars <-> exists name, vars !! name = Some spec.
Proof.
  unfold sortVariables. rewrite merge_sort_Permutation, list_elem_of_fmap. split.
  - intros ([n sp] & -> & Hin). exists n. by apply elem_of_map_to_list in Hin.
  - intros [n Hn]. exists (n, spec). split; [done|]. by apply elem_of_map_to_list.
Qed.
End Declarations.

(** ** Properties of the package *)

Section Claims.
Context `{Host}.
Implicit Types (e : EnvSet) (m : Machine) (s name description : string).

Lemma Parse_unknown environment : forall e m,
  Forall (fun s => isHelp (entryName s) = false /\ formal e !! entryName s = None)
         environment ->
  steps (set_environment environment e) m (set_environment [] e) m None.
Proof.
  induction environment as [|s l IH]; intros e m Hall.
  - by apply steps_done, parseOne_nil.
  - inversion Hall as [|? ? [Hh Hf] Hl]; subst.
    eapply steps_next.
    + by apply (parseOne_unknown _ _ s l).
    + exact (IH e m Hl).
Qed.

(** C9.  An entry whose name is not [HELP], not [H] and not declared:
    the step reports no error and leaves the machine as it was (nothing
    written to the output, no call of [Set], no cell changed) and the
    maps of the [EnvSet] as they were; a list of such entries parses to
    a nil error in the same way. *)
Theorem C9_unknown_name_is_skipped e m :
  (forall s rest,
     environment e = s :: rest ->
     isHelp (entryName s) = false -> formal e !! entryName s = None ->
     exists e', parseOne e m = (e', m, None, false)
                /\ actual e' = actual e /\ formal e' = formal e /\ environment e' = rest)
  /\ (forall environment,
        Forall (fun s => isHelp (entryName s) = false /\ formal e !! entryName s = None)
               environment ->
        exists e', Parse environment e m = (e', m, Returned None)
                   /\ actual e' = actual e /\ formal e' = formal e).
Proof.
  split.
  - intros s rest He Hh Hf. exists (set_environment rest e).
    by rewrite (parseOne_unknown _ _ _ _ He Hh Hf).
  - intros environment Hall.
    destruct (Parse_steps environment e m) as (e' & m' & r & Hs & ->).
    pose proof (Parse_unknown environment (set_parsed true e) m Hall) as Hs'.
    destruct (steps_det _ _ _ _ _ Hs _ _ _ Hs') as (-> & -> & ->).
    by eexists.
Qed.

(** C5.  Under [ExitOnError], with [r] the result of the run of the
    steps: no failing step, [Parse] returns nil and the process lives;
    the failure is [ErrHelp], the process exits with status 0; any
    other failure, with status 2. *)
Theorem C5_exit_status environment e m :
  errorHandling e = ExitOnError ->
  exists e' m' r,
    steps (set_environment environment (set_parsed true e)) m e' m' r
    /\ match r with
       | None => Parse environment e m = (e', m', Returned None)
       | Some ErrHelp => Parse environment e m = (e', m', Exited 0)
       | Some _ => Parse environment e m = (e', m', Exited 2)
       end.
Proof.
  intros Heh.
  destruct (Parse_steps environment e m) as (e' & m' & r & Hs & ->).
  exists e', m', r. split; [exact Hs|].
  rewrite Heh. by destruct r as [[]|].
Qed.

Lemma Var_panics value name description e m :
  is_Some (formal e !! name) \/ ContainsByte name "=" = true ->
  exists msg m', Var value name description e m = Panic msg m'.
Proof.
  intros Hc. unfold Var.
  destruct (ContainsByte name "=") eqn:Hn; [by eexists _, _|].
  destruct Hc as [[spec Hf]|?]; [|done]. rewrite Hf.
  destruct (String.eqb _ _); by eexists _, _.
Qed.

(** C6.  A declaration call of any kind and form, on an [EnvSet] with
    any policy: when the name is already declared or contains ['='],
    the call panics; there is no error to return. *)
Theorem C6_declaration_faults_panic (d : Decl) name description e m :
  is_Some (formal e !! name) \/ ContainsByte name "=" = true ->
  exists msg m', declare d name description e m = Panic msg m'.
Proof.
  intros Hc.
  destruct d; cbn [declare];
    unfold Bool, Int, Int64, Uint, Uint64, String_, Float64, Duration, new,
      BoolVar, IntVar, Int64Var, UintVar, Uint64Var, StringVar, Float64Var,
      DurationVar, Func, BoolFunc, TextVar,
      newBoolValue, newIntValue, newInt64Value, newUintValue, newUint64Value,
      newStringValue, newFloat64Value, newDurationValue;
    cbn [forget returning];
    try (match goal with
         | |- context [Var ?v ?n ?d ?e ?m] =>
             destruct (Var_panics v n d e m Hc) as (msg & m' & ->)
         end; cbn; by eexists _, _).
  destruct (newTextValue value p m) as [[v m1]|msg m1]; [|by eexists _, _].
  destruct (Var_panics v name description e m1 Hc) as (msg & m' & ->).
  by eexists _, _.
Qed.

(** The effect of one step on [actual]: nothing, or the entry's
    declared name is (re)bound to its [Spec]. *)
Lemma parseOne_actual e m e1 m1 err :
  parseOne e m = (e1, m1, err, false) ->
  exists s rest,
    environment e = s :: rest /\ environment e1 = rest /\ formal e1 = formal e
    /\ ((actual e1 = actual e /\ (err = None -> formal e !! entryName s = None))
        \/ (exists spec, formal e !! entryName s = Some spec /\ err = None
              /\ actual e1 = <[entryName s := spec]> (actual e))).
Proof.
  intros Hp. destruct (environment e) as [|s rest] eqn:He.
  { rewrite (parseOne_nil _ _ He) in Hp. discriminate. }
  exists s, rest. split; [done|].
  pose proof (parseOne_cases e m s rest He) as Hc. rewrite Hp in Hc.
  inversion Hc; subst; cbn; (split; [done|split; [done|]]).
  - left. split; [done|discriminate].
  - left. done.
  - right. eauto.
  - left. split; [done|discriminate].
Qed.

Lemma steps_formal e m e' m' r : steps e m e' m' r -> formal e' = formal e.
Proof.
  induction 1 as [e m e1 m1 Hp|e m e1 m1 err Hp|e m ea ma e1 m1 r Hp _ IH].
  - by apply parseOne_frame in Hp as (? & _).
  - by apply parseOne_frame in Hp as (? & _).
  - apply parseOne_frame in Hp as (? & _). congruence.
Qed.

Lemma steps_actual_subseteq e m e' m' r :
  steps e m e' m' r -> actual e ⊆ formal e ->
  actual e' ⊆ formal e' /\ actual e ⊆ actual e'.
Proof.
  induction 1 as [e m e1 m1 Hp|e m e1 m1 err Hp|e m ea ma e1 m1 r Hp _ IH]; intros Hinv.
  - apply parseOne_frame in Hp as (_ & _ & _ & _ & _ & -> & _). done.
  - apply parseOne_actual in Hp as (s & rest & _ & _ & Hf & [[Ha _]|(spec & _ & [=] & _)]).
    rewrite Ha, Hf. done.
  - apply parseOne_actual in Hp as (s & rest & _ & _ & Hf & [[Ha _]|(spec & Hs & _ & Ha)]).
    + destruct IH as [IH1 IH2]; [by rewrite Ha, Hf|]. split; [done|by rewrite <- Ha].
    + assert (Hsub : actual e ⊆ actual ea).
      { rewrite Ha. destruct (actual e !! entryName s) as [spec'|] eqn:Hl.
        - pose proof (lookup_weaken _ _ _ _ Hl Hinv) as Hl'.
          rewrite Hs in Hl'. injection Hl' as <-. by rewrite insert_id.
        - by apply insert_subseteq. }
      destruct IH as [IH1 IH2].
      { rewrite Ha, Hf. by apply insert_subseteq_l. }
      split; [done|]. by etrans.
Qed.

Lemma steps_actual_new e m e' m' r :
  steps e m e' m' r -> forall n, n ∈ dom (actual e') ->
  n ∈ dom (actual e) \/ (n ∈ dom (formal e) /\ n ∈ entryName <$> environment e).
Proof.
  induction 1 as [e m e1 m1 Hp|e m e1 m1 err Hp|e m ea ma e1 m1 r Hp _ IH]; intros n Hn.
  - apply parseOne_frame in Hp as (_ & _ & _ & _ & _ & -> & _). by left.
  - apply parseOne_actual in Hp as (s & rest & _ & _ & Hf & [[Ha _]|(spec & _ & [=] & _)]).
    left. by rewrite <- Ha.
  - apply parseOne_actual in Hp as (s & rest & He & He' & Hf & Hcase).
    destruct (IH n Hn) as [Hin|[Hin1 Hin2]].
    + destruct Hcase as [[Ha _]|(spec & Hs & _ & Ha)].
      * left. by rewrite <- Ha.
      * rewrite Ha, dom_insert_L in Hin.
        apply elem_of_union in Hin as [->%elem_of_singleton|Hin]; [|by left].
        right. split; [by apply elem_of_dom; eexists|].
        rewrite He, fmap_cons. apply elem_of_cons. by left.
    + right. rewrite <- Hf. split; [done|]. rewrite He, <- He'.
      rewrite fmap_cons. apply elem_of_cons. by right.
Qed.

Lemma steps_actual_dom e m e' m' r :
  steps e m e' m' r -> dom (actual e) ⊆ dom (actual e').
Proof.
  induction 1 as [e m e1 m1 Hp|e m e1 m1 err Hp|e m ea ma e1 m1 r Hp _ IH].
  - by apply parseOne_frame in Hp as (_ & _ & _ & _ & _ & -> & _).
  - apply parseOne_actual in Hp as (s & rest & _ & _ & Hf & [[Ha _]|(spec & _ & [=] & _)]).
    by rewrite Ha.
  - apply parseOne_actual in Hp as (s & rest & _ & _ & Hf & [[Ha _]|(spec & _ & _ & Ha)]).
    + by rewrite <- Ha.
    + etrans; [|exact IH]. rewrite Ha, dom_insert_L. set_solver.
Qed.

Lemma steps_actual_all e m e' m' r :
  steps e m e' m' r -> r = None -> forall n,
  n ∈ dom (formal e) -> n ∈ entryName <$> environment e -> n ∈ dom (actual e').
Proof.
  induction 1 as [e m e1 m1 Hp|e m e1 m1 err Hp|e m ea ma e1 m1 r Hp Hst IH];
    intros Hr n Hf Hn; [|discriminate|].
  - apply parseOne_frame in Hp as (_ & _ & _ & _ & He & _). rewrite He in Hn.
    by apply elem_of_nil in Hn.
  - apply parseOne_actual in Hp as (s & rest & He & He' & Hfe & Hcase).
    rewrite He in Hn. cbn in Hn. apply elem_of_cons in Hn as [->|Hn].
    + destruct Hcase as [[Ha Hnone]|(spec & Hs & _ & Ha)].
      * apply elem_of_dom in Hf as [spec Hs]. rewrite Hnone in Hs; done.
      * apply (steps_actual_dom _ _ _ _ _ Hst). rewrite Ha, dom_insert_L. set_solver.
    + apply IH; [done|by rewrite Hfe|by rewrite He'].
Qed.

(** C1 (as amended).  [Parse] keeps [formal], and keeps [actual]
    inside it; it only ever adds to [actual]: what was there before
    the call stays, what is new is a declared name of the current
    list, and when the call returns nil every declared name of the
    list is there. *)
Theorem C1_actual_only_grows environment e m e' m' o :
  actual e ⊆ formal e ->
  Parse environment e m = (e', m', o) ->
  formal e' = formal e
  /\ actual e' ⊆ formal e'
  /\ actual e ⊆ actual e'
  /\ (forall n, n ∈ dom (actual e') ->
        n ∈ dom (actual e) \/ (n ∈ dom (formal e) /\ n ∈ entryName <$> environment))
  /\ (o = Returned None -> forall n,
        n ∈ dom (formal e) -> n ∈ entryName <$> environment -> n ∈ dom (actual e')).
Proof.
  intros Hinv Hp.
  destruct (Parse_steps environment e m) as (e1 & m1 & r & Hs & Heq).
  rewrite Hp in Heq. injection Heq as -> -> ->.
  split; [exact (steps_formal _ _ _ _ _ Hs)|].
  destruct (steps_actual_subseteq _ _ _ _ _ Hs Hinv) as [H1 H2].
  split; [done|]. split; [done|]. split.
  - intros n Hn. exact (steps_actual_new _ _ _ _ _ Hs n Hn).
  - intros Ho n Hf Hn. apply (steps_actual_all _ _ _ _ _ Hs); [|done|done].
    destruct r as [err|]; [|done]. cbn in Ho. by destruct (errorHandling e), (error_eqb err ErrHelp).
Qed.

(** *** The usage listing only writes to the output *)

Lemma string_app_cons x (a b : string) : String x a ++ b = String x (a ++ b).
Proof. reflexivity. Qed.

Lemma string_app_nil_l (b : string) : "" ++ b = b.
Proof. reflexivity. Qed.

Lemma string_app_assoc (a b c : string) : (a ++ b) ++ c = a ++ (b ++ c).
Proof.
  induction a as [|x a IH]; [done|]. rewrite !string_app_cons. by f_equal.
Qed.

Lemma string_app_nil_r (a : string) : a ++ "" = a.
Proof. induction a as [|x a IH]; [done|]. rewrite string_app_cons. by f_equal. Qed.

Lemma string_length_app (a b : string) :
  String.length (a ++ b) = (String.length a + String.length b)%nat.
Proof.
  induction a as [|x a IH]; [done|]. rewrite string_app_cons. cbn. by rewrite IH.
Qed.

Lemma write_write a b m : write b (write a m) = write (a ++ b) m.
Proof. unfold write. cbn [mem world out calls]. f_equal. apply string_app_assoc. Qed.

Lemma write_nil m : write "" m = m.
Proof. destruct m. unfold write. cbn [mem world out calls]. f_equal. apply string_app_nil_r. Qed.

Lemma printSpec_no_error spec : (printSpec spec).2 = None.
Proof.
  unfold printSpec, isZeroValue. destruct (UnquoteUsage spec) as [n u]. done.
Qed.

(** The lines of the listing, in the order of [VisitAll]. *)
Lemma printSpecs_lines specs : forall m errs,
  printSpecs specs m errs
  = (write (String.concat "" ((fun spec => (printSpec spec).1) <$> specs)) m, errs).
Proof.
  induction specs as [|spec specs IH]; intros m errs; cbn [printSpecs fmap list_fmap].
  - cbn. by rewrite write_nil.
  - pose proof (printSpec_no_error spec) as Hn.
    destruct (printSpec spec) as [text err]. cbn in Hn. subst err.
    rewrite IH, write_write. f_equal. f_equal.
    cbn. destruct (_ <$> specs); cbn; [by rewrite string_app_nil_r|done].
Qed.

Lemma PrintDefaults_lines e m :
  PrintDefaults e m
  = write (String.concat "" ((fun spec => (printSpec spec).1) <$> VisitAll e)) m.
Proof. unfold PrintDefaults. by rewrite printSpecs_lines. Qed.

Lemma defaultEnvironment_text e m :
  defaultEnvironment e m
  = write ((if String.eqb (name e) "" then "Environment:" ++ LF
            else "Environment of " ++ name e ++ ":" ++ LF)
           ++ String.concat "" ((fun spec => (printSpec spec).1) <$> VisitAll e)) m.
Proof.
  unfold defaultEnvironment. rewrite PrintDefaults_lines.
  destruct (String.eqb _ _); by rewrite write_write.
Qed.

Lemma usage_frame e m : mem (usage e m) = mem m /\ calls (usage e m) = calls m.
Proof.
  unfold usage. destruct (Usage e) as [f|].
  - by destruct (f (world m)).
  - by rewrite defaultEnvironment_text.
Qed.

Lemma usage_ext e e' m :
  Usage e' = Usage e -> name e' = name e -> formal e' = formal e ->
  usage e' m = usage e m.
Proof.
  intros HU Hn Hf. unfold usage, defaultEnvironment, PrintDefaults, VisitAll.
  by rewrite HU, Hn, Hf.
Qed.

Lemma steps_frame e m e' m' r :
  steps e m e' m' r ->
  Usage e' = Usage e /\ name e' = name e /\ errorHandling e' = errorHandling e.
Proof.
  induction 1 as [e m e1 m1 Hp|e m e1 m1 err Hp|e m ea ma e1 m1 r Hp _ IH];
    apply parseOne_frame in Hp as (_ & ? & ? & ? & _); [done|done|].
  destruct IH as (? & ? & ?). split_and!; congruence.
Qed.

(** C4 (as amended).  Under [ContinueOnError], when the entries before
    an entry named [HELP] or [H] are processed without a failure,
    ending in [e1] and [m1]: [Parse] runs the usage function (the
    listing of the declared variables, unless the caller has set
    [Usage]) and returns [ErrHelp]; the rest of the list stays
    unprocessed in [environment]; no [Set] is called and no cell
    written for the help entry or anything after it. *)
Theorem C4_help_stops_the_parse e m pre s post e1 m1 :
  errorHandling e = ContinueOnError ->
  isHelp (entryName s) = true ->
  steps (set_environment pre (set_parsed true e)) m e1 m1 None ->
  Parse (pre ++ s :: post) e m
    = (set_environment post e1, usage e m1, Returned (Some ErrHelp))
  /\ calls (usage e m1) = calls m1
  /\ mem (usage e m1) = mem m1
  /\ (Usage e = None ->
      usage e m1
      = write ((if String.eqb (name e) "" then "Environment:" ++ LF
                else "Environment of " ++ name e ++ ":" ++ LF)
               ++ String.concat "" ((fun spec => (printSpec spec).1) <$> VisitAll e)) m1).
Proof.
  intros Heh Hh Hpre.
  destruct (steps_frame _ _ _ _ _ Hpre) as (HU & Hn & _).
  pose proof (steps_formal _ _ _ _ _ Hpre) as Hf.
  assert (Hu : usage (set_environment (s :: post) e1) m1 = usage e m1).
  { by apply usage_ext. }
  assert (Hlast : steps (set_environment (s :: post) e1) m1
                    (set_environment post e1) (usage e m1) (Some ErrHelp)).
  { apply steps_fail. rewrite <- Hu.
    exact (parseOne_help (set_environment (s :: post) e1) m1 s post eq_refl Hh). }
  pose proof (steps_prefix pre _ m e1 m1 Hpre (s :: post) _ _ _ Hlast) as Hall.
  destruct (Parse_steps (pre ++ s :: post) e m) as (e' & m' & r & Hs & ->).
  destruct (steps_det _ _ _ _ _ Hs _ _ _ Hall) as (-> & -> & ->).
  rewrite Heh. cbn [dispatch].
  destruct (usage_frame e m1) as [Hm Hc].
  split_and!; [done|done|done|].
  intros HN. unfold usage. rewrite HN. apply defaultEnvironment_text.
Qed.

Lemma Value_Set_calls (v : Value) s m :
  calls (Value_Set v s m).1 = (calls m ++ [(v, s)])%list.
Proof.
  unfold Value_Set.
  destruct v; cbn;
    unfold boolValue_Set, intValue_Set, int64Value_Set, uintValue_Set, uint64Value_Set,
      stringValue_Set, float64Value_Set, durationValue_Set, textValue_Set,
      funcValue_Set, boolFuncValue_Set.
  all: repeat match goal with
    | |- context [let '(_, _) := ?x in _] => destruct x
    | |- context [match ?x with Some _ => _ | None => _ end] => destruct x
    end; done.
Qed.

(** C3 (as amended).  [*boolValue] has the marker [IsBoolVar] and
    [boolFuncValue] has none; [parseOne] does not look at it.  For an
    entry with an empty value ([NAME=] or [NAME]) it calls [Set] with
    the empty text: a declared bool gets [false] stored and the step
    fails with a parse error; a declared BoolFunc has its callback
    called with the empty text, whose result decides. *)
Theorem C3_empty_value_is_passed_to_Set e m s rest name spec found :
  environment e = s :: rest ->
  CutByte s "=" = (name, EmptyString, found) ->
  isHelp name = false ->
  formal e !! name = Some spec ->
  (forall p, Value_ spec = boolValue p ->
     IsBoolVar (Value_ spec) = Some true
     /\ exists m',
         parseOne e m
         = (set_environment rest e, m',
            Some (errorString ("invalid value " ++ Quote "" ++ " for variable "
                               ++ name ++ ": parse error")), false)
         /\ load_bool (mem m') p = false
         /\ calls m' = (calls m ++ [(boolValue p, EmptyString)])%list)
  /\ (forall f, Value_ spec = boolFuncValue f ->
       IsBoolVar (Value_ spec) = None
       /\ exists e' m' err,
           parseOne e m = (e', m', err, false)
           /\ calls m' = (calls m ++ [(boolFuncValue f, EmptyString)])%list
           /\ (err = None <-> (f EmptyString (world m)).2 = None)).
Proof.
  intros He Hcut Hh Hf.
  assert (Hn : entryName s = name) by (unfold entryName; by rewrite Hcut).
  assert (Hv : (CutByte s "=").1.2 = EmptyString) by (by rewrite Hcut).
  split.
  - intros p Hp. rewrite Hp. split; [done|].
    pose proof (parseOne_fail e m s rest spec
                  (set_mem <[p := CBool false]> (log_call (boolValue p) "" m)) errParse He)
      as Hstep.
    rewrite Hn, Hv, Hp in Hstep. specialize (Hstep Hh Hf eq_refl). cbn zeta in Hstep.
    eexists. split; [exact Hstep|].
    destruct (usage_frame e (write (("invalid value " ++ Quote "" ++ " for variable "
                ++ name ++ ": " ++ Error errParse) ++ LF)
                (set_mem <[p := CBool false]> (log_call (boolValue p) "" m)))) as [Hm Hc].
    split.
    + unfold load_bool. rewrite Hm. cbn. by rewrite lookup_insert_eq.
    + by rewrite Hc.
  - intros f Hp. rewrite Hp. split; [done|].
    destruct (f EmptyString (world m)) as [w ferr] eqn:Hcall.
    assert (Hset : Value_Set (boolFuncValue f) "" m
                   = (set_world w (log_call (boolFuncValue f) "" m), ferr)).
    { unfold Value_Set, boolFuncValue_Set. cbn. by rewrite Hcall. }
    destruct ferr as [x|].
    + pose proof (parseOne_fail e m s rest spec
                    (set_world w (log_call (boolFuncValue f) "" m)) x He) as Hstep.
      rewrite Hn, Hv, Hp in Hstep. specialize (Hstep Hh Hf Hset). cbn zeta in Hstep.
      eexists _, _, _. split; [exact Hstep|]. split; [|done].
      by destruct (usage_frame e (write (("invalid value " ++ Quote "" ++ " for variable "
                ++ name ++ ": " ++ Error x) ++ LF)
                (set_world w (log_call (boolFuncValue f) "" m)))) as [_ ->].
    + pose proof (parseOne_set e m s rest spec
                    (set_world w (log_call (boolFuncValue f) "" m)) He) as Hstep.
      rewrite Hn, Hv, Hp in Hstep. specialize (Hstep Hh Hf Hset).
      eexists _, _, _. split; [exact Hstep|]. done.
Qed.
End Claims.

(** ** Properties of the values *)

Section Values.
Context `{Host}.
Implicit Types (e : EnvSet) (m : Machine) (s name description : string) (p : loc).

Import strconv_facts.

Lemma lastByte_app (a t : string) :
  t <> EmptyString -> lastByte (a ++ t) = lastByte t.
Proof.
  intros Ht. induction a as [|x a IH]; [done|].
  rewrite string_app_cons. cbn [lastByte].
  destruct (a ++ t) eqn:Heq; [|exact IH].
  destruct a; [by rewrite string_app_nil_l in Heq|by rewrite string_app_cons in Heq].
Qed.

(** The two failure texts never end the same way. *)
Lemma failure_texts_differ (a b : string) :
  a ++ Error errParse <> b ++ Error errRange.
Proof.
  intros Heq. apply (f_equal lastByte) in Heq.
  rewrite !lastByte_app in Heq by done. discriminate.
Qed.

(** A failing [Set] of an integer kind: the parsed value is stored all
    the same and the error is [numError] of the library's. *)
Lemma Value_Set_integer (v : Value) s m n :
  forall r, integerParse v s = Some (n, r) ->
  exists p, (v = intValue p \/ v = int64Value p \/ v = uintValue p \/ v = uint64Value p)
    /\ Value_Set v s m
       = (set_mem <[p := CInt n]> (log_call v s m),
          match r with Some err => Some (numError err) | None => None end).
Proof.
  intros r Hi. destruct v; try discriminate; cbn in Hi; injection Hi as Hi;
    exists p; (split; [tauto|]);
    unfold Value_Set, intValue_Set, int64Value_Set, uintValue_Set, uint64Value_Set;
    rewrite Hi; by destruct r.
Qed.

Lemma integerParse_err (v : Value) s n err :
  integerParse v s = Some (n, Some err) ->
  exists fn, err = NumError fn s ErrSyntax \/ err = NumError fn s ErrRange.
Proof.
  destruct v; try discriminate; cbn; intros [= Hi].
  1,2: apply ParseInt_err in Hi as [[_ ->]|[_ ->]]; eexists; eauto.
  1,2: apply ParseUint_err in Hi as [[_ ->]|[_ ->]]; eexists; eauto.
Qed.

Lemma Parse_head_fails e m name value rest spec m1 err :
  errorHandling e = ContinueOnError ->
  ContainsByte name "=" = false -> isHelp name = false ->
  formal e !! name = Some spec ->
  Value_Set (Value_ spec) value m = (m1, Some err) ->
  exists e' m',
    Parse ((name ++ String "=" value) :: rest) e m
    = (e', m', Returned (Some (errorString
         ("invalid value " ++ Quote value ++ " for variable " ++ name ++ ": " ++ Error err)))).
Proof.
  intros Heh Hn Hh Hf Hs.
  destruct (Parse_steps ((name ++ String "=" value) :: rest) e m) as (e' & m' & r & Hst & ->).
  pose proof (parseOne_fail (set_environment ((name ++ String "=" value) :: rest)
                               (set_parsed true e)) m _ rest spec m1 err eq_refl) as Hstep.
  unfold entryName in Hstep. rewrite CutByte_sep in Hstep by done. cbn [fst snd] in Hstep.
  specialize (Hstep Hh Hf Hs). cbn zeta in Hstep.
  pose proof (steps_fail _ _ _ _ _ Hstep) as Hst'.
  destruct (steps_det _ _ _ _ _ Hst _ _ _ Hst') as (-> & -> & ->).
  rewrite Heh. by eexists _, _.
Qed.


Lemma load_int_insert (mem : gmap positive cell) p n : load_int (<[p := CInt n]> mem) p = n.
Proof. unfold load_int. by rewrite lookup_insert_eq. Qed.

Lemma load_bool_insert (mem : gmap positive cell) p b : load_bool (<[p := CBool b]> mem) p = b.
Proof. unfold load_bool. by rewrite lookup_insert_eq. Qed.

Lemma load_string_insert (mem : gmap positive cell) p x :
  load_string (<[p := CString x]> mem) p = x.
Proof. unfold load_string. by rewrite lookup_insert_eq. Qed.

(** C10.  A failing [Set] of a bool stores [false]; a failing [Set] of
    an integer kind stores zero when the failure is a parse error and
    the bound of the width on the side of the sign when it is a range
    error, and fails in no other way; a failing [Set] of a float64 or a
    duration leaves the cells and the caller's state as they were. *)
Theorem C10_failed_Set_and_the_cell p s m m' err :
  (Value_Set (boolValue p) s m = (m', Some err) ->
     err = errParse /\ load_bool (mem m') p = false)
  /\ (Value_Set (intValue p) s m = (m', Some err) ->
       (err = errParse /\ load_int (mem m') p = 0)
       \/ (err = errRange
           /\ (load_int (mem m') p = 2 ^ (strconv.IntSize - 1) - 1
               \/ load_int (mem m') p = - 2 ^ (strconv.IntSize - 1))))
  /\ (Value_Set (int64Value p) s m = (m', Some err) ->
       (err = errParse /\ load_int (mem m') p = 0)
       \/ (err = errRange
           /\ (load_int (mem m') p = 2 ^ 63 - 1 \/ load_int (mem m') p = - 2 ^ 63)))
  /\ (Value_Set (uintValue p) s m = (m', Some err) ->
       (err = errParse /\ load_int (mem m') p = 0)
       \/ (err = errRange /\ load_int (mem m') p = 2 ^ strconv.IntSize - 1))
  /\ (Value_Set (uint64Value p) s m = (m', Some err) ->
       (err = errParse /\ load_int (mem m') p = 0)
       \/ (err = errRange /\ load_int (mem m') p = 2 ^ 64 - 1))
  /\ (Value_Set (float64Value p) s m = (m', Some err) ->
       mem m' = mem m /\ world m' = world m)
  /\ (Value_Set (durationValue p) s m = (m', Some err) ->
       mem m' = mem m /\ world m' = world m).
Proof.
  split_and!.
  - unfold Value_Set, boolValue_Set.
    destruct (strconv.ParseBool s) as [b [perr|]] eqn:Hb; intros [= <- <-].
    split; [done|]. cbn. rewrite load_bool_insert.
    unfold strconv.ParseBool in Hb.
    destruct (_ || _); [discriminate|]. destruct (_ || _); [discriminate|]. congruence.
  - unfold Value_Set, intValue_Set.
    destruct (strconv.ParseInt s strconv.IntSize) as [n [perr|]] eqn:Hp; intros [= <- <-].
    cbn. rewrite load_int_insert.
    apply ParseInt_err in Hp as [[-> ->]|[Hn ->]]; [by left|by right].
  - unfold Value_Set, int64Value_Set.
    destruct (strconv.ParseInt s 64) as [n [perr|]] eqn:Hp; intros [= <- <-].
    cbn. rewrite load_int_insert.
    apply ParseInt_err in Hp as [[-> ->]|[Hn ->]]; [by left|by right].
  - unfold Value_Set, uintValue_Set.
    destruct (strconv.ParseUint s strconv.IntSize) as [n [perr|]] eqn:Hp; intros [= <- <-].
    cbn. rewrite load_int_insert.
    apply ParseUint_err in Hp as [[-> ->]|[-> ->]]; [by left|by right].
  - unfold Value_Set, uint64Value_Set.
    destruct (strconv.ParseUint s 64) as [n [perr|]] eqn:Hp; intros [= <- <-].
    cbn. rewrite load_int_insert.
    apply ParseUint_err in Hp as [[-> ->]|[-> ->]]; [by left|by right].
  - unfold Value_Set, float64Value_Set.
    destruct (ParseFloat s) as [f [perr|]]; by intros [= <- <-].
  - unfold Value_Set, durationValue_Set.
    destruct (time.ParseDuration s) as [d [perr|]]; by intros [= <- <-].
Qed.

Lemma ParseBool_FormatBool b : strconv.ParseBool (strconv.FormatBool b) = (b, None).
Proof. by destruct b. Qed.

Lemma set_mem_insert_id m p c :
  mem m !! p = Some c -> set_mem <[p := c]> m = m.
Proof. intros Hl. destruct m. unfold set_mem. cbn in *. by rewrite insert_id. Qed.


Lemma string_app_cancel_l (a b c : string) : a ++ b = a ++ c -> b = c.
Proof.
  induction a as [|x a IH]; [done|]. rewrite !string_app_cons. intros [= Heq]. by apply IH.
Qed.

End Values.

(** ** Further properties of the package

    *** The order of the listing *)

Section Listing.
Context `{Host}.
Implicit Types (e : EnvSet) (m : Machine) (s name description : string).

#[local] Instance name_le_total : Total name_le.
Proof. intros a b. unfold name_le. destruct (String.le_total (Name a) (Name b)); auto. Qed.

#[local] Instance name_le_trans : Transitive name_le.
Proof. intros a b c. unfold name_le. apply (transitivity (R := String.le)). Qed.

(** X1.  [sortVariables] returns every [Spec] of the map exactly once
    (a permutation of the map's values, as many elements as the map has
    keys), each element no greater in name than all that follow it. *)
Theorem X1_sortVariables_sorted_permutation (vars : gmap string Spec) :
  StronglySorted name_le (sortVariables vars)
  /\ sortVariables vars ≡ₚ (map_to_list vars).*2
  /\ length (sortVariables vars) = size vars.
Proof.
  unfold sortVariables. split_and!.
  - apply (StronglySorted_merge_sort name_le).
  - apply merge_sort_Permutation.
  - by rewrite merge_sort_Permutation, length_fmap, length_map_to_list.
Qed.

Lemma named_names (vars : gmap string Spec) :
  named vars -> Name <$> (map_to_list vars).*2 = (map_to_list vars).*1.
Proof.
  intros Hn. rewrite <- list_fmap_compose. apply list_fmap_ext.
  intros i [n spec] Hl. cbn. apply Hn.
  apply elem_of_map_to_list. by eapply list_elem_of_lookup_2.
Qed.

(** X2.  When every [Spec] is filed under its own name (as [Var] files
    it), the names of the listing are the keys of the map, each once,
    and the listing is the only arrangement of the map's [Spec]s in
    ascending order of name: the order does not depend on how the map
    is traversed or on the sorting algorithm. *)
Theorem X2_listing_order_is_determined (vars : gmap string Spec) :
  named vars ->
  Name <$> sortVariables vars ≡ₚ (map_to_list vars).*1
  /\ NoDup (Name <$> sortVariables vars)
  /\ (forall l, StronglySorted name_le l -> l ≡ₚ (map_to_list vars).*2 ->
        l = sortVariables vars).
Proof.
  intros Hn.
  assert (Hperm : Name <$> sortVariables vars ≡ₚ (map_to_list vars).*1).
  { unfold sortVariables. by rewrite merge_sort_Permutation, named_names. }
  split_and!; [done| |].
  - rewrite Hperm. apply NoDup_fst_map_to_list.
  - intros l Hs Hp. apply (StronglySorted_unique_strong name_le).
    + intros a b Ha Hb Hab Hba.
      assert (Heq : Name a = Name b).
      { apply (anti_symm String.le); [exact Hab|exact Hba]. }
      rewrite Hp in Ha. unfold sortVariables in Hb. rewrite merge_sort_Permutation in Hb.
      apply list_elem_of_fmap in Ha as ([na a'] & -> & Ha).
      apply list_elem_of_fmap in Hb as ([nb b'] & -> & Hb).
      apply elem_of_map_to_list in Ha, Hb. cbn in Heq |- *.
      assert (na = nb) as ->.
      { destruct (Hn _ _ Ha) as [<- _], (Hn _ _ Hb) as [<- _]. done. }
      congruence.
    + exact Hs.
    + apply (StronglySorted_merge_sort name_le).
    + unfold sortVariables. by rewrite merge_sort_Permutation.
Qed.
End Listing.

(** *** Runs of [Parse]: composition, policy, calls of [Set], output *)

Section Runs.
Context `{Host}.
Implicit Types (e : EnvSet) (m : Machine) (s name description : string) (l : list string).

Ltac unfold_Set :=
  unfold Value_Set, boolValue_Set, intValue_Set, int64Value_Set, uintValue_Set,
    uint64Value_Set, stringValue_Set, float64Value_Set, durationValue_Set,
    textValue_Set, funcValue_Set, boolFuncValue_Set.

Ltac case_Set :=
  repeat match goal with
    | |- context [let '(_, _) := ?x in _] => destruct x
    | |- context [match ?x with Some _ => _ | None => _ end] => destruct x
    end.

(** What a call of [Set] leaves alone: the output, the cells other
    than its own, and the caller's other state unless the value is a
    callback or a text value. *)
Lemma Value_Set_out (v : Value) s m : out (Value_Set v s m).1 = out m.
Proof. unfold_Set. destruct v; cbn; case_Set; done. Qed.

Lemma Value_Set_mem (v : Value) s m q :
  pointer v <> Some q -> mem (Value_Set v s m).1 !! q = mem m !! q.
Proof.
  unfold_Set. destruct v; cbn; intros Hq; case_Set; cbn; try done;
    apply lookup_insert_ne; congruence.
Qed.

Lemma Value_Set_world (v : Value) s m :
  is_Some (pointer v) -> world (Value_Set v s m).1 = world m.
Proof.
  unfold_Set. destruct v; cbn; intros [q Hq]; try discriminate; case_Set; done.
Qed.

Lemma usage_default e m : Usage e = None -> usage e m = write (listing e) m.
Proof. intros HU. unfold usage. rewrite HU. apply defaultEnvironment_text. Qed.

Lemma listing_ext e e' : name e' = name e -> formal e' = formal e -> listing e' = listing e.
Proof. intros Hn Hf. unfold listing, VisitAll. by rewrite Hn, Hf. Qed.

Lemma parseOne_parsed e m e' m' err d :
  parseOne e m = (e', m', err, d) -> parsed e' = parsed e.
Proof.
  destruct (environment e) as [|s rest] eqn:He.
  - rewrite (parseOne_nil _ _ He). by intros [= <- <- <- <-].
  - intros Hp. pose proof (parseOne_cases e m s rest He) as Hc. rewrite Hp in Hc.
    inversion Hc; subst; done.
Qed.

Lemma steps_parsed e m e' m' r : steps e m e' m' r -> parsed e' = parsed e.
Proof.
  induction 1 as [e m e1 m1 Hp|e m e1 m1 err Hp|e m ea ma e1 m1 r Hp _ IH];
    apply parseOne_parsed in Hp; congruence.
Qed.

Lemma set_parsed_id e : parsed e = true -> set_parsed true e = e.
Proof. destruct e. cbn. by intros ->. Qed.

Lemma dispatch_nil h r : dispatch h r = Returned None -> r = None.
Proof. destruct r as [err|]; [|done]. cbn. by destruct h, (error_eqb err ErrHelp). Qed.

(** A run through a prefix of the list that ends in a failure ends the
    same way whatever follows the prefix. *)
Lemma steps_fail_prefix pre : forall e m e1 m1 err,
  steps (set_environment pre e) m e1 m1 (Some err) ->
  forall rest,
    steps (set_environment (pre ++ rest) e) m
          (set_environment (environment e1 ++ rest) e1) m1 (Some err).
Proof.
  induction pre as [|s pre IH]; intros e m e1 m1 err Hs rest.
  - inversion Hs as [|? ? ? ? ? Hp|? ? ? ? ? ? ? Hp]; subst;
      rewrite parseOne_nil in Hp by done; simplify_eq.
  - inversion Hs as [|? ? ? ? ? Hp|? ? ea ma ? ? ? Hp Hs']; subst.
    + pose proof (parseOne_tail _ _ _ _ pre _ _ _ _ Hp) as Hp1.
      rewrite Hp in Hp1. injection Hp1 as He1.
      pose proof (parseOne_tail _ _ _ _ (pre ++ rest) _ _ _ _ Hp) as Hp2.
      assert (Hpre : environment e1 = pre) by (by rewrite He1).
      apply steps_fail. cbn [app]. by rewrite Hp2, Hpre.
    + pose proof (parseOne_tail _ _ _ _ pre _ _ _ _ Hp) as Hp1.
      rewrite Hp in Hp1. injection Hp1 as Hea.
      pose proof (parseOne_tail _ _ _ _ (pre ++ rest) _ _ _ _ Hp) as Hp2.
      eapply steps_next; [exact Hp2|].
      apply (IH ea ma e1 m1). by rewrite <- Hea.
Qed.

(** X3.  When [Parse] of a list returns nil, [Parse] of that list
    followed by a second list does what a second call of [Parse] on the
    second list does after the first: one call on a concatenation is
    the two calls in sequence. *)
Theorem X3_Parse_of_a_concatenation l1 l2 e m e1 m1 :
  Parse l1 e m = (e1, m1, Returned None) ->
  Parse (l1 ++ l2) e m = Parse l2 e1 m1.
Proof.
  intros Hp.
  destruct (Parse_steps l1 e m) as (ea & ma & r & Hs & Heq).
  rewrite Hp in Heq. injection Heq as <- <- Hr. symmetry in Hr.
  apply dispatch_nil in Hr as ->.
  destruct (Parse_steps l2 e1 m1) as (e2 & m2 & r2 & Hs2 & ->).
  assert (Hparsed : parsed e1 = true) by (by rewrite (steps_parsed _ _ _ _ _ Hs)).
  rewrite (set_parsed_id _ Hparsed) in Hs2.
  pose proof (steps_prefix l1 _ m e1 m1 Hs l2 _ _ _ Hs2) as Hall.
  destruct (Parse_steps (l1 ++ l2) e m) as (e' & m' & r' & Hs' & ->).
  destruct (steps_det _ _ _ _ _ Hs' _ _ _ Hall) as (-> & -> & ->).
  by destruct (steps_frame _ _ _ _ _ Hs) as (_ & _ & ->).
Qed.

(** X4.  When [Parse] of a list ends in a failure (it returns an
    error, exits or panics), entries after that list change nothing:
    [Parse] of the longer list ends the same way with the same machine
    and the same maps; the added entries are left unprocessed in
    [environment]. *)
Theorem X4_Parse_stops_at_the_first_failure l1 l2 e m e1 m1 o :
  Parse l1 e m = (e1, m1, o) ->
  o <> Returned None ->
  Parse (l1 ++ l2) e m = (set_environment (environment e1 ++ l2) e1, m1, o).
Proof.
  intros Hp Ho.
  destruct (Parse_steps l1 e m) as (ea & ma & r & Hs & Heq).
  rewrite Hp in Heq. injection Heq as <- <- ->.
  destruct r as [err|]; [|done].
  pose proof (steps_fail_prefix l1 _ m e1 m1 err Hs l2) as Hall.
  destruct (Parse_steps (l1 ++ l2) e m) as (e' & m' & r' & Hs' & ->).
  by destruct (steps_det _ _ _ _ _ Hs' _ _ _ Hall) as (-> & -> & ->).
Qed.

(** The policy is not read by [parseOne]. *)
Lemma parseOne_Init e m h :
  parseOne (Init (name e) h e) m
  = let '(e', m', err, d) := parseOne e m in (Init (name e) h e', m', err, d).
Proof.
  unfold parseOne. cbn [environment Init].
  destruct (environment e) as [|s rest]; [done|].
  destruct (CutByte s "=") as [[n value] found].
  destruct (_ || _); [reflexivity|]. cbn [formal set_environment Init].
  destruct (formal e !! n) as [spec|]; [|reflexivity].
  destruct (Value_Set _ _ _) as [m1 [err|]]; [|reflexivity].
  change (failf (set_environment rest (Init (name e) h e))) with (failf (set_environment rest e)).
  destruct (failf _ _ _). reflexivity.
Qed.

Lemma steps_Init e m e' m' r h :
  steps e m e' m' r -> steps (Init (name e) h e) m (Init (name e) h e') m' r.
Proof.
  induction 1 as [e m e1 m1 Hp|e m e1 m1 err Hp|e m ea ma e1 m1 r Hp _ IH].
  - apply steps_done. by rewrite parseOne_Init, Hp.
  - apply steps_fail. by rewrite parseOne_Init, Hp.
  - eapply steps_next; [by rewrite parseOne_Init, Hp|].
    apply parseOne_frame in Hp as (_ & _ & _ & Hn & _). by rewrite <- Hn.
Qed.

(** X5.  The policy decides only how [Parse] ends.  With the same
    declarations and the same list, the run of the steps, the machine
    it leaves and the maps of the [EnvSet] are the same under every
    policy; with [r] the error of the failing step, [ContinueOnError]
    returns it, [PanicOnError] panics with it, [ExitOnError] exits.
    [Parse] returns nil under one policy exactly when it does under any
    other. *)
Theorem X5_the_policy_only_decides_how_Parse_ends l e m h :
  exists e' m' r,
    Parse l e m = (e', m', dispatch (errorHandling e) r)
    /\ Parse l (Init (name e) h e) m = (Init (name e) h e', m', dispatch h r)
    /\ ((Parse l e m).2 = Returned None
        <-> (Parse l (Init (name e) h e) m).2 = Returned None).
Proof.
  destruct (Parse_steps l e m) as (e' & m' & r & Hs & Heq).
  exists e', m', r. split; [exact Heq|].
  pose proof (steps_Init _ _ _ _ _ h Hs) as Hs'.
  destruct (Parse_steps l (Init (name e) h e) m) as (e2 & m2 & r2 & Hs2 & Heq2).
  destruct (steps_det _ _ _ _ _ Hs2 _ _ _ Hs') as (-> & -> & ->).
  split; [exact Heq2|].
  rewrite Heq, Heq2. cbn.
  split; intros ->%dispatch_nil; done.
Qed.

(** The calls of [Set] of a run, entry by entry. *)
Lemma steps_trace e m e' m' r :
  steps e m e' m' r ->
  exists done : list string,
    environment e = (done ++ environment e')%list
    /\ calls m' = (calls m ++ flat_map (setCall (formal e)) done)%list
    /\ (r = None -> environment e' = []).
Proof.
  induction 1 as [e m e1 m1 Hp|e m e1 m1 err Hp|e m ea ma e1 m1 r Hp _ IH].
  - apply parseOne_frame in Hp as (_ & _ & _ & _ & He & -> & -> & _).
    exists []. cbn. by rewrite app_nil_r.
  - destruct (environment e) as [|s rest] eqn:He.
    { rewrite (parseOne_nil _ _ He) in Hp. discriminate. }
    pose proof (parseOne_cases e m s rest He) as Hc. rewrite Hp in Hc.
    exists [s]. inversion Hc as [Hh|?|?|spec m2 err' msg Hh Hf Hset Hmsg]; subst; cbn.
    + destruct (usage_frame e m) as [_ ->]. unfold setCall. rewrite Hh.
      by rewrite !app_nil_r.
    + destruct (usage_frame e (write (("invalid value " ++ Quote (CutByte s "=").1.2
          ++ " for variable " ++ entryName s ++ ": " ++ Error err') ++ LF) m2)) as [_ ->].
      unfold setCall. rewrite Hh, Hf. cbn.
      pose proof (Value_Set_calls (Value_ spec) (CutByte s "=").1.2 m) as Hcalls.
      rewrite Hset in Hcalls. done.
  - destruct (environment e) as [|s rest] eqn:He.
    { rewrite (parseOne_nil _ _ He) in Hp. discriminate. }
    pose proof (parseOne_cases e m s rest He) as Hc. rewrite Hp in Hc.
    destruct IH as (done & Hd & Hcalls & Hr).
    exists (s :: done).
    inversion Hc as [?|Hh Hf|spec m2 Hh Hf Hset|?]; subst; cbn in Hd, Hcalls |- *.
    + split; [by rewrite Hd|]. split; [|done].
      unfold setCall at 1. by rewrite Hh, Hf.
    + split; [by rewrite Hd|]. split; [|done].
      unfold setCall at 1. rewrite Hh, Hf. rewrite Hcalls.
      pose proof (Value_Set_calls (Value_ spec) (CutByte s "=").1.2 m) as Hc1.
      rewrite Hset in Hc1. cbn in Hc1. rewrite Hc1. by rewrite <- app_assoc.
Qed.

(** X6.  The calls of [Set] that [Parse] makes are those of the
    entries it consumed, in the order of the list: one call per entry
    whose name is declared, with the variable's [Value] and the text
    after the first ['='], and none for an undeclared name or a help
    entry.  The entries not consumed stay in [environment]; there are
    none when [Parse] returns nil. *)
Theorem X6_Set_is_called_in_list_order l e m :
  exists done : list string,
    l = (done ++ environment (Parse l e m).1.1)%list
    /\ calls (Parse l e m).1.2 = (calls m ++ flat_map (setCall (formal e)) done)%list
    /\ ((Parse l e m).2 = Returned None -> environment (Parse l e m).1.1 = []).
Proof.
  destruct (Parse_steps l e m) as (e' & m' & r & Hs & ->). cbn.
  destruct (steps_trace _ _ _ _ _ Hs) as (done & Hd & Hc & Hr).
  exists done. split_and!; [done|done|].
  intros ->%dispatch_nil. by apply Hr.
Qed.

Lemma steps_out e m e' m' r :
  steps e m e' m' r -> Usage e = None ->
  out m' = out m ++ match r with
                    | None => ""
                    | Some err =>
                        (if error_eqb err ErrHelp then "" else Error err ++ LF) ++ listing e
                    end.
Proof.
  induction 1 as [e m e1 m1 Hp|e m e1 m1 err Hp|e m ea ma e1 m1 r Hp _ IH]; intros HU.
  - apply parseOne_frame in Hp as (_ & _ & _ & _ & He & -> & -> & _).
    by rewrite string_app_nil_r.
  - destruct (environment e) as [|s rest] eqn:He.
    { rewrite (parseOne_nil _ _ He) in Hp. discriminate. }
    pose proof (parseOne_cases e m s rest He) as Hc. rewrite Hp in Hc.
    inversion Hc as [Hh|?|?|spec m2 err' msg Hh Hf Hset Hmsg]; subst.
    + by rewrite (usage_default _ _ HU).
    + rewrite (usage_default _ _ HU). cbn.
      pose proof (Value_Set_out (Value_ spec) (CutByte s "=").1.2 m) as Ho.
      rewrite Hset in Ho. cbn in Ho. rewrite Ho. by rewrite !string_app_assoc.
  - pose proof (parseOne_frame _ _ _ _ _ _ Hp) as (Hf & _ & HU' & Hn & _).
    rewrite IH by congruence. rewrite (listing_ext e ea) by done.
    f_equal.
    destruct (environment e) as [|s rest] eqn:He.
    { rewrite (parseOne_nil _ _ He) in Hp. discriminate. }
    pose proof (parseOne_cases e m s rest He) as Hc. rewrite Hp in Hc.
    inversion Hc as [?|?|spec m2 Hh Hf' Hset|?]; subst; [done|].
    pose proof (Value_Set_out (Value_ spec) (CutByte s "=").1.2 m) as Ho.
    by rewrite Hset in Ho.
Qed.

(** X7.  What [Parse] writes to the output when the caller has set no
    [Usage] function.  With [r] the error of the failing step (which
    [ContinueOnError] returns and [PanicOnError] panics with): nothing
    when no step fails; the usage listing when the failure is
    [ErrHelp]; otherwise the text of the error on a line of its own,
    then the usage listing. *)
Theorem X7_what_Parse_writes l e m :
  Usage e = None ->
  exists r,
    (Parse l e m).2 = dispatch (errorHandling e) r
    /\ out (Parse l e m).1.2
       = out m ++ match r with
                  | None => ""
                  | Some err =>
                      (if error_eqb err ErrHelp then "" else Error err ++ LF) ++ listing e
                  end
    /\ defaultEnvironment e m = write (listing e) m.
Proof.
  intros HU.
  destruct (Parse_steps l e m) as (e' & m' & r & Hs & ->). cbn.
  exists r. split; [done|]. split; [|apply defaultEnvironment_text].
  rewrite (steps_out _ _ _ _ _ Hs) by done.
  f_equal.
Qed.
End Runs.

(** *** What [Parse] leaves alone, and single entries *)

Section Frames.
Context `{Host}.
Implicit Types (e : EnvSet) (m : Machine) (s name description : string) (l : list string).

Lemma steps_mem e m e' m' r q :
  steps e m e' m' r ->
  (forall s spec, s ∈ environment e -> formal e !! entryName s = Some spec ->
                  pointer (Value_ spec) <> Some q) ->
  mem m' !! q = mem m !! q.
Proof.
  induction 1 as [e m e1 m1 Hp|e m e1 m1 err Hp|e m ea ma e1 m1 r Hp _ IH]; intros Hq.
  - by apply parseOne_frame in Hp as (_ & _ & _ & _ & He & -> & -> & _).
  - destruct (environment e) as [|s rest] eqn:He.
    { rewrite (parseOne_nil _ _ He) in Hp. discriminate. }
    pose proof (parseOne_cases e m s rest He) as Hc. rewrite Hp in Hc.
    inversion Hc as [Hh|?|?|spec m2 err' msg Hh Hf Hset Hmsg]; subst.
    + by destruct (usage_frame e m) as [-> _].
    + destruct (usage_frame e (write (("invalid value " ++ Quote (CutByte s "=").1.2
          ++ " for variable " ++ entryName s ++ ": " ++ Error err') ++ LF) m2)) as [-> _].
      cbn [mem write].
      pose proof (Value_Set_mem (Value_ spec) (CutByte s "=").1.2 m q) as Hm.
      rewrite Hset in Hm. apply Hm. apply (Hq s); [|done]. apply elem_of_cons. by left.
  - destruct (environment e) as [|s rest] eqn:He.
    { rewrite (parseOne_nil _ _ He) in Hp. discriminate. }
    pose proof (parseOne_cases e m s rest He) as Hc. rewrite Hp in Hc.
    assert (Hrest : forall s0 spec, s0 ∈ rest -> formal e !! entryName s0 = Some spec ->
                                    pointer (Value_ spec) <> Some q).
    { intros s0 spec Hin. apply Hq. apply elem_of_cons. by right. }
    inversion Hc as [?|Hh Hf|spec m2 Hh Hf Hset|?]; subst.
    + by apply IH.
    + rewrite IH by done.
      pose proof (Value_Set_mem (Value_ spec) (CutByte s "=").1.2 m q) as Hm.
      rewrite Hset in Hm. apply Hm. apply (Hq s); [|done]. apply elem_of_cons. by left.
Qed.

Lemma steps_world e m e' m' r :
  steps e m e' m' r -> Usage e = None ->
  (forall s spec, s ∈ environment e -> formal e !! entryName s = Some spec ->
                  is_Some (pointer (Value_ spec))) ->
  world m' = world m.
Proof.
  induction 1 as [e m e1 m1 Hp|e m e1 m1 err Hp|e m ea ma e1 m1 r Hp _ IH]; intros HU Hq.
  - by apply parseOne_frame in Hp as (_ & _ & _ & _ & He & -> & -> & _).
  - destruct (environment e) as [|s rest] eqn:He.
    { rewrite (parseOne_nil _ _ He) in Hp. discriminate. }
    pose proof (parseOne_cases e m s rest He) as Hc. rewrite Hp in Hc.
    inversion Hc as [Hh|?|?|spec m2 err' msg Hh Hf Hset Hmsg]; subst.
    + by rewrite (usage_default _ _ HU).
    + rewrite (usage_default _ _ HU). cbn [world write].
      pose proof (Value_Set_world (Value_ spec) (CutByte s "=").1.2 m) as Hm.
      rewrite Hset in Hm. apply Hm. apply (Hq s); [|done]. apply elem_of_cons. by left.
  - destruct (environment e) as [|s rest] eqn:He.
    { rewrite (parseOne_nil _ _ He) in Hp. discriminate. }
    pose proof (parseOne_cases e m s rest He) as Hc. rewrite Hp in Hc.
    assert (Hrest : forall s0 spec, s0 ∈ rest -> formal e !! entryName s0 = Some spec ->
                                    is_Some (pointer (Value_ spec))).
    { intros s0 spec Hin. apply Hq. apply elem_of_cons. by right. }
    inversion Hc as [?|Hh Hf|spec m2 Hh Hf Hset|?]; subst.
    + by apply IH.
    + rewrite IH by done.
      pose proof (Value_Set_world (Value_ spec) (CutByte s "=").1.2 m) as Hm.
      rewrite Hset in Hm. apply Hm. apply (Hq s); [|done]. apply elem_of_cons. by left.
Qed.


Lemma steps_help e m e' m' r n :
  steps e m e' m' r -> isHelp n = true -> actual e' !! n = actual e !! n.
Proof.
  induction 1 as [e m e1 m1 Hp|e m e1 m1 err Hp|e m ea ma e1 m1 r Hp _ IH]; intros Hn.
  - by apply parseOne_frame in Hp as (_ & _ & _ & _ & He & -> & -> & _).
  - destruct (environment e) as [|s rest] eqn:He.
    { rewrite (parseOne_nil _ _ He) in Hp. discriminate. }
    pose proof (parseOne_cases e m s rest He) as Hc. rewrite Hp in Hc.
    inversion Hc; subst; done.
  - destruct (environment e) as [|s rest] eqn:He.
    { rewrite (parseOne_nil _ _ He) in Hp. discriminate. }
    pose proof (parseOne_cases e m s rest He) as Hc. rewrite Hp in Hc.
    rewrite IH by done.
    inversion Hc as [?|?|spec m2 Hh Hf Hset|?]; subst; try done.
    cbn. apply lookup_insert_ne. intros Heq. congruence.
Qed.

(** X9.  The names [HELP] and [H] can be declared like any other,
    but a variable declared under one of them is never set: whatever
    the list, [Parse] leaves the name out of [actual] (more exactly,
    leaves [actual] at that name as it was). *)
Theorem X9_a_variable_named_HELP_is_never_set n :
  isHelp n = true ->
  (forall (value : Value) description e m,
     formal e !! n = None -> undef e !! n = None ->
     Var value n description e m
     = Ok (set_formal (<[n := mkSpec n description value (Value_String value m)]> (formal e)) e,
           m))
  /\ (forall l e m, actual (Parse l e m).1.1 !! n = actual e !! n).
Proof.
  intros Hn. split.
  - intros value description e m Hf Hu. unfold Var.
    assert (Hc : ContainsByte n "=" = false).
    { unfold isHelp in Hn. apply orb_true_iff in Hn as [->%String.eqb_eq| ->%String.eqb_eq]; done. }
    by rewrite Hc, Hf, Hu.
  - intros l e m. destruct (Parse_steps l e m) as (e' & m' & r & Hs & ->). cbn.
    by rewrite (steps_help _ _ _ _ _ n Hs).
Qed.

(** [Parse] of a single entry whose name is declared. *)
Lemma Parse_one e m s n value found spec :
  CutByte s "=" = (n, value, found) ->
  isHelp n = false -> formal e !! n = Some spec ->
  Parse [s] e m
  = match Value_Set (Value_ spec) value m with
    | (m1, None) =>
        (set_actual (<[n := spec]> (actual e)) (set_environment [] (set_parsed true e)),
         m1, Returned None)
    | (m1, Some err) =>
        let msg := "invalid value " ++ Quote value ++ " for variable " ++ n
                   ++ ": " ++ Error err in
        (set_environment [] (set_parsed true e), usage e (write (msg ++ LF) m1),
         dispatch (errorHandling e) (Some (errorString msg)))
    end.
Proof.
  intros Hcut Hh Hf.
  assert (Hn : entryName s = n) by (unfold entryName; by rewrite Hcut).
  assert (Hval : (CutByte s "=").1.2 = value) by (by rewrite Hcut).
  pose (e0 := set_environment [s] (set_parsed true e)).
  destruct (Parse_steps [s] e m) as (e' & m' & r & Hs' & ->).
  destruct (Value_Set (Value_ spec) value m) as [m1 [err|]] eqn:Hset.
  - pose proof (parseOne_fail e0 m s [] spec m1 err eq_refl) as Hstep.
    rewrite Hn, Hval in Hstep. specialize (Hstep Hh Hf Hset). cbn zeta in Hstep.
    apply steps_fail in Hstep.
    by destruct (steps_det _ _ _ _ _ Hs' _ _ _ Hstep) as (-> & -> & ->).
  - pose proof (parseOne_set e0 m s [] spec m1 eq_refl) as Hstep.
    rewrite Hn, Hval in Hstep. specialize (Hstep Hh Hf Hset).
    assert (Hs : steps e0 m (set_actual (<[n := spec]> (actual e0)) (set_environment [] e0))
                   m1 None).
    { eapply steps_next; [exact Hstep|]. by apply steps_done, parseOne_nil. }
    by destruct (steps_det _ _ _ _ _ Hs' _ _ _ Hs) as (-> & -> & ->).
Qed.

(** X10.  In an [EnvSet] whose [Spec]s are filed under their names
    (declarations keep it so), every declared variable but one named
    [HELP] or [H] is reached by the entry [NAME=value]: [Parse] calls
    [Set] on its [Value] with exactly [value].  When [Set] returns nil
    the machine is as [Set] left it, the name is bound in [actual] and
    [Parse] returns nil; when it returns an error, [actual] is as
    before, the cells are as [Set] left them, and the failure carries
    the message naming the value, the variable and the error. *)
Theorem X10_a_declared_variable_is_reached_by_its_entry e m n spec value :
  named (formal e) -> formal e !! n = Some spec -> isHelp n = false ->
  Parse [n ++ "=" ++ value] e m
  = match Value_Set (Value_ spec) value m with
    | (m1, None) =>
        (set_actual (<[n := spec]> (actual e)) (set_environment [] (set_parsed true e)),
         m1, Returned None)
    | (m1, Some err) =>
        let msg := "invalid value " ++ Quote value ++ " for variable " ++ n
                   ++ ": " ++ Error err in
        (set_environment [] (set_parsed true e), usage e (write (msg ++ LF) m1),
         dispatch (errorHandling e) (Some (errorString msg)))
    end
  /\ mem (Parse [n ++ "=" ++ value] e m).1.2 = mem (Value_Set (Value_ spec) value m).1
  /\ calls (Parse [n ++ "=" ++ value] e m).1.2 = (calls m ++ [(Value_ spec, value)])%list.
Proof.
  intros Hnamed Hf Hh.
  destruct (Hnamed n spec Hf) as [_ Hc].
  pose proof (Parse_one e m (n ++ "=" ++ value) n value true spec
                (CutByte_sep n value "=" Hc) Hh Hf) as Hp.
  split; [exact Hp|]. rewrite Hp.
  pose proof (Value_Set_calls (Value_ spec) value m) as Hcalls.
  destruct (Value_Set (Value_ spec) value m) as [m1 [err|]]; cbn in Hcalls |- *.
  - destruct (usage_frame e (write (("invalid value " ++ Quote value ++ " for variable "
        ++ n ++ ": " ++ Error err) ++ LF) m1)) as [-> ->]. done.
  - done.
Qed.

Lemma Parse_one_string e m s name value found spec p :
  CutByte s "=" = (name, value, found) ->
  isHelp name = false -> formal e !! name = Some spec -> Value_ spec = stringValue p ->
  exists e' m',
    Parse [s] e m = (e', m', Returned None)
    /\ load_string (mem m') p = value
    /\ Value_String (Value_ spec) m' = value
    /\ actual e' !! name = Some spec
    /\ out m' = out m
    /\ calls m' = (calls m ++ [(stringValue p, value)])%list.
Proof.
  intros Hcut Hh Hf Hv.
  rewrite (Parse_one e m s name value found spec Hcut Hh Hf), Hv.
  eexists _, _. split; [reflexivity|]. cbn.
  unfold load_string. rewrite !lookup_insert_eq. done.
Qed.

(** X11.  A string variable takes the text of its entry as it is:
    whatever follows the first ['='], be it empty or with further ['=']
    in it, is stored unchanged and [String()] returns it; [Parse]
    returns nil, writes nothing and records the variable in [actual].
    An entry that is the bare name stores the empty text. *)
Theorem X11_a_string_variable_stores_the_text_as_it_is e m name spec p :
  ContainsByte name "=" = false -> isHelp name = false ->
  formal e !! name = Some spec -> Value_ spec = stringValue p ->
  (forall value, exists e' m',
     Parse [name ++ "=" ++ value] e m = (e', m', Returned None)
     /\ load_string (mem m') p = value
     /\ Value_String (Value_ spec) m' = value
     /\ actual e' !! name = Some spec
     /\ out m' = out m
     /\ calls m' = (calls m ++ [(stringValue p, value)])%list)
  /\ (exists e' m',
        Parse [name] e m = (e', m', Returned None)
        /\ load_string (mem m') p = ""
        /\ Value_String (Value_ spec) m' = ""
        /\ actual e' !! name = Some spec
        /\ out m' = out m
        /\ calls m' = (calls m ++ [(stringValue p, "")])%list).
Proof.
  intros Hc Hh Hf Hv. split.
  - intros value. apply (Parse_one_string e m _ name value true spec p); [|done..].
    exact (CutByte_sep name value "=" Hc).
  - apply (Parse_one_string e m _ name "" false spec p); [|done..].
    exact (CutByte_none name "=" Hc).
Qed.
End Frames.

(** *** Declarations *)

Section MoreDeclarations.
Context `{Host}.
Implicit Types (e : EnvSet) (m : Machine) (s name description : string) (l : list string).

Import strconv_facts.

Lemma declare_declValue (d : Decl) name description e m :
  declare d name description e m
  = match declValue d m with
    | Ok (v, m1) => Var v name description e m1
    | Panic msg m1 => Panic msg m1
    end.
Proof.
  destruct d; cbn [declare declValue];
    unfold Bool, Int, Int64, Uint, Uint64, String_, Float64, Duration, new,
      BoolVar, IntVar, Int64Var, UintVar, Uint64Var, StringVar, Float64Var,
      DurationVar, Func, BoolFunc, TextVar,
      newBoolValue, newIntValue, newInt64Value, newUintValue, newUint64Value,
      newStringValue, newFloat64Value, newDurationValue;
    cbn [forget returning]; try reflexivity;
    try (match goal with
         | |- context [Var ?v ?n ?ds ?e0 ?m0] =>
             by destruct (Var v n ds e0 m0) as [[e1 m1]|msg m1]
         end).
Qed.

Lemma rtype_eqb_eq (a b : rtype) : rtype_eqb a b = true <-> a = b.
Proof.
  revert b. induction a as [x|a IH]; intros [y|b]; cbn.
  - rewrite String.eqb_eq. split; congruence.
  - split; discriminate.
  - split; discriminate.
  - rewrite IH. split; congruence.
Qed.

Lemma TPtr_neq (t : rtype) : TPtr t <> t.
Proof. induction t as [x|t IH]; congruence. Qed.

Lemma newTextValue_Ok (val p : TextUnmarshaler) m v m' :
  newTextValue val p m = Ok (v, m')
  <-> ((exists t, typ val = TPtr t) /\ typ p = TPtr (typ val))
      /\ v = textValue p /\ m' = set_world (assign val (world m)) m.
Proof.
  unfold newTextValue. destruct (typ p) as [x|elem].
  { split; [discriminate|]. by intros [[_ [=]] _]. }
  destruct (typ val) as [y|t] eqn:Hval.
  { split; [discriminate|]. by intros [[[t [=]] _] _]. }
  destruct (rtype_eqb (TPtr t) elem) eqn:Heq; cbn [negb].
  - apply rtype_eqb_eq in Heq as <-. split.
    + intros [= <- <-]. eauto.
    + by intros (_ & -> & ->).
  - split; [discriminate|]. intros [[_ [= ->]] _].
    assert (rtype_eqb (TPtr t) (TPtr t) = true) by (by apply rtype_eqb_eq). congruence.
Qed.

Lemma Var_Ok_iff (value : Value) name description e m x :
  Var value name description e m = Ok x
  <-> (ContainsByte name "=" = false /\ formal e !! name = None
       /\ default EmptyString (undef e !! name) = "")
      /\ x = (set_formal (<[name := mkSpec name description value (Value_String value m)]>
                            (formal e)) e, m).
Proof.
  unfold Var. destruct (ContainsByte name "=").
  { split; [discriminate|]. by intros [[[=] _] _]. }
  destruct (formal e !! name).
  { split; [by destruct (String.eqb _ _)|]. by intros [(_ & [=] & _) _]. }
  destruct (String.eqb_spec (default "" (undef e !! name)) "") as [Hu|Hu]; cbn [negb].
  - split; [by intros [= <-]|by intros [_ ->]].
  - split; [discriminate|]. by intros [(_ & _ & ?) _].
Qed.

(** X12.  A declaration call of any kind and form returns (rather than
    panics) exactly when the name has no ['='] in it, is not declared
    yet and is not marked as set before being defined, and, for
    [TextVar], the default is of a pointer type and the variable is a
    pointer to that type. *)
Theorem X12_when_a_declaration_returns (d : Decl) name description e m :
  (exists e' m', declare d name description e m = Ok (e', m'))
  <-> ContainsByte name "=" = false /\ formal e !! name = None
      /\ default EmptyString (undef e !! name) = "" /\ textFits d.
Proof.
  rewrite declare_declValue.
  assert (Hval : (exists v m1, declValue d m = Ok (v, m1)) <-> textFits d).
  { destruct d; cbn [declValue textFits]; unfold new;
      try (split; [done|intros _; by eexists _, _]).
    split.
    - intros (v & m1 & Hn). by apply newTextValue_Ok in Hn as [? _].
    - intros Hfit. eexists _, _. by apply newTextValue_Ok. }
  split.
  - intros (e' & m' & Hd).
    destruct (declValue d m) as [[v m1]|msg m1] eqn:Hv; [|discriminate].
    apply Var_Ok_iff in Hd as [(? & ? & ?) _]. split_and!; try done.
    apply Hval. by eexists _, _.
  - intros (Hc & Hf & Hu & Hfit). apply Hval in Hfit as (v & m1 & ->).
    eexists _, _. by apply Var_Ok_iff.
Qed.

Lemma declValue_frame (d : Decl) m v m1 :
  declValue d m = Ok (v, m1) ->
  out m1 = out m /\ calls m1 = calls m
  /\ (forall q, pointer v <> Some q -> mem m1 !! q = mem m !! q)
  /\ (forall a, defaultOf d = Some a -> Value_Get v m1 = a).
Proof.
  destruct d; cbn [declValue defaultOf]; unfold new,
      newBoolValue, newIntValue, newInt64Value, newUintValue, newUint64Value,
      newStringValue, newFloat64Value, newDurationValue;
    try (intros [= <- <-]; cbn; split_and!; try done;
         [intros q Hq; rewrite ?lookup_insert_ne by congruence; done
         |intros a [= <-]; unfold load_bool, load_int, load_string, load_float64;
          by rewrite lookup_insert_eq]).
  - intros (_ & -> & ->)%newTextValue_Ok. done.
  - intros [= <- <-]. done.
  - intros [= <- <-]. done.
  - intros [= <- <-]. done.
Qed.

(** X13.  What a declaration that returns has done: the name, new to
    [formal], is bound to a [Spec] with that name and description whose
    [DefValue] is the [String()] of the value at that moment, and for
    the scalar kinds [Get()] returns the default; [actual], the output
    and the record of [Set] calls are as before, as is every cell but
    the variable's own; the [Spec]s stay filed under their names. *)
Theorem X13_what_a_declaration_records (d : Decl) name description e m e' m' :
  declare d name description e m = Ok (e', m') ->
  exists spec,
    formal e !! name = None
    /\ formal e' = <[name := spec]> (formal e)
    /\ Name spec = name /\ Description spec = description
    /\ DefValue spec = Value_String (Value_ spec) m'
    /\ (forall a, defaultOf d = Some a -> Value_Get (Value_ spec) m' = a)
    /\ actual e' = actual e
    /\ out m' = out m /\ calls m' = calls m
    /\ (forall q, pointer (Value_ spec) <> Some q -> mem m' !! q = mem m !! q)
    /\ (named (formal e) -> named (formal e')).
Proof.
  rewrite declare_declValue.
  destruct (declValue d m) as [[v m1]|msg m1] eqn:Hv; [|discriminate].
  intros [(Hname & Hf & _) [= -> ->]]%Var_Ok_iff.
  destruct (declValue_frame _ _ _ _ Hv) as (Ho & Hc & Hm & Hg).
  exists (mkSpec name description v (Value_String v m1)). cbn.
  split_and!; try done.
  intros Hn n spec. rewrite lookup_insert_Some. intros [[<- <-]|[_ Hl]]; [done|by apply Hn].
Qed.

Lemma FormatInt_zero i :
  - 2 ^ 63 <= i < 2 ^ 63 -> String.eqb (strconv.FormatInt i) "0" = (i =? 0).
Proof.
  intros Hi. destruct (Z.eqb_spec i 0) as [->|Hne]; [reflexivity|].
  apply String.eqb_neq. intros Heq.
  pose proof (ParseInt_FormatInt i 64) as Hp. rewrite Heq in Hp.
  assert (H0 : strconv.ParseInt "0" 64 = (0, None)) by (vm_compute; reflexivity).
  rewrite H0 in Hp. specialize (Hp ltac:(lia) ltac:(change (2 ^ (64 - 1)) with (2 ^ 63); lia)).
  congruence.
Qed.

Lemma FormatUint_zero_iff u :
  0 <= u < 2 ^ 64 -> String.eqb (strconv.FormatUint u) "0" = (u =? 0).
Proof.
  intros Hu. destruct (Z.eqb_spec u 0) as [->|Hne]; [reflexivity|].
  apply String.eqb_neq. intros Heq.
  pose proof (parseUint_FormatUint "ParseUint" u 64) as Hp. rewrite Heq in Hp.
  assert (H0 : strconv.parseUint "ParseUint" "0" 64 = (0, None)) by (vm_compute; reflexivity).
  rewrite H0 in Hp. specialize (Hp ltac:(lia) Hu).
  congruence.
Qed.

(** X14.  For a variable declared with one of the bool, integer or
    string calls (the default being a value of its Go type),
    [isZeroValue] finds the captured default to be the zero value
    exactly when the default given to the call is [false], [0] or the
    empty text: these, and only these, are listed without a default. *)
Theorem X14_the_zero_default_is_recognised (d : Decl) name description e m e' m' z :
  declare d name description e m = Ok (e', m') ->
  inRange d -> zeroDefault d = Some z ->
  exists spec,
    formal e' !! name = Some spec
    /\ isZeroValue spec (DefValue spec) = (z, None)
    /\ (DefValue spec = zeroString (Value_ spec) <-> z = true).
Proof.
  rewrite declare_declValue.
  destruct (declValue d m) as [[v m1]|msg m1] eqn:Hv; [|discriminate].
  intros [_ [= -> ->]]%Var_Ok_iff Hr Hz.
  exists (mkSpec name description v (Value_String v m1)).
  split; [cbn [formal set_formal]; by rewrite lookup_insert_eq|].
  assert (Hzero : String.eqb (Value_String v m1) (zeroString v) = z).
  { destruct d; cbn [zeroDefault inRange declValue] in Hv, Hr, Hz; try discriminate;
      unfold new, newBoolValue, newIntValue, newInt64Value, newUintValue, newUint64Value,
        newStringValue in Hv;
      injection Hv as <- <-; injection Hz as <-; cbn;
      unfold load_bool, load_int, load_string; rewrite lookup_insert_eq;
      unfold boolValue_String, intValue_String, int64Value_String, uintValue_String,
        uint64Value_String, stringValue_String, strconv.Itoa;
      first [by destruct value
            |by apply FormatInt_zero
            |by apply FormatUint_zero_iff
            |done]. }
  unfold isZeroValue. cbn [Value_ DefValue]. rewrite Hzero. split; [done|].
  rewrite <- Hzero. by rewrite String.eqb_eq.
Qed.

(** X15.  [newTextValue] returns exactly when the default is of a
    pointer type and the variable's type is a pointer to that type; it
    then stores the default into the variable and touches nothing
    else.  Hence [TextVar] called with a variable and a default of one
    and the same type panics, before anything is declared or stored. *)
Theorem X15_TextVar_and_the_types (val p : TextUnmarshaler) m :
  (forall v m',
     newTextValue val p m = Ok (v, m')
     <-> ((exists t, typ val = TPtr t) /\ typ p = TPtr (typ val))
         /\ v = textValue p /\ m' = set_world (assign val (world m)) m)
  /\ (typ p = typ val ->
      forall name description e,
        exists msg, TextVar p name val description e m = Panic msg m).
Proof.
  split; [intros v m'; apply newTextValue_Ok|].
  intros Ht name description e. unfold TextVar, newTextValue. rewrite Ht.
  destruct (typ val) as [x|t]; [by eexists|].
  destruct (rtype_eqb (TPtr t) t) eqn:Heq; cbn [negb]; [|by eexists].
  apply rtype_eqb_eq in Heq. by apply TPtr_neq in Heq.
Qed.

(** X16.  [UnquoteUsage] on a description whose first two back quotes
    enclose [n]: the name is [n] and the description loses those two
    quotes, whatever the kind of the value.  With fewer than two back
    quotes the description is returned as it is, a lone back quote
    included, and the name is the word for the kind of the value. *)
Theorem X16_UnquoteUsage_takes_the_first_quoted_name (spec : Spec) :
  (forall a n b : string,
     Description spec = a ++ "`" ++ n ++ "`" ++ b ->
     ContainsByte a backquote = false -> ContainsByte n backquote = false ->
     UnquoteUsage spec = (n, a ++ n ++ b))
  /\ (forall a r : string,
        Description spec = a \/ Description spec = a ++ "`" ++ r ->
        ContainsByte a backquote = false -> ContainsByte r backquote = false ->
        UnquoteUsage spec
        = (match Value_ spec with
           | boolValue _ => "boolean"
           | durationValue _ => "duration"
           | float64Value _ => "float"
           | intValue _ | int64Value _ => "int"
           | stringValue _ => "string"
           | uintValue _ | uint64Value _ => "uint"
           | _ => "value"
           end, Description spec)).
Proof.
  split.
  - intros a n b Hd Ha Hn. unfold UnquoteUsage. rewrite Hd.
    change (a ++ "`" ++ n ++ "`" ++ b) with (a ++ String backquote (n ++ String backquote b)).
    rewrite (CutByte_sep a _ backquote Ha), (CutByte_sep n b backquote Hn). done.
  - intros a r [Hd|Hd] Ha Hr; unfold UnquoteUsage; rewrite Hd.
    + rewrite (CutByte_none a backquote Ha). done.
    + change (a ++ "`" ++ r) with (a ++ String backquote r).
      rewrite (CutByte_sep a _ backquote Ha), (CutByte_none r backquote Hr). done.
Qed.
Lemma declare_shape (d : Decl) name description e m e' m' :
  declare d name description e m = Ok (e', m') ->
  exists spec,
    e' = set_formal (<[name := spec]> (formal e)) e
    /\ formal e !! name = None /\ Name spec = name /\ ContainsByte name "=" = false
    /\ out m' = out m /\ calls m' = calls m.
Proof.
  rewrite declare_declValue.
  destruct (declValue d m) as [[v m1]|msg m1] eqn:Hv; [|discriminate].
  intros [(Hname & Hf & _) [= -> ->]]%Var_Ok_iff.
  destruct (declValue_frame _ _ _ _ Hv) as (Ho & Hc & _).
  by eexists (mkSpec name description v _).
Qed.

Lemma declareAll_invariant (ds : list (Decl * string * string)) : forall e m e' m',
  declareAll ds e m = Ok (e', m') -> named (formal e) ->
  named (formal e')
  /\ NoDup ((fun x => x.1.2) <$> ds)
  /\ dom (formal e') = dom (formal e) ∪ list_to_set ((fun x => x.1.2) <$> ds)
  /\ (forall n, n ∈ (fun x => x.1.2) <$> ds -> formal e !! n = None)
  /\ actual e' = actual e /\ undef e' = undef e /\ Usage e' = Usage e
  /\ name e' = name e /\ errorHandling e' = errorHandling e
  /\ out m' = out m /\ calls m' = calls m.
Proof.
  induction ds as [|[[d n] description] ds IH]; intros e m e' m' Hd Hnamed.
  - injection Hd as <- <-. cbn. split_and!; try done.
    + constructor.
    + by rewrite (right_id_L ∅ (∪)).
    + intros n Hn. by apply elem_of_nil in Hn.
  - cbn [declareAll] in Hd.
    destruct (declare d n description e m) as [[e1 m1]|msg m1] eqn:Hdecl; [|discriminate].
    apply declare_shape in Hdecl as (spec & -> & Hf & Hname & Hc & Ho & Hcalls).
    destruct (IH _ _ _ _ Hd) as (H1 & H2 & H3 & H4 & H5 & H6 & H7 & H8 & H9 & H10 & H11).
    { intros k sp. cbn. rewrite lookup_insert_Some.
      intros [[<- <-]|[_ Hl]]; [done|by apply Hnamed]. }
    cbn in H3, H4, H5, H6, H7, H8, H9.
    rewrite fmap_cons. cbn [fst snd].
    split_and!; try assumption; try congruence.
    + constructor; [|exact H2]. intros Hin. specialize (H4 n Hin).
      by rewrite lookup_insert_eq in H4.
    + rewrite H3, dom_insert_L, list_to_set_cons.
      by rewrite (comm_L (∪) {[n]} (dom (formal e))), <- (assoc_L (∪)).
    + intros k [->|Hin]%elem_of_cons; [done|].
      specialize (H4 k Hin). apply lookup_insert_None in H4 as [? _]. done.
Qed.

(** X17.  A program's declaration calls, made one after the other on
    a new [EnvSet] without a panic, leave a set in which every [Spec] is
    filed under its name: the names given to the calls are pairwise
    distinct, they are the names of [formal] and of the listing of
    [VisitAll], nothing is in [actual], the name and the policy are
    those given to [NewEnvSet], and nothing has been written to the
    output. *)
Theorem X17_declarations_build_the_listing
  (ds : list (Decl * string * string)) n h m e' m' :
  declareAll ds (NewEnvSet n h) m = Ok (e', m') ->
  named (formal e')
  /\ NoDup ((fun x => x.1.2) <$> ds)
  /\ dom (formal e') = list_to_set ((fun x => x.1.2) <$> ds)
  /\ Name <$> VisitAll e' ≡ₚ (fun x => x.1.2) <$> ds
  /\ actual e' = ∅
  /\ EnvSet_Name e' = n /\ EnvSet_ErrorHandling e' = h
  /\ out m' = out m.
Proof.
  intros Hd.
  destruct (declareAll_invariant ds _ _ _ _ Hd)
    as (H1 & H2 & H3 & _ & H5 & _ & _ & H8 & H9 & H10 & _); [done|].
  cbn in H3, H5, H8, H9. rewrite dom_empty_L, (left_id_L ∅ (∪)) in H3.
  split_and!; try done.
  unfold VisitAll, sortVariables. rewrite merge_sort_Permutation.
  assert (Hnames : Name <$> (map_to_list (formal e')).*2 = (map_to_list (formal e')).*1).
  { rewrite <- list_fmap_compose. apply list_fmap_ext.
    intros i [k spec] Hl. cbn. apply H1.
    apply elem_of_map_to_list. by eapply list_elem_of_lookup_2. }
  rewrite Hnames. apply NoDup_Permutation; [apply NoDup_fst_map_to_list|done|].
  intros k.
  rewrite <- (elem_of_list_to_set (C := gset string) k ((fun x => x.1.2) <$> ds)).
  rewrite <- H3, elem_of_dom.
  rewrite list_elem_of_fmap. split.
  - intros ([k' spec] & -> & Hin%elem_of_map_to_list). by eexists.
  - intros [spec Hl]. exists (k, spec). split; [done|]. by apply elem_of_map_to_list.
Qed.

End MoreDeclarations.

(** *** The values: errors of [Set] and what it stores *)

Section MoreValues.
Context `{Host}.
Implicit Types (e : EnvSet) (m : Machine) (s name description : string) (p : positive).

Import strconv_facts.
Import time_facts.

(** X18.  Where the error of a failing [Set] comes from.  For a bool
    and for a duration it is always the package's parse error, an
    overflowing duration included; for the integer kinds it is the
    parse error or the range error; for a float it is what [numError]
    makes of the error of [strconv.ParseFloat]; for a text value and
    for the callbacks it is the error of [UnmarshalText] or of the
    callback, unchanged. *)
Theorem X18_where_the_error_of_Set_comes_from (v : Value) s m m' err :
  Value_Set v s m = (m', Some err) ->
  match v with
  | boolValue _ | durationValue _ => err = errParse
  | intValue _ | int64Value _ | uintValue _ | uint64Value _ =>
      err = errParse \/ err = errRange
  | float64Value _ => exists err0, (ParseFloat s).2 = Some err0 /\ err = numError err0
  | stringValue _ => False
  | textValue t => (UnmarshalText t s (world m)).2 = Some err
  | funcValue f | boolFuncValue f => (f s (world m)).2 = Some err
  end.
Proof.
  unfold Value_Set. destruct v; cbn;
    unfold boolValue_Set, intValue_Set, int64Value_Set, uintValue_Set, uint64Value_Set,
      stringValue_Set, float64Value_Set, durationValue_Set, textValue_Set,
      funcValue_Set, boolFuncValue_Set.
  - destruct (strconv.ParseBool s) as [b [x|]]; intros [= _ <-]; done.
  - destruct (strconv.ParseInt s strconv.IntSize) as [n [x|]] eqn:Hp; intros [= _ <-].
    apply ParseInt_err in Hp as [[_ ->]|[_ ->]]; auto.
  - destruct (strconv.ParseInt s 64) as [n [x|]] eqn:Hp; intros [= _ <-].
    apply ParseInt_err in Hp as [[_ ->]|[_ ->]]; auto.
  - destruct (strconv.ParseUint s strconv.IntSize) as [n [x|]] eqn:Hp; intros [= _ <-].
    apply ParseUint_err in Hp as [[_ ->]|[_ ->]]; auto.
  - destruct (strconv.ParseUint s 64) as [n [x|]] eqn:Hp; intros [= _ <-].
    apply ParseUint_err in Hp as [[_ ->]|[_ ->]]; auto.
  - discriminate.
  - destruct (ParseFloat s) as [f [x|]]; intros [= _ <-]. by eexists.
  - destruct (time.ParseDuration s) as [d [x|]]; intros [= _ <-]; done.
  - destruct (UnmarshalText p s _) as [w x]. by intros [= _ <-].
  - destruct (f s _) as [w x]. by intros [= _ <-].
  - destruct (f s _) as [w x]. by intros [= _ <-].
Qed.

(** X19.  The cell of an integer variable holds a value of its Go type
    after every [Set], failed or not: a 64-bit signed integer for
    [int] and [int64], a 64-bit unsigned integer for [uint] and
    [uint64]; and the cell of a duration, which [Set] writes only when
    it succeeds, stays a 64-bit signed integer when it was one. *)
Theorem X19_Set_stores_values_of_the_type p s m :
  (- 2 ^ 63 <= load_int (mem (Value_Set (intValue p) s m).1) p < 2 ^ 63)
  /\ (- 2 ^ 63 <= load_int (mem (Value_Set (int64Value p) s m).1) p < 2 ^ 63)
  /\ (0 <= load_int (mem (Value_Set (uintValue p) s m).1) p < 2 ^ 64)
  /\ (0 <= load_int (mem (Value_Set (uint64Value p) s m).1) p < 2 ^ 64)
  /\ (- 2 ^ 63 <= load_int (mem m) p < 2 ^ 63 ->
      - 2 ^ 63 <= load_int (mem (Value_Set (durationValue p) s m).1) p < 2 ^ 63).
Proof.
  assert (Hint : - 2 ^ 63 <= (strconv.ParseInt s 64).1 < 2 ^ 63).
  { destruct (strconv.ParseInt s 64) as [n [x|]] eqn:Hp; cbn.
    - apply ParseInt_err in Hp as [[-> _]|[[->| ->] _]];
        change (2 ^ (64 - 1)) with 9223372036854775808;
        change (2 ^ 63) with 9223372036854775808; lia.
    - apply ParseInt_ok in Hp; [|lia]. exact Hp. }
  assert (Huint : 0 <= (strconv.ParseUint s 64).1 < 2 ^ 64).
  { destruct (strconv.ParseUint s 64) as [n [x|]] eqn:Hp; cbn.
    - apply ParseUint_err in Hp as [[-> _]|[-> _]];
        change (2 ^ 64) with 18446744073709551616; lia.
    - apply parseUint_ok in Hp; [exact Hp|lia]. }
  unfold Value_Set, intValue_Set, int64Value_Set, uintValue_Set, uint64Value_Set,
    durationValue_Set, strconv.IntSize.
  split; [|split; [|split; [|split]]].
  - destruct (strconv.ParseInt s 64) as [n x]. cbn in Hint |- *.
    by rewrite load_int_insert.
  - destruct (strconv.ParseInt s 64) as [n x]. cbn in Hint |- *.
    by rewrite load_int_insert.
  - destruct (strconv.ParseUint s 64) as [n x]. cbn in Huint |- *.
    by rewrite load_int_insert.
  - destruct (strconv.ParseUint s 64) as [n x]. cbn in Huint |- *.
    by rewrite load_int_insert.
  - intros Hm. destruct (time.ParseDuration s) as [d [x|]] eqn:Hp; cbn; [exact Hm|].
    rewrite load_int_insert. by apply ParseDuration_ok in Hp.
Qed.
End MoreValues.

(** ** The package at work on the example host *)

#[local] Existing Instance exampleHost.

Section Examples.
Let e := (declared ContinueOnError).1.
Let m := (declared ContinueOnError).2.

Example declared_formal :
  formal e = <["VERBOSE" := mkSpec "VERBOSE" "say more" (boolFuncValue remember) ""]>
               (<["DEBUG" := debugSpec]> (<["PORT" := portSpec]> ∅)).
Proof. vm_compute. reflexivity. Qed.

(** The examples of the specification. *)
Example parse_port :
  exists e' m', Parse ["PORT=8080"] e m = (e', m', Returned None)
                /\ load_int (mem m') 1 = 8080 /\ actual e' !! "PORT" = Some portSpec.
Proof. eexists _, _. split; [vm_compute; reflexivity|]. split; vm_compute; reflexivity. Qed.

Example parse_port_malformed_exits_2 :
  (Parse ["PORT=notanumber"] (declared ExitOnError).1 (declared ExitOnError).2).2 = Exited 2.
Proof. vm_compute. reflexivity. Qed.

Example parse_help_exits_0 :
  (Parse ["HELP=1"] (declared ExitOnError).1 (declared ExitOnError).2).2 = Exited 0.
Proof. vm_compute. reflexivity. Qed.

Example parse_count_out_of_range :
  (Value_Set (H := exampleHost) (uint64Value 1) "99999999999999999999" m).2 = Some errRange.
Proof. vm_compute. reflexivity. Qed.

Example usage_listing :
  out (usage e m)
  = "Environment:" ++ LF
    ++ "  DEBUG  boolean" ++ LF ++ "    " ++ TAB ++ "debug output" ++ LF
    ++ "  PORT  int" ++ LF ++ "    " ++ TAB ++ "port to listen on" ++ LF
    ++ "  VERBOSE  value" ++ LF ++ "    " ++ TAB ++ "say more" ++ LF.
Proof. vm_compute. reflexivity. Qed.
End Examples.

(** C1, counterexample.  [PORT] is set by a first [Parse]; a second
    [Parse] of the empty list leaves it in [actual]. *)
Lemma C1_counterexample :
  exists e m o,
    parseTwice ContinueOnError ["PORT=1"] [] = Some (e, m, o)
    /\ is_Some (actual e !! "PORT")
    /\ "PORT" ∉ entryName <$> ([] : list string).
Proof.
  eexists _, _, _. split; [vm_compute; reflexivity|].
  split; [eexists; vm_compute; reflexivity|]. apply not_elem_of_nil.
Qed.

(** C3, counterexample.  [DEBUG=] fails and stores [false], where
    [DEBUG=true] succeeds and stores [true]; the BoolFunc callback of
    [VERBOSE=] receives the empty text, not [true]. *)
Lemma C3_counterexample :
  (exists e m o,
     parseExample ContinueOnError ["DEBUG="] = Some (e, m, o)
     /\ o <> Returned None /\ load_bool (mem m) 2 = false /\ actual e !! "DEBUG" = None)
  /\ (exists e m o,
        parseExample ContinueOnError ["DEBUG=true"] = Some (e, m, o)
        /\ o = Returned None /\ load_bool (mem m) 2 = true
        /\ actual e !! "DEBUG" = Some debugSpec)
  /\ (exists e m o,
        parseExample ContinueOnError ["VERBOSE="] = Some (e, m, o) /\ world m = EmptyString)
  /\ (exists e m o,
        parseExample ContinueOnError ["VERBOSE=true"] = Some (e, m, o) /\ world m = "true").
Proof.
  split_and!; eexists _, _, _; (split; [vm_compute; reflexivity|]).
  - split; [discriminate|]. split; vm_compute; reflexivity.
  - split; [reflexivity|]. split; vm_compute; reflexivity.
  - reflexivity.
  - reflexivity.
Qed.

(** C4, counterexample.  The list has an entry named [HELP], but the
    entry before it fails first: [Parse] does not return [ErrHelp]. *)
Lemma C4_counterexample :
  exists e m o,
    parseExample ContinueOnError ["PORT=x"; "HELP=1"] = Some (e, m, o)
    /\ isHelp (entryName "HELP=1") = true
    /\ o <> Returned (Some ErrHelp).
Proof.
  eexists _, _, _. split; [vm_compute; reflexivity|]. split; [reflexivity|discriminate].
Qed.


Lemma declared_invariant h : actual (declared h).1 ⊆ formal (declared h).1.
Proof.
  assert (Ha : actual (declared h).1 = ∅) by (destruct h; vm_compute; reflexivity).
  rewrite Ha. apply map_empty_subseteq.
Qed.

Lemma C1_witness :
  let e := (declared ContinueOnError).1 in
  let m := (declared ContinueOnError).2 in
  actual e ⊆ formal e
  /\ exists e' m' o,
       Parse ["PORT=8080"; "HOME=/root"] e m = (e', m', o)
       /\ formal e' = formal e /\ actual e' ⊆ formal e' /\ actual e ⊆ actual e'.
Proof.
  intros e m. split; [apply declared_invariant|].
  destruct (Parse ["PORT=8080"; "HOME=/root"] e m) as [[e' m'] o] eqn:Hp.
  exists e', m', o. split; [reflexivity|].
  destruct (C1_actual_only_grows (H := exampleHost) _ e m e' m' o
              (declared_invariant ContinueOnError) Hp) as (H1 & H2 & H3 & _).
  split; [exact H1|]. split; [exact H2|exact H3].
Defined.


Lemma C3_witness :
  let e := set_environment ["DEBUG="] (declared ContinueOnError).1 in
  let m := (declared ContinueOnError).2 in
  (environment e = ["DEBUG="] /\ CutByte "DEBUG=" "=" = ("DEBUG", EmptyString, true)
   /\ isHelp "DEBUG" = false /\ formal e !! "DEBUG" = Some debugSpec)
  /\ exists m',
       parseOne e m
       = (set_environment [] e, m',
          Some (errorString ("invalid value " ++ Quote "" ++ " for variable "
                             ++ "DEBUG" ++ ": parse error")), false)
       /\ load_bool (mem m') 2 = false.
Proof.
  intros e m.
  assert (H1 : environment e = ["DEBUG="]) by reflexivity.
  assert (H2 : CutByte "DEBUG=" "=" = ("DEBUG", EmptyString, true)) by reflexivity.
  assert (H3 : isHelp "DEBUG" = false) by reflexivity.
  assert (H4 : formal e !! "DEBUG" = Some debugSpec) by (vm_compute; reflexivity).
  split; [repeat split; assumption|].
  destruct (C3_empty_value_is_passed_to_Set (H := exampleHost)
              e m "DEBUG=" [] "DEBUG" debugSpec true H1 H2 H3 H4) as [Hbool _].
  destruct (Hbool 2%positive eq_refl) as (_ & m' & Hstep & Hcell & _).
  exists m'. split; [exact Hstep|exact Hcell].
Defined.

Lemma C4_witness :
  let e := (declared ContinueOnError).1 in
  let m := (declared ContinueOnError).2 in
  errorHandling e = ContinueOnError /\ isHelp (entryName "HELP") = true
  /\ exists e1 m1,
       steps (set_environment ["PORT=1"] (set_parsed true e)) m e1 m1 None
       /\ Parse (["PORT=1"] ++ "HELP" :: ["DEBUG=true"]) e m
          = (set_environment ["DEBUG=true"] e1, usage e m1, Returned (Some ErrHelp))
       /\ calls (usage e m1) = calls m1.
Proof.
  intros e m.
  assert (H1 : errorHandling e = ContinueOnError) by (vm_compute; reflexivity).
  assert (H2 : isHelp (entryName "HELP") = true) by reflexivity.
  split; [exact H1|]. split; [exact H2|].
  destruct (Parse_steps (H := exampleHost) ["PORT=1"] e m) as (e1 & m1 & r & Hs & Hp).
  assert (Hr : r = None).
  { destruct r as [err|]; [|reflexivity].
    assert (Ho : (Parse ["PORT=1"] e m).2 = Returned None) by (vm_compute; reflexivity).
    rewrite Hp, H1 in Ho. discriminate. }
  subst r. exists e1, m1. split; [exact Hs|].
  destruct (C4_help_stops_the_parse (H := exampleHost)
              e m ["PORT=1"] "HELP" ["DEBUG=true"] e1 m1 H1 H2 Hs) as (Hparse & Hcalls & _).
  split; [exact Hparse|exact Hcalls].
Defined.

Lemma C5_witness :
  let e := (declared ExitOnError).1 in
  let m := (declared ExitOnError).2 in
  errorHandling e = ExitOnError
  /\ exists e' m' r,
       steps (set_environment ["PORT=1"; "H="; "DEBUG=1"] (set_parsed true e)) m e' m' r
       /\ match r with
          | None => Parse ["PORT=1"; "H="; "DEBUG=1"] e m = (e', m', Returned None)
          | Some ErrHelp => Parse ["PORT=1"; "H="; "DEBUG=1"] e m = (e', m', Exited 0)
          | Some _ => Parse ["PORT=1"; "H="; "DEBUG=1"] e m = (e', m', Exited 2)
          end.
Proof.
  intros e m.
  assert (H1 : errorHandling e = ExitOnError) by (vm_compute; reflexivity).
  split; [exact H1|].
  exact (C5_exit_status (H := exampleHost) ["PORT=1"; "H="; "DEBUG=1"] e m H1).
Defined.

Lemma C6_witness :
  let e := (declared PanicOnError).1 in
  let m := (declared PanicOnError).2 in
  (is_Some (formal e !! "PORT") \/ ContainsByte "PORT" "=" = true)
  /\ (exists msg m', declare (callString "8080") "PORT" "again" e m = Panic msg m')
  /\ (is_Some (formal e !! "A=B") \/ ContainsByte "A=B" "=" = true)
  /\ (exists msg m', declare (callBool true) "A=B" "bad name" e m = Panic msg m').
Proof.
  intros e m.
  assert (H1 : is_Some (formal e !! "PORT") \/ ContainsByte "PORT" "=" = true).
  { left. exists portSpec. vm_compute. reflexivity. }
  assert (H2 : is_Some (formal e !! "A=B") \/ ContainsByte "A=B" "=" = true).
  { right. reflexivity. }
  split; [exact H1|]. split.
  - exact (C6_declaration_faults_panic (H := exampleHost) (callString "8080") "PORT" "again" e m H1).
  - split; [exact H2|].
    exact (C6_declaration_faults_panic (H := exampleHost) (callBool true) "A=B" "bad name" e m H2).
Defined.



Lemma C9_witness :
  let e := (declared ContinueOnError).1 in
  let m := (declared ContinueOnError).2 in
  Forall (fun s => isHelp (entryName s) = false /\ formal e !! entryName s = None)
         ["UNRELATED=x"]
  /\ exists e', Parse ["UNRELATED=x"] e m = (e', m, Returned None)
                /\ actual e' = actual e /\ formal e' = formal e.
Proof.
  intros e m.
  assert (H1 : Forall (fun s => isHelp (entryName s) = false
                               /\ formal e !! entryName s = None) ["UNRELATED=x"]).
  { constructor; [|constructor]. split; [reflexivity|vm_compute; reflexivity]. }
  split; [exact H1|].
  destruct (C9_unknown_name_is_skipped (H := exampleHost) e m) as [_ Hlist].
  exact (Hlist ["UNRELATED=x"] H1).
Defined.

Lemma C10_witness :
  let m := set_mem (H := exampleHost) <[1%positive := CBool true]> emptyMachine in
  let m' := (Value_Set (boolValue 1) "yes" m).1 in
  Value_Set (boolValue 1) "yes" m = (m', Some errParse)
  /\ load_bool (mem m) 1 = true
  /\ load_bool (mem m') 1 = false.
Proof.
  intros m m'.
  assert (H1 : Value_Set (boolValue 1) "yes" m = (m', Some errParse))
    by (vm_compute; reflexivity).
  split; [exact H1|]. split; [vm_compute; reflexivity|].
  destruct (C10_failed_Set_and_the_cell (H := exampleHost) 1%positive "yes" m m' errParse)
    as [Hbool _].
  destruct (Hbool H1) as [_ Hcell]. exact Hcell.
Defined.

(** Instances of the further properties on the example host. *)

Lemma declared_named : named (formal (declared ContinueOnError).1).
Proof.
  intros n spec. rewrite declared_formal.
  rewrite !lookup_insert_Some, lookup_empty.
  intros [[<- <-]|[_ [[<- <-]|[_ [[<- <-]|[_ ?]]]]]]; done.
Qed.

Lemma X2_witness :
  let e := (declared ContinueOnError).1 in
  named (formal e)
  /\ Name <$> VisitAll e ≡ₚ (map_to_list (formal e)).*1
  /\ NoDup (Name <$> VisitAll e).
Proof.
  intros e. split; [exact declared_named|].
  destruct (X2_listing_order_is_determined (H := exampleHost) (formal e) declared_named)
    as (Hperm & Hnd & _).
  split; [exact Hperm|exact Hnd].
Defined.

Lemma X3_witness :
  let e := (declared ContinueOnError).1 in
  let m := (declared ContinueOnError).2 in
  let r := Parse ["PORT=1"] e m in
  r = (r.1.1, r.1.2, Returned None)
  /\ Parse (["PORT=1"] ++ ["DEBUG=true"; "PORT=2"]) e m
     = Parse ["DEBUG=true"; "PORT=2"] r.1.1 r.1.2.
Proof.
  intros e m r.
  assert (H1 : r = (r.1.1, r.1.2, Returned None)) by (vm_compute; reflexivity).
  split; [exact H1|].
  exact (X3_Parse_of_a_concatenation (H := exampleHost)
           ["PORT=1"] ["DEBUG=true"; "PORT=2"] e m r.1.1 r.1.2 H1).
Defined.

Lemma X4_witness :
  let e := (declared ContinueOnError).1 in
  let m := (declared ContinueOnError).2 in
  let r := Parse ["PORT=x"] e m in
  r = (r.1.1, r.1.2, r.2) /\ r.2 <> Returned None
  /\ Parse (["PORT=x"] ++ ["DEBUG=true"]) e m
     = (set_environment (environment r.1.1 ++ ["DEBUG=true"]) r.1.1, r.1.2, r.2).
Proof.
  intros e m r.
  assert (H1 : r = (r.1.1, r.1.2, r.2)) by (by destruct r as [[e1 m1] o]).
  assert (H2 : r.2 <> Returned None) by (vm_compute; discriminate).
  split; [exact H1|]. split; [exact H2|].
  exact (X4_Parse_stops_at_the_first_failure (H := exampleHost)
           ["PORT=x"] ["DEBUG=true"] e m r.1.1 r.1.2 r.2 H1 H2).
Defined.

Lemma X7_witness :
  let e := (declared ContinueOnError).1 in
  let m := (declared ContinueOnError).2 in
  Usage e = None
  /\ exists r,
       (Parse ["PORT=x"] e m).2 = dispatch (errorHandling e) r
       /\ out (Parse ["PORT=x"] e m).1.2
          = out m ++ match r with
                     | None => ""
                     | Some err =>
                         (if error_eqb err ErrHelp then "" else Error err ++ LF) ++ listing e
                     end
       /\ defaultEnvironment e m = write (listing e) m.
Proof.
  intros e m.
  assert (H1 : Usage e = None) by (vm_compute; reflexivity).
  split; [exact H1|].
  exact (X7_what_Parse_writes (H := exampleHost) ["PORT=x"] e m H1).
Defined.


Lemma X9_witness :
  let e := (declared ContinueOnError).1 in
  let m := (declared ContinueOnError).2 in
  isHelp "HELP" = true
  /\ (exists e1, Var (boolValue 2) "HELP" "print help" e m = Ok (e1, m)
                 /\ is_Some (formal e1 !! "HELP")
                 /\ actual (Parse ["HELP=true"] e1 m).1.1 !! "HELP" = actual e1 !! "HELP").
Proof.
  intros e m.
  assert (H1 : isHelp "HELP" = true) by reflexivity.
  split; [exact H1|].
  destruct (X9_a_variable_named_HELP_is_never_set (H := exampleHost) "HELP" H1)
    as [Hvar Hparse].
  eexists. split.
  - apply Hvar; vm_compute; reflexivity.
  - split; [eexists; apply lookup_insert_eq|]. apply Hparse.
Defined.

Lemma X10_witness :
  let e := (declared ContinueOnError).1 in
  let m := (declared ContinueOnError).2 in
  (named (formal e) /\ formal e !! "PORT" = Some portSpec /\ isHelp "PORT" = false)
  /\ calls (Parse ["PORT=8080"] e m).1.2 = (calls m ++ [(intValue 1, "8080")])%list
  /\ mem (Parse ["PORT=8080"] e m).1.2 = mem (Value_Set (intValue 1) "8080" m).1.
Proof.
  intros e m.
  assert (H1 : formal e !! "PORT" = Some portSpec) by (vm_compute; reflexivity).
  assert (H2 : isHelp "PORT" = false) by reflexivity.
  split; [split; [exact declared_named|split; assumption]|].
  destruct (X10_a_declared_variable_is_reached_by_its_entry (H := exampleHost)
              e m "PORT" portSpec "8080" declared_named H1 H2) as (_ & Hmem & Hcalls).
  split; [exact Hcalls|exact Hmem].
Defined.

Lemma X11_witness :
  let spec := mkSpec (H := exampleHost) "HOME" "home directory" (stringValue 3) "" in
  let e := set_formal (<["HOME" := spec]> ∅) (NewEnvSet "" ContinueOnError) in
  (ContainsByte "HOME" "=" = false /\ isHelp "HOME" = false
   /\ formal e !! "HOME" = Some spec /\ Value_ spec = stringValue 3)
  /\ (exists e' m',
        Parse ["HOME=a=b"] e emptyMachine = (e', m', Returned None)
        /\ load_string (mem m') 3 = "a=b")
  /\ (exists e' m',
        Parse ["HOME"] e emptyMachine = (e', m', Returned None)
        /\ load_string (mem m') 3 = "").
Proof.
  intros spec e.
  assert (H1 : ContainsByte "HOME" "=" = false) by reflexivity.
  assert (H2 : isHelp "HOME" = false) by reflexivity.
  assert (H3 : formal e !! "HOME" = Some spec) by apply lookup_insert_eq.
  assert (H4 : Value_ spec = stringValue 3) by reflexivity.
  split; [repeat split; assumption|].
  destruct (X11_a_string_variable_stores_the_text_as_it_is (H := exampleHost)
              e emptyMachine "HOME" spec 3%positive H1 H2 H3 H4) as [Hval Hbare].
  split.
  - destruct (Hval "a=b") as (e' & m' & Hp & Hl & _). exists e', m'. split; [exact Hp|exact Hl].
  - destruct Hbare as (e' & m' & Hp & Hl & _). exists e', m'. split; [exact Hp|exact Hl].
Defined.

Lemma X13_witness :
  let e := (declared ContinueOnError).1 in
  let m := (declared ContinueOnError).2 in
  let e' := set_formal (<["COUNT" := mkSpec "COUNT" "how many" (uintValue 5) "7"]> (formal e)) e in
  let m' := set_mem <[5%positive := CInt 7]> m in
  declare (callUintVar 5 7) "COUNT" "how many" e m = Ok (e', m')
  /\ exists spec,
       formal e' = <["COUNT" := spec]> (formal e)
       /\ DefValue spec = Value_String (Value_ spec) m'
       /\ Value_Get (Value_ spec) m' = anyInt 7
       /\ named (formal e').
Proof.
  intros e m e' m'.
  assert (H1 : declare (callUintVar 5 7) "COUNT" "how many" e m = Ok (e', m'))
    by (vm_compute; reflexivity).
  split; [exact H1|].
  destruct (X13_what_a_declaration_records (H := exampleHost)
              (callUintVar 5 7) "COUNT" "how many" e m e' m' H1)
    as (spec & _ & Hf & _ & _ & Hd & Hg & _ & _ & _ & _ & Hn).
  exists spec. split; [exact Hf|]. split; [exact Hd|].
  split; [exact (Hg _ eq_refl)|exact (Hn declared_named)].
Defined.

Lemma X14_witness :
  let e := (declared ContinueOnError).1 in
  let m := (declared ContinueOnError).2 in
  let e0 := set_formal (<["COUNT" := mkSpec "COUNT" "how many" (uintValue 5) "0"]> (formal e)) e in
  let e7 := set_formal (<["COUNT" := mkSpec "COUNT" "how many" (uintValue 5) "7"]> (formal e)) e in
  (declare (callUintVar 5 0) "COUNT" "how many" e m
   = Ok (e0, set_mem <[5%positive := CInt 0]> m)
   /\ inRange (callUintVar 5 0) /\ zeroDefault (callUintVar 5 0) = Some true
   /\ exists spec, formal e0 !! "COUNT" = Some spec
                   /\ isZeroValue spec (DefValue spec) = (true, None))
  /\ (declare (callUintVar 5 7) "COUNT" "how many" e m
      = Ok (e7, set_mem <[5%positive := CInt 7]> m)
      /\ inRange (callUintVar 5 7) /\ zeroDefault (callUintVar 5 7) = Some false
      /\ exists spec, formal e7 !! "COUNT" = Some spec
                      /\ isZeroValue spec (DefValue spec) = (false, None)).
Proof.
  intros e m e0 e7.
  assert (H1 : declare (callUintVar 5 0) "COUNT" "how many" e m
               = Ok (e0, set_mem <[5%positive := CInt 0]> m)) by (vm_compute; reflexivity).
  assert (H2 : inRange (H := exampleHost) (callUintVar 5 0)) by (cbn; lia).
  assert (H3 : zeroDefault (H := exampleHost) (callUintVar 5 0) = Some true) by reflexivity.
  assert (H4 : declare (callUintVar 5 7) "COUNT" "how many" e m
               = Ok (e7, set_mem <[5%positive := CInt 7]> m)) by (vm_compute; reflexivity).
  assert (H5 : inRange (H := exampleHost) (callUintVar 5 7)) by (cbn; lia).
  assert (H6 : zeroDefault (H := exampleHost) (callUintVar 5 7) = Some false) by reflexivity.
  split.
  - split; [exact H1|]. split; [exact H2|]. split; [exact H3|].
    destruct (X14_the_zero_default_is_recognised (H := exampleHost)
                _ _ _ _ _ _ _ _ H1 H2 H3) as (spec & Hf & Hz & _).
    exists spec. split; [exact Hf|exact Hz].
  - split; [exact H4|]. split; [exact H5|]. split; [exact H6|].
    destruct (X14_the_zero_default_is_recognised (H := exampleHost)
                _ _ _ _ _ _ _ _ H4 H5 H6) as (spec & Hf & Hz & _).
    exists spec. split; [exact Hf|exact Hz].
Defined.

Lemma X15_witness :
  let t := {| typ := TPtr (TNamed "net.IP");
              UnmarshalText := fun s (w : @W exampleHost) => (s, None);
              MarshalText := None;
              assign := fun w => w |} in
  typ t = typ t
  /\ exists msg,
       TextVar t "ADDR" t "address" (declared ContinueOnError).1 (declared ContinueOnError).2
       = Panic msg (declared ContinueOnError).2.
Proof.
  intros t. split; [reflexivity|].
  destruct (X15_TextVar_and_the_types (H := exampleHost) t t (declared ContinueOnError).2)
    as [_ Hsame].
  exact (Hsame eq_refl "ADDR" "address" (declared ContinueOnError).1).
Defined.

Lemma X16_witness :
  let spec := mkSpec (H := exampleHost) "I" "search `directory` for include files"
                (stringValue 1) "" in
  (Description spec = "search " ++ "`" ++ "directory" ++ "`" ++ " for include files"
   /\ ContainsByte "search " backquote = false
   /\ ContainsByte "directory" backquote = false)
  /\ UnquoteUsage spec = ("directory", "search directory for include files").
Proof.
  intros spec.
  assert (H1 : Description spec
               = "search " ++ "`" ++ "directory" ++ "`" ++ " for include files")
    by reflexivity.
  assert (H2 : ContainsByte "search " backquote = false) by reflexivity.
  assert (H3 : ContainsByte "directory" backquote = false) by reflexivity.
  split; [repeat split; assumption|].
  destruct (X16_UnquoteUsage_takes_the_first_quoted_name (H := exampleHost) spec)
    as [Hquoted _].
  exact (Hquoted "search " "directory" " for include files" H1 H2 H3).
Defined.

Lemma X17_witness :
  let ds := [(callIntVar 1 0, "PORT", "port to listen on");
             (callBoolVar 2 false, "DEBUG", "debug output");
             (callBoolFunc remember, "VERBOSE", "say more")] in
  let e := (declared ContinueOnError).1 in
  let m := (declared ContinueOnError).2 in
  declareAll ds (NewEnvSet "" ContinueOnError) emptyMachine = Ok (e, m)
  /\ named (formal e)
  /\ Name <$> VisitAll e ≡ₚ ["PORT"; "DEBUG"; "VERBOSE"]
  /\ actual e = ∅.
Proof.
  intros ds e m.
  assert (H1 : declareAll ds (NewEnvSet "" ContinueOnError) emptyMachine = Ok (e, m))
    by (vm_compute; reflexivity).
  split; [exact H1|].
  destruct (X17_declarations_build_the_listing (H := exampleHost)
              ds "" ContinueOnError emptyMachine e m H1) as (Hn & _ & _ & Hl & Ha & _).
  split; [exact Hn|]. split; [exact Hl|exact Ha].
Defined.

Lemma X18_witness :
  let m' := (Value_Set (durationValue 3) "10000000000000000000h" emptyMachine).1 in
  Value_Set (durationValue 3) "10000000000000000000h" emptyMachine = (m', Some errParse)
  /\ Value_Set (uint64Value 1) "99999999999999999999" emptyMachine
     = ((Value_Set (uint64Value 1) "99999999999999999999" emptyMachine).1, Some errRange)
  /\ (errRange = errParse \/ errRange = errRange).
Proof.
  intros m'.
  assert (H1 : Value_Set (durationValue 3) "10000000000000000000h" emptyMachine
               = (m', Some errParse)) by (vm_compute; reflexivity).
  assert (H2 : Value_Set (uint64Value 1) "99999999999999999999" emptyMachine
               = ((Value_Set (uint64Value 1) "99999999999999999999" emptyMachine).1,
                  Some errRange)) by (vm_compute; reflexivity).
  split; [exact H1|]. split; [exact H2|].
  exact (X18_where_the_error_of_Set_comes_from (H := exampleHost) _ _ _ _ _ H2).
Defined.

Lemma X19_witness :
  let m := set_mem (H := exampleHost) <[3%positive := CInt 5]> emptyMachine in
  - 2 ^ 63 <= load_int (mem m) 3 < 2 ^ 63
  /\ - 2 ^ 63 <= load_int (mem (Value_Set (durationValue 3) "1h" m).1) 3 < 2 ^ 63.
Proof.
  intros m.
  assert (H1 : - 2 ^ 63 <= load_int (mem m) 3 < 2 ^ 63) by (split; [vm_compute; discriminate|vm_compute; reflexivity]).
  split; [exact H1|].
  destruct (X19_Set_stores_values_of_the_type (H := exampleHost) 3%positive "1h" m)
    as (_ & _ & _ & _ & Hd).
  exact (Hd H1).
Defined.
